(** * admixfrog / slug / em.py : EM and SQUAREM parameter estimation

    A shallow embedding of [src/admixfrog/slug/em.py] and the properties of
    its update functions and iteration controllers.

    Numbers.  The program computes with numpy [float64] scalars and arrays.
    They are modelled by [npfloat]: a finite value is an exact rational, and
    the three IEEE special values [+inf], [-inf] and [nan] are kept, with the
    IEEE rules for them (a comparison with [nan] is false, [x/0] is an
    infinity or [nan] and raises nothing, [inf - inf] is [nan]).  Rounding,
    overflow and the sign of zero are not modelled.

    Objects.  Parameter vectors and the controller are Python objects that the
    program mutates; they live in an explicit store ([State]) and are passed
    by reference ([ref]), so that aliasing is visible.

    Imports.  The emission model, the parameter-vector class, the data class
    and the controller are declared outside [em.py]; the classes are
    modelled as records with the attributes [em.py] uses, and the emission
    functions, [np.sqrt], [np.log] and [scipy.optimize.minimize] are the
    methods of two interfaces ([Emissions], [Numeric]).  The calls of the
    logger [log_] do not change any result and are left out. *)

From Stdlib Require Import QArith Qminmax Lqa ZArith Lia Bool.
From stdpp Require Import base option list.

Set Default Proof Using "Type".
Local Open Scope Z_scope.

(* ===================================================================== *)
(** ** Exceptions and fallible results *)
(* ===================================================================== *)

Inductive exn : Type :=
  | IndexError
  | ValueError
  | TypeError.

Inductive result (A : Type) : Type :=
  | Ok (a : A)
  | Raise (e : exn).
Arguments Ok {A} a.
Arguments Raise {A} e.

#[global] Instance result_ret : MRet result := fun _ a => Ok a.
#[global] Instance result_bind : MBind result := fun _ _ f m =>
  match m with
  | Ok a => f a
  | Raise e => Raise e
  end.

(** [for x in xs: acc = body(x, acc)], stopping at the first exception. *)
Fixpoint for_each {A S} (xs : list A) (body : A -> S -> result S) (acc : S)
  : result S :=
  match xs with
  | [] => Ok acc
  | x :: xs' => acc' ← body x acc; for_each xs' body acc'
  end.

(* ===================================================================== *)
(** ** numpy float64 scalars *)
(* ===================================================================== *)

Inductive npfloat : Type :=
  | Fin (q : Q)
  | PInf
  | NInf
  | NaN.

Module NP.

Definition Qlt_bool (a b : Q) : bool := negb (Qle_bool b a).

Definition of_nat (n : nat) : npfloat := Fin (inject_Z (Z.of_nat n)).

Definition zero : npfloat := Fin 0.
Definition one : npfloat := Fin 1.
Definition two : npfloat := Fin 2.

Definition isnan (x : npfloat) : bool :=
  match x with NaN => true | _ => false end.

Definition neg (x : npfloat) : npfloat :=
  match x with
  | Fin q => Fin (Qred (- q))
  | PInf => NInf
  | NInf => PInf
  | NaN => NaN
  end.

Definition add (x y : npfloat) : npfloat :=
  match x, y with
  | NaN, _ | _, NaN => NaN
  | Fin a, Fin b => Fin (Qred (a + b))
  | PInf, NInf | NInf, PInf => NaN
  | PInf, _ | _, PInf => PInf
  | NInf, _ | _, NInf => NInf
  end.

Definition sub (x y : npfloat) : npfloat := add x (neg y).

(** sign of a value: [Lt] negative, [Eq] zero, [Gt] positive; [nan] has none. *)
Definition sign (x : npfloat) : option comparison :=
  match x with
  | Fin q => Some (Qnum q ?= 0)%Z
  | PInf => Some Gt
  | NInf => Some Lt
  | NaN => None
  end.

Definition signed_inf (s t : comparison) : npfloat :=
  match s, t with
  | Eq, _ | _, Eq => NaN
  | Gt, Gt | Lt, Lt => PInf
  | _, _ => NInf
  end.

Definition mul (x y : npfloat) : npfloat :=
  match x, y with
  | Fin a, Fin b => Fin (Qred (a * b))
  | _, _ =>
      match sign x, sign y with
      | Some s, Some t => signed_inf s t
      | _, _ => NaN
      end
  end.

(** Division never raises: [x/0] is an infinity with the sign of [x], and
    [0/0] is [nan] (numpy gives a warning only). *)
Definition div (x y : npfloat) : npfloat :=
  match x, y with
  | NaN, _ | _, NaN => NaN
  | Fin a, Fin b =>
      if Qeq_bool b 0
      then match (Qnum a ?= 0)%Z with Eq => NaN | Gt => PInf | Lt => NInf end
      else Fin (Qred (a / b))
  | Fin _, _ => zero
  | _, Fin b =>
      match sign x, (Qnum b ?= 0)%Z with
      | Some s, Lt => signed_inf s Lt
      | Some s, _ => signed_inf s Gt
      | None, _ => NaN
      end
  | _, _ => NaN
  end.

Definition ltb (x y : npfloat) : bool :=
  match x, y with
  | NaN, _ | _, NaN => false
  | Fin a, Fin b => Qlt_bool a b
  | NInf, NInf => false
  | NInf, _ => true
  | _, PInf => match x with PInf => false | _ => true end
  | _, _ => false
  end.

Definition eqb (x y : npfloat) : bool :=
  match x, y with
  | Fin a, Fin b => Qeq_bool a b
  | PInf, PInf | NInf, NInf => true
  | _, _ => false
  end.

Definition leb (x y : npfloat) : bool := ltb x y || eqb x y.
Definition gtb (x y : npfloat) : bool := ltb y x.
Definition geb (x y : npfloat) : bool := leb y x.

(** [np.maximum], [np.minimum]: a [nan] operand gives [nan]. *)
Definition maximum (x y : npfloat) : npfloat :=
  if isnan x then x else if isnan y then y else if ltb x y then y else x.
Definition minimum (x y : npfloat) : npfloat :=
  if isnan x then x else if isnan y then y else if ltb y x then y else x.

(** [np.clip(x, lo, hi)] is [minimum(maximum(x, lo), hi)]. *)
Definition clip (x lo hi : npfloat) : npfloat := minimum (maximum x lo) hi.

(** [np.sum] of a one-dimensional array. *)
Definition sum (xs : list npfloat) : npfloat := fold_left add xs zero.

(** [np.nansum]: [nan] entries count as zero. *)
Definition nansum (xs : list npfloat) : npfloat :=
  sum (filter (fun x => isnan x = false) xs).

(** [np.mean] of a one-dimensional array; the mean of an empty array is
    [0/0 = nan] (numpy warns "Mean of empty slice" and raises nothing). *)
Definition mean (xs : list npfloat) : npfloat :=
  div (sum xs) (of_nat (length xs)).

(** the literals of the source *)
Definition lit_1e_300 : npfloat := Fin (1 # (10 ^ 300)).
Definition lit_1e_10 : npfloat := Fin (1 # (10 ^ 10)).

End NP.

Declare Scope np_scope.
Delimit Scope np_scope with np.
Bind Scope np_scope with npfloat.
Infix "+" := NP.add : np_scope.
Infix "-" := NP.sub : np_scope.
Infix "*" := NP.mul : np_scope.
Infix "/" := NP.div : np_scope.
Infix "<?" := NP.ltb : np_scope.
Infix "<=?" := NP.leb : np_scope.
Infix ">?" := NP.gtb : np_scope.
Infix ">=?" := NP.geb : np_scope.
Infix "=?" := NP.eqb : np_scope.

(* ===================================================================== *)
(** ** numpy arrays *)
(* ===================================================================== *)

(** A one-dimensional array is a list; a two-dimensional array with three
    (two) columns is a list of rows. *)
Abbreviation array := (list npfloat).
Abbreviation row3 := (npfloat * npfloat * npfloat)%type.
Abbreviation row2 := (npfloat * npfloat)%type.

Module Arr.

(** [a == k] for an integer array [a]: the boolean mask of the positions
    that hold [k]. *)
Definition eq_mask (a : list Z) (k : Z) : list bool := map (Z.eqb k) a.

(** [a[mask]] with a boolean mask: the selected entries, in order.  numpy
    raises [IndexError] when the mask and the array differ in length. *)
Definition select {A} (a : list A) (mask : list bool) : result (list A) :=
  if Nat.eqb (length mask) (length a)
  then Ok (map fst (filter (fun p => snd p = true) (zip a mask)))
  else Raise IndexError.

(** an integer index into an array of length [n]; a negative index counts
    from the end, and an index out of range raises [IndexError]. *)
Definition index (n : nat) (i : Z) : result nat :=
  if (0 <=? i) && (i <? Z.of_nat n) then Ok (Z.to_nat i)
  else if (- Z.of_nat n <=? i) && (i <? 0) then Ok (Z.to_nat (i + Z.of_nat n))
  else Raise IndexError.

(** [mask[idx] = False] with an integer index array [idx]. *)
Definition clear_at (mask : list bool) (idx : list Z) : result (list bool) :=
  for_each idx
    (fun i m => j ← index (length mask) i; Ok (<[j := false]> m)) mask.

(** [a & b] on boolean arrays of one length ([ValueError] otherwise). *)
Definition and_mask (a b : list bool) : result (list bool) :=
  if Nat.eqb (length a) (length b)
  then Ok (zip_with andb a b)
  else Raise ValueError.

(** [~a] on a boolean array. *)
Definition not_mask (a : list bool) : list bool := map negb a.

(** [np.all(~a)] *)
Definition all_false (a : list bool) : bool := forallb negb a.

(** [np.sum(rows, 0)]: the column totals of an array with three columns
    (three zeros when no row is selected). *)
Definition sum_rows (rows : list row3) : row3 :=
  (NP.sum (map (fun r => r.1.1) rows),
   NP.sum (map (fun r => r.1.2) rows),
   NP.sum (map (fun r => r.2) rows)).

(** [x[:] = v]: [v] is copied into an array of length [n]; an array of
    length one is broadcast, any other length raises [ValueError]. *)
Definition assign_all (n : nat) (v : array) : result array :=
  if Nat.eqb (length v) n then Ok v
  else match v with
       | [x] => Ok (replicate n x)
       | _ => Raise ValueError
       end.

End Arr.

(* ===================================================================== *)
(** ** Observation data *)
(* ===================================================================== *)

(** Modelled from the spec: the [SlugData] class is declared outside
    [em.py]; these are the attributes [em.py] reads, typed as section 3 of
    the specification describes them.  [haploid_snps] is [None] or an array
    of SNP indices. *)
Record SlugData : Type := {
  READS : list Z;
  FLIPPED_READS : list bool;
  READ2SNP : list Z;
  READ2RG : list Z;
  SNP2SFS : list Z;
  psi : array;
  haploid_snps : option (list Z);
  n_snps : nat;
  n_reads : nat;
  n_sfs : nat;
  n_rgs : nat;
}.

(* ===================================================================== *)
(** ** The closed-form updates *)
(* ===================================================================== *)

Local Open Scope np_scope.

(** [tau[k]] of [update_ftau], from the totals of category [k]. *)
Definition tau_update (G : row3) : npfloat :=
  let '(G0, G1, G2) := G in
  if G0 + G1 + G2 >? NP.zero
  then (G1 / NP.two + G2) / (G0 + G1 + G2)
  else NP.zero.

(** [F[k]] of [update_ftau], before clipping. *)
Definition F_update (G : row3) : npfloat :=
  let '(G0, G1, G2) := G in
  NP.two * G0 / (NP.two * G0 + G1 + NP.lit_1e_300)
  - G1 / (NP.two * G2 + G1 + NP.lit_1e_300).

(** the totals used for [F[k]]: those of the SNPs of category [k] that are
    not haploid, unless there is no such SNP or no haploid set. *)
Definition F_totals (data : SlugData) (post_g : list row3) (k : nat)
    (G : row3) : result row3 :=
  match haploid_snps data with
  | None => Ok G
  | Some hs =>
      ix1 ← Arr.clear_at (Arr.eq_mask (SNP2SFS data) (Z.of_nat k)) hs;
      if Arr.all_false ix1 then Ok G
      else rows ← Arr.select post_g ix1; Ok (Arr.sum_rows rows)
  end.

(** one pass of the loop [for k in range(data.n_sfs)] of [update_ftau];
    the loop state is [(tau, F)]. *)
Definition update_ftau_body (data : SlugData) (post_g : list row3)
    (update_F : bool) (k : nat) (st : array * array) : result (array * array) :=
  let '(tau, F) := st in
  rows ← Arr.select post_g (Arr.eq_mask (SNP2SFS data) (Z.of_nat k));
  let G := Arr.sum_rows rows in
  let tau := <[k := tau_update G]> tau in
  F ← (if update_F
       then G' ← F_totals data post_g k G; Ok (<[k := F_update G']> F)
       else Ok F);
  Ok (tau, map (fun x => NP.clip x NP.zero NP.one) F).

(** [update_ftau(old_F, old_tau, data, post_g, update_F)]; returns
    [(F, tau)]. *)
Definition update_ftau (old_F old_tau : array) (data : SlugData)
    (post_g : list row3) (update_F : bool) : result (array * array) :=
  tau ← Arr.assign_all (n_sfs data) old_tau;
  F ← Arr.assign_all (n_sfs data) old_F;
  '(tau, F) ← for_each (seq 0 (n_sfs data))
                (update_ftau_body data post_g update_F) (tau, F);
  Ok (F, tau).

(** [update_c(post_c, READ2RG, n_rgs)]; the array of [np.empty] starts as
    zeros here, and every entry of it is assigned. *)
Definition update_c (post_c : array) (READ2RG : list Z) (n_rgs : nat)
  : result array :=
  for_each (seq 0 n_rgs)
    (fun r c =>
       xs ← Arr.select post_c (Arr.eq_mask READ2RG (Z.of_nat r));
       Ok (<[r := NP.mean xs]> c))
    (replicate n_rgs NP.zero).

(** [np.sum(post_x[mask, col])] *)
Definition sum_col (post_x : list row2) (mask : list bool) (col : row2 -> npfloat)
  : result npfloat :=
  rows ← Arr.select post_x mask; Ok (NP.sum (map col rows)).

(** the four expected counts of [update_eb]:
    [(errors, not_errors, bias, not_bias)]. *)
Definition eb_counts (post_x : list row2) (R : list Z) (F : list bool)
  : result (npfloat * npfloat * npfloat * npfloat) :=
  let R := map (fun z => negb (Z.eqb z 0)) R in
  let nR := Arr.not_mask R in
  let nF := Arr.not_mask F in
  R_nF ← Arr.and_mask R nF;
  R_F ← Arr.and_mask R F;
  nR_nF ← Arr.and_mask nR nF;
  nR_F ← Arr.and_mask nR F;
  e1 ← sum_col post_x R_nF fst; e2 ← sum_col post_x R_F snd;
  n1 ← sum_col post_x nR_nF fst; n2 ← sum_col post_x nR_F snd;
  b1 ← sum_col post_x nR_nF snd; b2 ← sum_col post_x nR_F fst;
  m1 ← sum_col post_x R_nF snd; m2 ← sum_col post_x R_F fst;
  Ok (e1 + e2, n1 + n2, b1 + b2, m1 + m2).

(** the rates of [update_eb], from the four counts. *)
Definition eb_rates (two_errors : bool)
    (c : npfloat * npfloat * npfloat * npfloat) : npfloat * npfloat :=
  let '(errors, not_errors, bias, not_bias) := c in
  if two_errors
  then (if errors + not_errors >? NP.zero
        then errors / (errors + not_errors) else NP.zero,
        if bias + not_bias >? NP.zero
        then bias / (bias + not_bias) else NP.zero)
  else let e := (errors + bias) / (errors + bias + not_errors + not_bias) in
       (e, e).

(** [update_eb(post_x, R, F, two_errors)]; returns [(e, b)]. *)
Definition update_eb (post_x : list row2) (R : list Z) (F : list bool)
    (two_errors : bool) : result (npfloat * npfloat) :=
  c ← eb_counts post_x R F; Ok (eb_rates two_errors c).

Local Close Scope np_scope.

(* ===================================================================== *)
(** ** Parameter vectors and the controller *)
(* ===================================================================== *)

Module Pars.

(** Modelled from the spec: the parameter-vector class is declared outside
    [em.py].  Its blocks are those of section 3 of the specification: [F],
    [tau], [cont], [e], [b], the log-likelihood [ll] with [prev_ll], and a
    shadow copy [prev_*] of every block. *)
Record t : Type := mk {
  F : array;
  tau : array;
  cont : array;
  e : npfloat;
  b : npfloat;
  ll : npfloat;
  prev_ll : npfloat;
  prev_F : array;
  prev_tau : array;
  prev_cont : array;
  prev_e : npfloat;
  prev_b : npfloat;
}.

Definition set_F (v : array) (p : t) : t :=
  mk v (tau p) (cont p) (e p) (b p) (ll p) (prev_ll p)
     (prev_F p) (prev_tau p) (prev_cont p) (prev_e p) (prev_b p).
Definition set_tau (v : array) (p : t) : t :=
  mk (F p) v (cont p) (e p) (b p) (ll p) (prev_ll p)
     (prev_F p) (prev_tau p) (prev_cont p) (prev_e p) (prev_b p).
Definition set_cont (v : array) (p : t) : t :=
  mk (F p) (tau p) v (e p) (b p) (ll p) (prev_ll p)
     (prev_F p) (prev_tau p) (prev_cont p) (prev_e p) (prev_b p).
Definition set_e (v : npfloat) (p : t) : t :=
  mk (F p) (tau p) (cont p) v (b p) (ll p) (prev_ll p)
     (prev_F p) (prev_tau p) (prev_cont p) (prev_e p) (prev_b p).
Definition set_b (v : npfloat) (p : t) : t :=
  mk (F p) (tau p) (cont p) (e p) v (ll p) (prev_ll p)
     (prev_F p) (prev_tau p) (prev_cont p) (prev_e p) (prev_b p).
Definition set_ll (v : npfloat) (p : t) : t :=
  mk (F p) (tau p) (cont p) (e p) (b p) v (prev_ll p)
     (prev_F p) (prev_tau p) (prev_cont p) (prev_e p) (prev_b p).
Definition set_prev_ll (v : npfloat) (p : t) : t :=
  mk (F p) (tau p) (cont p) (e p) (b p) (ll p) v
     (prev_F p) (prev_tau p) (prev_cont p) (prev_e p) (prev_b p).
Definition set_prev_F (v : array) (p : t) : t :=
  mk (F p) (tau p) (cont p) (e p) (b p) (ll p) (prev_ll p)
     v (prev_tau p) (prev_cont p) (prev_e p) (prev_b p).
Definition set_prev_tau (v : array) (p : t) : t :=
  mk (F p) (tau p) (cont p) (e p) (b p) (ll p) (prev_ll p)
     (prev_F p) v (prev_cont p) (prev_e p) (prev_b p).
Definition set_prev_cont (v : array) (p : t) : t :=
  mk (F p) (tau p) (cont p) (e p) (b p) (ll p) (prev_ll p)
     (prev_F p) (prev_tau p) v (prev_e p) (prev_b p).
Definition set_prev_e (v : npfloat) (p : t) : t :=
  mk (F p) (tau p) (cont p) (e p) (b p) (ll p) (prev_ll p)
     (prev_F p) (prev_tau p) (prev_cont p) v (prev_b p).
Definition set_prev_b (v : npfloat) (p : t) : t :=
  mk (F p) (tau p) (cont p) (e p) (b p) (ll p) (prev_ll p)
     (prev_F p) (prev_tau p) (prev_cont p) (prev_e p) v.

(** [pars.pars]: the blocks flattened to one vector. *)
Definition pars (p : t) : array := F p ++ tau p ++ cont p ++ [e p; b p].

(** [pars.pars[:] = v]: the blocks are read back from a vector of the same
    length ([ValueError] otherwise). *)
Definition set_pars (v : array) (p : t) : result t :=
  if Nat.eqb (length v) (length (pars p))
  then
    let nF := length (F p) in
    let nt := length (tau p) in
    let nc := length (cont p) in
    let rest := drop (nF + nt + nc) v in
    Ok (set_b (default NaN (rest !! 1%nat))
       (set_e (default NaN (rest !! 0%nat))
       (set_cont (take nc (drop (nF + nt) v))
       (set_tau (take nt (drop nF v))
       (set_F (take nF v) p)))))
  else Raise ValueError.

(** [pars.delta_ll] *)
Definition delta_ll (p : t) : npfloat := (ll p - prev_ll p)%np.

End Pars.

Module Controller.

(** Modelled from the spec: the run configuration is declared outside
    [em.py]; these are the attributes [em.py] reads or writes. *)
Record t : Type := mk {
  update_ftau : bool;
  update_F : bool;
  update_cont : bool;
  update_eb : bool;
  update_bias : bool;
  do_ll : bool;
  copy_pars : bool;
  n_iter : Z;
  param_tol : npfloat;
  ll_tol : npfloat;
  squarem_min : npfloat;
  squarem_max : npfloat;
  squarem_mstep : npfloat;
}.

Definition set_copy_pars (v : bool) (c : t) : t :=
  mk (update_ftau c) (update_F c) (update_cont c) (update_eb c)
     (update_bias c) (do_ll c) v (n_iter c) (param_tol c) (ll_tol c)
     (squarem_min c) (squarem_max c) (squarem_mstep c).

End Controller.

(* ===================================================================== *)
(** ** State and exceptions *)
(* ===================================================================== *)

(** A computation over a mutable state [S] that returns or raises; what it
    wrote before raising stays written. *)
Definition ST (S A : Type) : Type := S -> result A * S.

#[global] Instance ST_ret {S} : MRet (ST S) := fun _ a s => (Ok a, s).
#[global] Instance ST_bind {S} : MBind (ST S) := fun _ _ f m s =>
  match m s with
  | (Ok a, s') => f a s'
  | (Raise e, s') => (Raise e, s')
  end.

Definition get {S} : ST S S := fun s => (Ok s, s).
Definition modify {S} (f : S -> S) : ST S unit := fun s => (Ok tt, f s).
Definition lift {S A} (r : result A) : ST S A := fun s => (r, s).
Definition when {S} (c : bool) (m : ST S unit) : ST S unit :=
  if c then m else mret tt.

(** References to parameter-vector objects, and the store: the objects in
    allocation order, and the one controller object of the run. *)
Abbreviation ref := nat.

Record State : Type := mkState {
  heap : list Pars.t;
  controller : Controller.t;
}.

Definition M : Type -> Type := ST State.

(** the object a reference denotes (a reference outside the store denotes
    none; the program forms no such reference) *)
Definition load (r : ref) : M Pars.t := fun s =>
  match heap s !! r with
  | Some p => (Ok p, s)
  | None => (Raise TypeError, s)
  end.

(** [deepcopy(pars)]: a new object with the same contents. *)
Definition deepcopy (r : ref) : M ref := fun s =>
  match heap s !! r with
  | Some p => (Ok (length (heap s)), mkState (heap s ++ [p]) (controller s))
  | None => (Raise TypeError, s)
  end.

(** run a computation on the object behind a reference, in place. *)
Definition on_object {A} (r : ref) (m : ST Pars.t A) : M A := fun s =>
  match heap s !! r with
  | Some p =>
      let '(a, p') := m p in
      (a, mkState (<[r := p']> (heap s)) (controller s))
  | None => (Raise TypeError, s)
  end.

Definition get_controller : M Controller.t := fun s => (Ok (controller s), s).

(* ===================================================================== *)
(** ** What [em.py] imports *)
(* ===================================================================== *)

(** [scipy.optimize.OptimizeResult], as far as [em.py] reads it: the
    convergence flag and the point [x = [tau, F]]. *)
Record OptimizeResult : Type := {
  success : bool;
  x : npfloat * npfloat;
}.

(** The numerical routines of numpy and scipy that are not arithmetic. *)
Class Numeric : Type := {
  np_sqrt : npfloat -> npfloat;
  np_log : npfloat -> npfloat;
  (** [minimize(f, init, bounds=bounds, method="L-BFGS-B")] *)
  minimize :
    (npfloat * npfloat -> result npfloat) -> npfloat * npfloat ->
    (npfloat * npfloat) * (npfloat * npfloat) -> result OptimizeResult;
}.

(** The emission model ([from .emissions import ...]): the forward and
    backward probabilities, the posteriors and the log-likelihood.  The
    module is outside [em.py]; its functions are taken as they are called,
    each returning or raising. *)
Class Emissions : Type := {
  fwd_p_g : SlugData -> Pars.t -> result (list row3);
  bwd_p_o_given_x :
    list Z -> list bool -> npfloat -> npfloat -> result (list row2);
  bwd_p_one_o_given_g :
    list row2 -> array -> array -> list Z -> list Z -> nat ->
    result (list row3);
  bwd_p_all_o_given_g : list row3 -> list Z -> nat -> result (list row3);
  fwd_p_x_cont : array -> list Z -> result array;
  fwd_p_x_nocont : list row3 -> list Z -> result array;
  fwd_p_x : array -> array -> array -> list Z -> result array;
  posterior_g : list row3 -> list row3 -> result (list row3);
  posterior_c :
    list row2 -> array -> array -> array -> list Z -> result array;
  posterior_x :
    list row2 -> array -> array -> array -> list Z -> result (list row2);
  calc_full_ll : SlugData -> Pars.t -> result npfloat;
}.

Section EM.

Context {numeric : Numeric} {emissions : Emissions}.

Local Open Scope np_scope.

(** [norm(self)] *)
Definition norm (self : array) : npfloat :=
  np_sqrt (NP.nansum (map (fun v => v * v) self)).

(* --------------------------------------------------------------------- *)
(** *** [update_ftau_numeric] *)

(** the objective [f(args)] for the totals [(G0, G1, G2)] of one category *)
Definition f (G : row3) (args : npfloat * npfloat) : result npfloat :=
  let '(G0, G1, G2) := G in
  let '(tau_, F_) := args in
  let c0 := F_ * (NP.one - tau_)
            + (NP.one - F_) * ((NP.one - tau_) * (NP.one - tau_)) in
  let c1 := (NP.one - F_) * NP.two * tau_ * (NP.one - tau_) in
  let c2 := F_ * tau_ + (NP.one - F_) * tau_ * tau_ in
  let x := np_log c0 * G0 + np_log c1 * G1 + np_log c2 * G2 in
  if NP.isnan x then Raise ValueError else Ok (NP.neg x).

Definition bounds : (npfloat * npfloat) * (npfloat * npfloat) :=
  ((NP.lit_1e_10, NP.one - NP.lit_1e_10),
   (NP.lit_1e_10, NP.one - NP.lit_1e_10)).

Definition at_index (a : array) (k : nat) : result npfloat :=
  match a !! k with
  | Some v => Ok v
  | None => Raise IndexError
  end.

Definition update_ftau_numeric_body (data : SlugData) (post_g : list row3)
    (k : nat) (st : array * array) : result (array * array) :=
  let '(tau, F) := st in
  rows ← Arr.select post_g (Arr.eq_mask (SNP2SFS data) (Z.of_nat k));
  let G := Arr.sum_rows rows in
  tau_k ← at_index tau k;
  F_k ← at_index F k;
  let init := (tau_k, F_k) in
  prev ← f G init;
  OO ← minimize (f G) init bounds;
  Ok (<[k := (x OO).1]> tau, <[k := (x OO).2]> F).

(** [update_ftau_numeric(old_F, old_tau, data, post_g, update_F)]; returns
    [(F, tau)].  With [update_F] false the source calls the constant
    [NotImplemented], which is a [TypeError]. *)
Definition update_ftau_numeric (old_F old_tau : array) (data : SlugData)
    (post_g : list row3) (update_F : bool) : result (array * array) :=
  if negb update_F then Raise TypeError
  else
    tau ← Arr.assign_all (n_sfs data) old_tau;
    F ← Arr.assign_all (n_sfs data) old_F;
    '(tau, F) ← for_each (seq 0 (n_sfs data))
                  (update_ftau_numeric_body data post_g) (tau, F);
    Ok (F, tau).

(* --------------------------------------------------------------------- *)
(** *** [update_pars] *)

(** the block [if O.update_ftau:] *)
Definition update_pars_ftau (O : Controller.t) (data : SlugData)
    (bwd_g fwd_g : list row3) : ST Pars.t unit :=
  post_g ← lift (posterior_g bwd_g fwd_g);
  pars ← get;
  prev_F ← lift (Arr.assign_all (length (Pars.prev_F pars)) (Pars.F pars));
  modify (Pars.set_prev_F prev_F);;
  prev_tau ← lift (Arr.assign_all (length (Pars.prev_tau pars)) (Pars.tau pars));
  modify (Pars.set_prev_tau prev_tau);;
  '(F, tau) ← lift (update_ftau_numeric (Pars.F pars) (Pars.tau pars) data
                      post_g (Controller.update_F O));
  modify (Pars.set_F F);;
  modify (Pars.set_tau tau).

(** the block [if O.update_cont:] *)
Definition update_pars_cont (data : SlugData) (bwd_x : list row2)
    (fwd_x_nocont fwd_x_cont fwd_c : array) : ST Pars.t unit :=
  post_c ← lift (posterior_c bwd_x fwd_x_nocont fwd_x_cont fwd_c (READ2RG data));
  pars ← get;
  prev_cont ← lift (Arr.assign_all (length (Pars.prev_cont pars)) (Pars.cont pars));
  modify (Pars.set_prev_cont prev_cont);;
  cont ← lift (update_c post_c (READ2RG data) (n_rgs data));
  modify (Pars.set_cont cont).

(** the block [if O.update_eb:] *)
Definition update_pars_eb (O : Controller.t) (data : SlugData)
    (bwd_x : list row2) (fwd_x_cont fwd_x_nocont fwd_c : array)
  : ST Pars.t unit :=
  post_x ← lift (posterior_x bwd_x fwd_x_cont fwd_x_nocont fwd_c (READ2RG data));
  pars ← get;
  modify (Pars.set_prev_e (Pars.e pars));;
  modify (Pars.set_prev_b (Pars.b pars));;
  '(e, b) ← lift (update_eb post_x (READS data) (FLIPPED_READS data)
                    (Controller.update_bias O));
  modify (Pars.set_e e);;
  modify (Pars.set_b b).

(** the block [if O.do_ll:] *)
Definition update_pars_ll (data : SlugData) : ST Pars.t unit :=
  pars ← get;
  ll ← lift (calc_full_ll data pars);
  modify (Pars.set_ll ll);;
  modify (Pars.set_prev_ll (Pars.ll pars)).

(** the body of [update_pars] after the first line, on the object [pars]
    (the arrays read from [pars] are the values at the point of the read:
    [fwd_c] is what [pars.cont] holds at line 201, the parameter vector
    being a value type in the specification; whether a later write to
    [pars.cont] shows through [fwd_c] is a matter of the class, which is
    declared outside [em.py]) *)
Definition update_pars_body (O : Controller.t) (data : SlugData)
  : ST Pars.t unit :=
  pars ← get;
  fwd_g ← lift (fwd_p_g data pars);
  let fwd_a := psi data in
  let fwd_c := Pars.cont pars in
  bwd_x ← lift (bwd_p_o_given_x (READS data) (FLIPPED_READS data)
                  (Pars.e pars) (Pars.b pars));
  bwd_g1 ← lift (bwd_p_one_o_given_g bwd_x fwd_a fwd_c (READ2SNP data)
                   (READ2RG data) (n_reads data));
  bwd_g ← lift (bwd_p_all_o_given_g bwd_g1 (READ2SNP data) (n_snps data));
  fwd_x_cont ← lift (fwd_p_x_cont fwd_a (READ2SNP data));
  fwd_x_nocont ← lift (fwd_p_x_nocont fwd_g (READ2SNP data));
  fwd_x ← lift (fwd_p_x fwd_x_cont fwd_x_nocont fwd_c (READ2RG data));
  when (Controller.update_ftau O) (update_pars_ftau O data bwd_g fwd_g);;
  when (Controller.update_cont O)
    (update_pars_cont data bwd_x fwd_x_nocont fwd_x_cont fwd_c);;
  when (Controller.update_eb O)
    (update_pars_eb O data bwd_x fwd_x_cont fwd_x_nocont fwd_c);;
  when (Controller.do_ll O) (update_pars_ll data).

(** [update_pars(pars, data, controller)]: one EM step, on a deep copy of
    [pars] or on [pars] itself; returns the object it updated. *)
Definition update_pars (pars : ref) (data : SlugData) : M ref :=
  O ← get_controller;
  pars ← (if Controller.copy_pars O then deepcopy pars else mret pars);
  on_object pars (update_pars_body O data);;
  mret pars.

End EM.

(* ===================================================================== *)
(** ** The iteration controllers *)
(* ===================================================================== *)

Section Controllers.

Context {numeric : Numeric} {emissions : Emissions}.

Local Open Scope np_scope.

(** elementwise [a - b] and [a + b] of two vectors of one length *)
Definition vec_sub (a b : array) : result array :=
  if Nat.eqb (length a) (length b) then Ok (zip_with NP.sub a b)
  else Raise ValueError.
Definition vec_add (a b : array) : result array :=
  if Nat.eqb (length a) (length b) then Ok (zip_with NP.add a b)
  else Raise ValueError.
(** [c * a] for a scalar [c] *)
Definition vec_scale (c : npfloat) (a : array) : array := map (NP.mul c) a.

Definition EPS : npfloat := NP.lit_1e_10.

(** the stabilization step of [squarem] on the flat vector of [pars_sq] *)
Definition stabilize (v : array) : array :=
  if forallb (fun c => NP.zero <=? c) v && forallb (fun c => c <=? NP.one) v
  then v
  else map (fun c => if c >? NP.one then NP.one - EPS else c)
         (map (fun c => if c <? NP.zero then EPS else c) v).

(** how one pass of the loop of [squarem] ends: [break] with the point to
    return, or the next pass with its current point and step bound. *)
Inductive outcome : Type :=
  | Stop (pars : ref)
  | Next (pars : ref) (max_step : npfloat).

(** lines 291-300: the acceptance rule, from the log-likelihoods of
    [pars2] and [pars_sq]: the current point and step bound of the next
    pass *)
Definition accept_rule (O : Controller.t) (pars2 pars_sq : ref)
    (ll2 ll_sq step_size max_step : npfloat) : outcome :=
  if ll_sq <=? ll2
  then
    Next pars2
      (if step_size >=? max_step
       then NP.maximum (Controller.squarem_max O)
              (max_step / Controller.squarem_mstep O)
       else max_step)
  else
    Next pars_sq
      (if step_size =? max_step
       then max_step * Controller.squarem_mstep O
       else max_step).

Definition squarem_accept (O : Controller.t) (pars2 pars_sq : ref)
    (step_size max_step : npfloat) : M outcome :=
  p_sq ← load pars_sq;
  p2 ← load pars2;
  mret (accept_rule O pars2 pars_sq (Pars.ll p2) (Pars.ll p_sq)
          step_size max_step).

(** line 275: [pars.pars + 2 * step_size * Δp1 + step_size * step_size * Δp3] *)
Definition candidate (p : Pars.t) (Δp1 Δp3 : array) (step_size : npfloat)
  : result array :=
  v1 ← vec_add (Pars.pars p) (vec_scale (NP.two * step_size) Δp1);
  vec_add v1 (vec_scale (step_size * step_size) Δp3).

(** [pars_sq.pars[:] = v] *)
Definition assign_pars (v : Pars.t -> array) : ST Pars.t unit :=
  p_sq ← get;
  p_sq' ← lift (Pars.set_pars (v p_sq) p_sq);
  modify (fun _ => p_sq').

(** lines 274-300: the extrapolated candidate, its evaluation and the
    acceptance rule *)
Definition squarem_extrapolate (O : Controller.t) (data : SlugData)
    (pars pars2 : ref) (Δp1 Δp3 : array) (step_size max_step : npfloat)
  : M outcome :=
  pars_sq ← deepcopy pars2;
  p ← load pars;
  v ← lift (candidate p Δp1 Δp3 step_size);
  on_object pars_sq (assign_pars (fun _ => v));;
  on_object pars_sq (assign_pars (fun p_sq => stabilize (Pars.pars p_sq)));;
  pars_sq ← update_pars pars_sq data;
  squarem_accept O pars2 pars_sq step_size max_step.

(** one pass of [for i in range(controller.n_iter)] of [squarem] *)
Definition squarem_iter (data : SlugData) (min_step : npfloat)
    (pars : ref) (max_step : npfloat) : M outcome :=
  O ← get_controller;
  pars1 ← update_pars pars data;
  p1 ← load pars1;
  p ← load pars;
  Δp1 ← lift (vec_sub (Pars.pars p1) (Pars.pars p));
  if (norm Δp1 <? Controller.param_tol O)
     || (Pars.ll p1 - Pars.prev_ll p1 <? Controller.ll_tol O)
  then mret (Stop pars1)
  else
    pars2 ← update_pars pars1 data;
    p2 ← load pars2;
    p1 ← load pars1;
    Δp2 ← lift (vec_sub (Pars.pars p2) (Pars.pars p1));
    if (norm Δp2 <? Controller.param_tol O)
       || (Pars.ll p2 - Pars.ll p1 <? Controller.ll_tol O)
    then mret (Stop pars2)
    else
      Δp3 ← lift (vec_sub Δp2 Δp1);
      let step_size := norm Δp1 / norm Δp3 in
      let step_size := NP.clip step_size min_step max_step in
      squarem_extrapolate O data pars pars2 Δp1 Δp3 step_size max_step.

Fixpoint squarem_loop (n : nat) (data : SlugData) (min_step : npfloat)
    (pars : ref) (max_step : npfloat) : M ref :=
  match n with
  | O => mret pars
  | S n' =>
      r ← squarem_iter data min_step pars max_step;
      match r with
      | Stop pars' => mret pars'
      | Next pars' max_step' => squarem_loop n' data min_step pars' max_step'
      end
  end.

(** [squarem(pars0, data, controller)] *)
Definition squarem (pars0 : ref) (data : SlugData) : M ref :=
  modify (fun s => mkState (heap s)
                     (Controller.set_copy_pars true (controller s)));;
  O ← get_controller;
  let min_step := Controller.squarem_min O in
  let max_step := Controller.squarem_max O in
  squarem_loop (Z.to_nat (Controller.n_iter O)) data min_step pars0 max_step.

Fixpoint em_loop (n : nat) (pars : ref) (data : SlugData) : M unit :=
  match n with
  | O => mret tt
  | S n' =>
      update_pars pars data;;
      p ← load pars;
      O ← get_controller;
      if Pars.delta_ll p <? Controller.ll_tol O then mret tt
      else em_loop n' pars data
  end.

(** [em(pars, data, controller)] *)
Definition em (pars : ref) (data : SlugData) : M ref :=
  O ← get_controller;
  em_loop (Z.to_nat (Controller.n_iter O)) pars data;;
  mret pars.

End Controllers.

(* ===================================================================== *)
(** ** A small emission model, to run the program on concrete inputs *)
(* ===================================================================== *)

Module Stub.

(** a square root that is exact on the squares of rationals *)
Definition sqrt_sq (v : npfloat) : npfloat :=
  match v with
  | Fin q =>
      if NP.Qlt_bool q 0 then NaN
      else Fin (Z.sqrt (Qnum q) # Pos.sqrt (Qden q))
  | PInf => PInf
  | _ => NaN
  end.

(** the optimizer is replaced by one that evaluates the objective at the
    starting point and answers the centre of the box *)
Definition numeric : Numeric := {|
  np_sqrt := sqrt_sq;
  np_log := fun v => NP.sub v NP.one;
  minimize := fun f init _ =>
    _ ← f init; Ok {| success := true; x := (Fin (1 # 2), Fin (1 # 2)) |}
|}.

(** every SNP has genotype posterior [(1, 0, 0)]; the contamination
    posterior of a read is [step] of the rate of its read-group; the
    log-likelihood is [loglik] of the parameters. *)
Definition emissions (step : npfloat -> npfloat) (loglik : Pars.t -> npfloat)
  : Emissions := {|
  fwd_p_g := fun data _ =>
    Ok (map (fun _ => (NP.one, NP.zero, NP.zero)) (SNP2SFS data));
  bwd_p_o_given_x := fun _ _ _ _ => Ok [];
  bwd_p_one_o_given_g := fun _ _ _ _ _ _ => Ok [];
  bwd_p_all_o_given_g := fun _ _ _ => Ok [];
  fwd_p_x_cont := fun _ _ => Ok [];
  fwd_p_x_nocont := fun _ _ => Ok [];
  fwd_p_x := fun _ _ _ _ => Ok [];
  posterior_g := fun _ fwd_g => Ok fwd_g;
  posterior_c := fun _ _ _ fwd_c READ2RG =>
    Ok (map (fun r => step (default NaN (fwd_c !! Z.to_nat r))) READ2RG);
  posterior_x := fun _ _ _ _ READ2RG =>
    Ok (map (fun _ => (Fin (1 # 2), Fin (1 # 2))) READ2RG);
  calc_full_ll := fun _ pars => Ok (loglik pars)
|}.

(** one SNP in one SFS category, one read in one read-group *)
Definition data : SlugData := {|
  READS := [1]; FLIPPED_READS := [false]; READ2SNP := [0]; READ2RG := [0];
  SNP2SFS := [0]; psi := [Fin (1 # 2)]; haploid_snps := None;
  n_snps := 1; n_reads := 1; n_sfs := 1; n_rgs := 1
|}.

(** the contamination rate of the one read-group *)
Definition c0 (p : Pars.t) : npfloat := default NaN (Pars.cont p !! 0%nat).

Definition pars0 (ll : npfloat) : Pars.t :=
  Pars.mk [Fin (1 # 4)] [Fin (1 # 4)] [Fin 0] (Fin (1 # 100)) (Fin (1 # 100))
    ll NInf [Fin (1 # 4)] [Fin (1 # 4)] [Fin 0] (Fin (1 # 100)) (Fin (1 # 100)).

(** a configuration that updates the contamination rate only and
    recomputes the log-likelihood *)
Definition ctl (copy : bool) (n : Z) (ll_tol smin smax mstep : npfloat)
  : Controller.t :=
  Controller.mk false true true false true true copy n (Fin (1 # 1000))
    ll_tol smin smax mstep.

(** the store with the one object [pars0 ll], at reference [0] *)
Definition store (ll : npfloat) (c : Controller.t) : State :=
  mkState [pars0 ll] c.

(** the contamination rate and log-likelihood of the returned object *)
Definition final (r : result ref * State) : option (npfloat * npfloat) :=
  match r with
  | (Ok x, s) => p ← heap s !! x; Some (c0 p, Pars.ll p)
  | _ => None
  end.

(** the rate drifts upward by [1/10] per step *)
Definition drift (c : npfloat) : npfloat := NP.add c (Fin (1 # 10)).
(** the rate moves half way to [1] per step *)
Definition halfway (c : npfloat) : npfloat :=
  NP.div (NP.add c NP.one) NP.two.
(** a log-likelihood that grows with the rate *)
Definition rising (p : Pars.t) : npfloat :=
  if NP.isnan (c0 p) then NInf else c0 p.
(** a log-likelihood with its maximum at rate [3/4] *)
Definition peak (p : Pars.t) : npfloat :=
  if NP.isnan (c0 p) then NInf
  else NP.neg (NP.mul (NP.sub (c0 p) (Fin (3 # 4)))
                 (NP.sub (c0 p) (Fin (3 # 4)))).

End Stub.

(* ===================================================================== *)
(** ** Notions used to state the properties *)
(* ===================================================================== *)

(** the entries a mask selects *)
Definition selected {A} (a : list A) (mask : list bool) : list A :=
  map fst (filter (fun p => snd p = true) (zip a mask)).

(** an integer is a valid index into an array of length [n] *)
Definition valid_index (n : nat) (i : Z) : Prop :=
  (- Z.of_nat n <= i < Z.of_nat n)%Z.

(** the rows of [post_g] of the SNPs of category [k], and their totals
    [(G0, G1, G2)] *)
Definition rows_of_category (data : SlugData) (post_g : list row3) (k : nat)
  : list row3 :=
  selected post_g (Arr.eq_mask (SNP2SFS data) (Z.of_nat k)).

Definition totals (data : SlugData) (post_g : list row3) (k : nat) : row3 :=
  Arr.sum_rows (rows_of_category data post_g k).

(** the haploid set, when there is one, holds valid SNP indices *)
Definition haploid_ok (data : SlugData) : Prop :=
  match haploid_snps data with
  | None => True
  | Some hs => Forall (valid_index (length (SNP2SFS data))) hs
  end.

Definition clip01 (v : npfloat) : npfloat := NP.clip v NP.zero NP.one.

(** the entries of [post_c] of the reads of read-group [r] *)
Definition reads_of_group (post_c : array) (READ2RG : list Z) (r : nat)
  : array :=
  selected post_c (Arr.eq_mask READ2RG (Z.of_nat r)).

(** the total of one column of [post_x] over the reads whose flags
    ([R] cast to [bool], [F]) satisfy [cls] *)
Definition class_sum (post_x : list row2) (R : list Z) (F : list bool)
    (cls : bool -> bool -> bool) (col : row2 -> npfloat) : npfloat :=
  NP.sum (map col
    (selected post_x (zip_with cls (map (fun z => negb (Z.eqb z 0)) R) F))).

(** [val v q]: [v] is finite, with the rational value [q]. *)
Definition val (v : npfloat) (q : Q) : Prop :=
  exists q', v = Fin q' /\ (q' == q)%Q.

(** a finite value that is not negative; a finite value in [[0, 1]] *)
Definition nonneg (v : npfloat) : Prop := exists q, val v q /\ (0 <= q)%Q.
Definition prob (v : npfloat) : Prop := exists q, val v q /\ (0 <= q <= 1)%Q.

(** [0 <= v <= 1], with the comparisons of the program *)
Definition in01 (v : npfloat) : Prop :=
  (NP.zero <=? v)%np = true /\ (v <=? NP.one)%np = true.

Definition finite (v : npfloat) : Prop := exists q, v = Fin q.

Definition row3_nonneg (r : row3) : Prop :=
  nonneg r.1.1 /\ nonneg r.1.2 /\ nonneg r.2.
Definition row2_nonneg (r : row2) : Prop := nonneg r.1 /\ nonneg r.2.

(** an entry that compares equal to zero *)
Definition is_zero (v : npfloat) : Prop := (v =? NP.zero)%np = true.

(** [frame proj m]: running [m] leaves the component [proj] of the state as
    it was, whether [m] returns or raises. *)
Definition frame {S X A} (proj : S -> X) (m : ST S A) : Prop :=
  forall s, proj (m s).2 = proj s.

(** [pars] is returned when the step [a] returned, the exception of [a]
    otherwise *)
Definition returning {A} (a : result unit) (pars : A) : result A :=
  match a with Ok _ => Ok pars | Raise e => Raise e end.

(** the log-likelihood of the object behind a reference *)
Definition ll_at (s : State) (r : ref) : npfloat :=
  match heap s !! r with
  | Some p => Pars.ll p
  | None => NaN
  end.

(** a list of values in which no value is followed by a smaller one *)
Definition nondecreasing (l : list npfloat) : Prop :=
  forall (i : nat) (a b : npfloat),
    l !! i = Some a -> l !! S i = Some b -> (a <=? b)%np = true.

(** three SNPs in categories 0, 0 and 2 (category 1 is empty); the third
    SNP is haploid *)
Definition example_data : SlugData := {|
  READS := []; FLIPPED_READS := []; READ2SNP := []; READ2RG := [];
  SNP2SFS := [0; 0; 2]; psi := []; haploid_snps := Some [2];
  n_snps := 3; n_reads := 0; n_sfs := 3; n_rgs := 1
|}.

Definition example_post_g : list row3 :=
  [(Fin (1 # 2), Fin (1 # 2), Fin 0);
   (Fin (1 # 4), Fin (1 # 4), Fin (1 # 2));
   (Fin 0, Fin 0, Fin 1)].

(** [0 < v < 1], with the comparisons of the program *)
Definition inside01 (v : npfloat) : Prop :=
  (NP.zero <? v)%np = true /\ (v <? NP.one)%np = true.

(** the entry the stabilization step of [squarem] leaves for an entry [c] *)
Definition stabilized (c : npfloat) : npfloat :=
  if (c <? NP.zero)%np then EPS
  else if (c >? NP.one)%np then (NP.one - EPS)%np
  else c.

(** an entry that is [nan], or inside [[0, 1]]; an entry that is [nan], or
    zero *)
Definition nan_or_in01 (c : npfloat) : Prop := NP.isnan c = true \/ in01 c.
Definition nan_or_zero (c : npfloat) : Prop := NP.isnan c = true \/ is_zero c.

(** the index [h] of the haploid set denotes SNP [i] of [n] SNPs (an index
    below zero counts from the end) *)
Definition denotes (n : nat) (h : Z) (i : nat) : bool :=
  Z.eqb h (Z.of_nat i) || Z.eqb (h + Z.of_nat n) (Z.of_nat i).

(** SNP [i] is in the haploid set *)
Definition is_haploid (data : SlugData) (i : nat) : bool :=
  match haploid_snps data with
  | None => false
  | Some hs => existsb (fun h => denotes (length (SNP2SFS data)) h i) hs
  end.

(** the mask of the SNPs of category [k] that are not haploid *)
Definition diploid_mask (data : SlugData) (k : nat) : list bool :=
  imap (fun i z => Z.eqb (Z.of_nat k) z && negb (is_haploid data i))
    (SNP2SFS data).

(** the totals [F[k]] is computed from: those of the SNPs of category [k]
    that are not haploid, and those of all SNPs of the category when it has
    no such SNP *)
Definition F_basis (data : SlugData) (post_g : list row3) (k : nat) : row3 :=
  if Arr.all_false (diploid_mask data k) then totals data post_g k
  else Arr.sum_rows (selected post_g (diploid_mask data k)).

(** what [update_ftau] leaves in [F[k]] where [v] was, after the passes for
    the categories [a, ..., a+n-1] *)
Definition F_after (data : SlugData) (post_g : list row3) (update_F : bool)
    (a n k : nat) (v : npfloat) : npfloat :=
  if update_F && (a <=? k)%nat && (k <? a + n)%nat
  then clip01 (F_update (F_basis data post_g k))
  else if (n =? 0)%nat then v else clip01 v.

(** the parameter blocks of [p'] with the log-likelihood fields of [p] *)
Definition with_ll_of (p p' : Pars.t) : Pars.t :=
  Pars.set_prev_ll (Pars.prev_ll p) (Pars.set_ll (Pars.ll p) p').


(** [keeps h m Q]: run from a store that begins with the objects [h] and
    has [copy_pars] set, [m] leaves a store that begins with [h] and has
    [copy_pars] set, whether it returns or raises, and a value it returns
    satisfies [Q]. *)
Definition keeps {A} (h : list Pars.t) (m : M A) (Q : A -> Prop) : Prop :=
  forall s,
    Controller.copy_pars (controller s) = true ->
    (exists l, heap s = h ++ l) ->
    Controller.copy_pars (controller (m s).2) = true
    /\ (exists l, heap (m s).2 = h ++ l)
    /\ forall a, (m s).1 = Ok a -> Q a.

(** a natural logarithm with [log 0 = -inf], and the optimizer of
    [Stub.numeric] *)
Definition log_numeric : Numeric := {|
  np_sqrt := Stub.sqrt_sq;
  np_log := fun v => if (v =? NP.zero)%np then NInf else NP.sub v NP.one;
  minimize := @minimize Stub.numeric
|}.

(** the current point at the end of an outer iteration of [squarem], by
    its log-likelihood: kept by the acceptance rule ([pars2] on rejection,
    [pars_sq] on acceptance), or kept by a stopping check ([pars1] or
    [pars2], the point that [squarem] returns) *)
Inductive kept : Type :=
  | by_rule (ll : npfloat)
  | at_break (ll : npfloat).

Definition kept_ll (k : kept) : npfloat :=
  match k with by_rule v | at_break v => v end.

(** the log-likelihoods of the points kept by the acceptance rule *)
Fixpoint kept_by_rule (t : list kept) : list npfloat :=
  match t with
  | [] => []
  | by_rule v :: t' => v :: kept_by_rule t'
  | at_break _ :: t' => kept_by_rule t'
  end.

(** the current point at the end of a pass of the loop of [squarem] *)
Definition outcome_ref (out : outcome) : ref :=
  match out with Stop r | Next r _ => r end.

(** the rate moves half way to [1] per step, and never down *)
Definition climb (c : npfloat) : npfloat := NP.maximum c (Stub.halfway c).

Section Notions.

Context {numeric : Numeric} {emissions : Emissions}.

Local Open Scope np_scope.

(** the optimizer keeps the point it returns inside the box [bounds] that
    [update_ftau_numeric] passes to it *)
Definition respects_bounds : Prop :=
  forall f0 init OO,
    minimize f0 init bounds = Ok OO ->
    (NP.lit_1e_10 <=? (x OO).1) = true
    /\ ((x OO).1 <=? NP.one - NP.lit_1e_10) = true
    /\ (NP.lit_1e_10 <=? (x OO).2) = true
    /\ ((x OO).2 <=? NP.one - NP.lit_1e_10) = true.

(** the genotype posterior that [update_pars] computes from [pars] *)
Definition post_g_of (data : SlugData) (pars : Pars.t) : result (list row3) :=
  fwd_g ← fwd_p_g data pars;
  bwd_x ← bwd_p_o_given_x (READS data) (FLIPPED_READS data)
            (Pars.e pars) (Pars.b pars);
  bwd_g1 ← bwd_p_one_o_given_g bwd_x (psi data) (Pars.cont pars)
             (READ2SNP data) (READ2RG data) (n_reads data);
  bwd_g ← bwd_p_all_o_given_g bwd_g1 (READ2SNP data) (n_snps data);
  posterior_g bwd_g fwd_g.

(** one EM step on the value of an object *)
Definition em_step (O : Controller.t) (data : SlugData) (p : Pars.t)
  : result Pars.t :=
  match update_pars_body O data p with
  | (Ok _, p') => Ok p'
  | (Raise e, _) => Raise e
  end.

(** A pass of the loop of [squarem] as a function of the value [p] of the
    current point, for a store that holds [n] objects: its outcome, and the
    objects it adds to the store ([pars1], [pars2], the candidate and the
    evaluated candidate [pars_sq]). *)
Definition squarem_pass (O : Controller.t) (data : SlugData)
    (min_step : npfloat) (n : nat) (p : Pars.t) (max_step : npfloat)
  : result (outcome * list Pars.t) :=
  p1 ← em_step O data p;
  Δp1 ← vec_sub (Pars.pars p1) (Pars.pars p);
  if (norm Δp1 <? Controller.param_tol O)
     || (Pars.ll p1 - Pars.prev_ll p1 <? Controller.ll_tol O)
  then Ok (Stop n, [p1])
  else
    p2 ← em_step O data p1;
    Δp2 ← vec_sub (Pars.pars p2) (Pars.pars p1);
    if (norm Δp2 <? Controller.param_tol O)
       || (Pars.ll p2 - Pars.ll p1 <? Controller.ll_tol O)
    then Ok (Stop (n + 1)%nat, [p1; p2])
    else
      Δp3 ← vec_sub Δp2 Δp1;
      let step_size := NP.clip (norm Δp1 / norm Δp3) min_step max_step in
      v ← candidate p Δp1 Δp3 step_size;
      q0 ← Pars.set_pars v p2;
      q ← Pars.set_pars (stabilize (Pars.pars q0)) q0;
      p_sq ← em_step O data q;
      Ok (accept_rule O (n + 1)%nat (n + 3)%nat (Pars.ll p2) (Pars.ll p_sq)
            step_size max_step,
          [p1; p2; q; p_sq]).

(** the loop of [squarem], recording the log-likelihood of the current
    point at the end of every pass: of the point kept by the acceptance
    rule when the pass goes on to the next, and of the point kept by
    [pars = pars1; break] or [pars = pars2; break], which [squarem]
    returns, when a stopping check fires *)
Fixpoint squarem_loop_traced (n : nat) (data : SlugData) (min_step : npfloat)
    (pars : ref) (max_step : npfloat) (s : State)
  : list kept * (result ref * State) :=
  match n with
  | O => ([], (Ok pars, s))
  | S n' =>
      match squarem_iter data min_step pars max_step s with
      | (Ok (Next pars' max_step'), s') =>
          let '(t, r) :=
            squarem_loop_traced n' data min_step pars' max_step' s' in
          (by_rule (ll_at s' pars') :: t, r)
      | (Ok (Stop pars'), s') =>
          ([at_break (ll_at s' pars')], (Ok pars', s'))
      | (Raise e, s') => ([], (Raise e, s'))
      end
  end.

(** the attribute [ll] of [p] is the log-likelihood of its parameters *)
Definition ll_current (data : SlugData) (p : Pars.t) : Prop :=
  calc_full_ll data p = Ok (Pars.ll p).

(** [calc_full_ll] reads the parameters of the object it is given, not its
    attributes [ll] and [prev_ll] *)
Definition ll_reads_parameters : Prop :=
  forall (data : SlugData) (p : Pars.t) (a b : npfloat),
    calc_full_ll data (Pars.set_prev_ll b (Pars.set_ll a p))
    = calc_full_ll data p.

(** the monotonicity of EM: an EM step from a point whose [ll] is current
    does not lower the log-likelihood *)
Definition em_never_decreases (O : Controller.t) (data : SlugData) : Prop :=
  forall p p' : Pars.t,
    ll_current data p -> em_step O data p = Ok p' ->
    (Pars.ll p <=? Pars.ll p') = true.

(** what holds of the current point along a run: its [ll] is not [nan],
    and it is current when the configuration recomputes it *)
Definition settled (O : Controller.t) (data : SlugData) (p : Pars.t) : Prop :=
  NP.isnan (Pars.ll p) = false
  /\ (Controller.do_ll O = true -> ll_current data p).

(** what a pass computed when it goes on to the next: the two EM iterates
    [p1], [p2], the differences, the clipped step size, the stabilized
    candidate [q] and its evaluation [p_sq] *)
Record pass_data : Type := {
  pd_p1 : Pars.t;
  pd_p2 : Pars.t;
  pd_Δp1 : array;
  pd_Δp2 : array;
  pd_Δp3 : array;
  pd_q : Pars.t;
  pd_p_sq : Pars.t;
}.

Definition pd_step_size (d : pass_data) (min_step max_step : npfloat)
  : npfloat :=
  NP.clip (norm (pd_Δp1 d) / norm (pd_Δp3 d)) min_step max_step.

(** for the configuration [O], the pass from the point [p] gets past both
    stopping checks, with the iterates and differences of [d] *)
Definition past_checks (O : Controller.t) (data : SlugData) (p : Pars.t)
    (d : pass_data) : Prop :=
  em_step O data p = Ok (pd_p1 d)
  /\ vec_sub (Pars.pars (pd_p1 d)) (Pars.pars p) = Ok (pd_Δp1 d)
  /\ (norm (pd_Δp1 d) <? Controller.param_tol O)
     || (Pars.ll (pd_p1 d) - Pars.prev_ll (pd_p1 d) <? Controller.ll_tol O)
     = false
  /\ em_step O data (pd_p1 d) = Ok (pd_p2 d)
  /\ vec_sub (Pars.pars (pd_p2 d)) (Pars.pars (pd_p1 d)) = Ok (pd_Δp2 d)
  /\ (norm (pd_Δp2 d) <? Controller.param_tol O)
     || (Pars.ll (pd_p2 d) - Pars.ll (pd_p1 d) <? Controller.ll_tol O)
     = false
  /\ vec_sub (pd_Δp2 d) (pd_Δp1 d) = Ok (pd_Δp3 d).

(** the candidate of [d] is the extrapolation from [p] with the step size
    [step_size], stabilized, and [pd_p_sq d] is its evaluation by an EM
    step *)
Definition evaluates_candidate (O : Controller.t) (data : SlugData)
    (p : Pars.t) (d : pass_data) (step_size : npfloat) : Prop :=
  (exists v q0,
      candidate p (pd_Δp1 d) (pd_Δp3 d) step_size = Ok v
      /\ Pars.set_pars v (pd_p2 d) = Ok q0
      /\ Pars.set_pars (stabilize (Pars.pars q0)) q0 = Ok (pd_q d))
  /\ em_step O data (pd_q d) = Ok (pd_p_sq d).

Definition pass_computes (O : Controller.t) (data : SlugData)
    (min_step max_step : npfloat) (p : Pars.t) (d : pass_data) : Prop :=
  past_checks O data p d
  /\ evaluates_candidate O data p d (pd_step_size d min_step max_step).

(** the contamination posterior that [update_pars] computes from [pars] *)
Definition post_c_of (data : SlugData) (pars : Pars.t) : result array :=
  fwd_g ← fwd_p_g data pars;
  bwd_x ← bwd_p_o_given_x (READS data) (FLIPPED_READS data)
            (Pars.e pars) (Pars.b pars);
  fwd_x_cont ← fwd_p_x_cont (psi data) (READ2SNP data);
  fwd_x_nocont ← fwd_p_x_nocont fwd_g (READ2SNP data);
  posterior_c bwd_x fwd_x_nocont fwd_x_cont (Pars.cont pars) (READ2RG data).

(** the allele posterior that [update_pars] computes from [pars] *)
Definition post_x_of (data : SlugData) (pars : Pars.t) : result (list row2) :=
  fwd_g ← fwd_p_g data pars;
  bwd_x ← bwd_p_o_given_x (READS data) (FLIPPED_READS data)
            (Pars.e pars) (Pars.b pars);
  fwd_x_cont ← fwd_p_x_cont (psi data) (READ2SNP data);
  fwd_x_nocont ← fwd_p_x_nocont fwd_g (READ2SNP data);
  posterior_x bwd_x fwd_x_cont fwd_x_nocont (Pars.cont pars) (READ2RG data).

(** [n] EM steps in a row on the value of an object *)
Fixpoint em_steps (n : nat) (O : Controller.t) (data : SlugData)
    (p : Pars.t) : result Pars.t :=
  match n with
  | O => Ok p
  | S n' => p' ← em_step O data p; em_steps n' O data p'
  end.

(** the iteration of [em] on the value of the object it updates: at most
    [n] EM steps, stopping after the first with [delta_ll] below [ll_tol] *)
Fixpoint em_iterate (n : nat) (O : Controller.t) (data : SlugData)
    (p : Pars.t) : result Pars.t :=
  match n with
  | O => Ok p
  | S n' =>
      p' ← em_step O data p;
      if Pars.delta_ll p' <? Controller.ll_tol O then Ok p'
      else em_iterate n' O data p'
  end.


End Notions.

(** one pass of [squarem] on the small emission model with a rate that
    moves by [1/10] per EM step, spelled out *)
Module ZeroDemo.

Definition numeric : Numeric := Stub.numeric.
Definition emissions : Emissions := Stub.emissions Stub.drift Stub.rising.

Definition c : Controller.t :=
  Stub.ctl true 1 (Fin (1 # 100)) (Fin 1) (Fin 4) (Fin 4).
Definition s : State := Stub.store (Fin 0) c.
Definition p : Pars.t := Stub.pars0 (Fin 0).

Definition get {A} (default : A) (r : result A) : A :=
  match r with Ok a => a | Raise _ => default end.

Definition p1 : Pars.t := get p (@em_step numeric emissions c Stub.data p).
Definition p2 : Pars.t := get p (@em_step numeric emissions c Stub.data p1).
Definition Δp1 : array := get [] (vec_sub (Pars.pars p1) (Pars.pars p)).
Definition Δp2 : array := get [] (vec_sub (Pars.pars p2) (Pars.pars p1)).
Definition Δp3 : array := get [] (vec_sub Δp2 Δp1).
Definition v : array := get [] (candidate p Δp1 Δp3 (Fin 4)).
Definition q0 : Pars.t := get p (Pars.set_pars v p2).
Definition q : Pars.t :=
  get p (Pars.set_pars (stabilize (Pars.pars q0)) q0).
Definition p_sq : Pars.t := get p (@em_step numeric emissions c Stub.data q).

Definition d : pass_data := {|
  pd_p1 := p1; pd_p2 := p2; pd_Δp1 := Δp1; pd_Δp2 := Δp2; pd_Δp3 := Δp3;
  pd_q := q; pd_p_sq := p_sq
|}.

End ZeroDemo.

(* ===================================================================== *)
(** ** Basic facts: results, arrays *)
(* ===================================================================== *)

Lemma length_eq_mask (a : list Z) (k : Z) : length (Arr.eq_mask a k) = length a.
Proof. unfold Arr.eq_mask. apply length_map. Qed.

Lemma select_ok {A} (a : list A) (mask : list bool) :
  length mask = length a -> Arr.select a mask = Ok (selected a mask).
Proof.
  intros E. unfold Arr.select. rewrite E, Nat.eqb_refl. reflexivity.
Qed.

Lemma index_ok (n : nat) (i : Z) :
  valid_index n i -> exists j, Arr.index n i = Ok j.
Proof.
  unfold valid_index, Arr.index. intros [Hl Hu].
  destruct (0 <=? i)%Z eqn:E0.
  - assert ((i <? Z.of_nat n)%Z = true) as -> by lia. simpl. eauto.
  - simpl. assert ((- Z.of_nat n <=? i)%Z = true) as -> by lia.
    assert ((i <? 0)%Z = true) as -> by lia. simpl. eauto.
Qed.

Lemma clear_at_ok (idx : list Z) (mask : list bool) :
  Forall (valid_index (length mask)) idx ->
  exists m, Arr.clear_at mask idx = Ok m /\ length m = length mask.
Proof.
  unfold Arr.clear_at.
  generalize (length mask) at 1 2 as n.
  intros n H. revert mask.
  induction H as [|i idx Hi _ IH]; intros mask; simpl.
  - eauto.
  - destruct (index_ok n i Hi) as [j ->]. simpl.
    destruct (IH (<[j := false]> mask)) as (m & -> & Hm).
    exists m. split; [reflexivity|]. rewrite Hm. apply length_insert.
Qed.

(* ===================================================================== *)
(** ** The closed-form SFS update *)
(* ===================================================================== *)

Section UpdateFtau.

Variables (data : SlugData) (post_g : list row3) (update_F : bool).
Hypothesis Hlen : length (SNP2SFS data) = length post_g.
Hypothesis Hhap : haploid_ok data.

Lemma F_totals_ok (k : nat) (G : row3) :
  exists G', F_totals data post_g k G = Ok G'.
Proof using Hlen Hhap.
  unfold F_totals. unfold haploid_ok in Hhap.
  destruct (haploid_snps data) as [hs|]; [|eauto].
  destruct (clear_at_ok hs (Arr.eq_mask (SNP2SFS data) (Z.of_nat k)))
    as (m & -> & Hm).
  { now rewrite length_eq_mask. }
  simpl. destruct (Arr.all_false m); [eauto|].
  rewrite select_ok by (rewrite Hm, length_eq_mask; exact Hlen).
  simpl. eauto.
Qed.

Lemma update_ftau_body_ok (k : nat) (tau F : array) :
  exists F',
    update_ftau_body data post_g update_F k (tau, F)
    = Ok (<[k := tau_update (totals data post_g k)]> tau, F')
    /\ length F' = length F.
Proof using Hlen Hhap.
  unfold update_ftau_body.
  rewrite select_ok by (rewrite length_eq_mask; exact Hlen). simpl.
  fold (rows_of_category data post_g k). fold (totals data post_g k).
  destruct update_F.
  - destruct (F_totals_ok k (totals data post_g k)) as [G' ->]. simpl.
    eexists; split; [reflexivity|].
    now rewrite length_map, length_insert.
  - simpl. eexists; split; [reflexivity|]. now rewrite length_map.
Qed.

(** The loop of [update_ftau] over the categories [a, ..., a+n-1] returns,
    and leaves in [tau[k]] the closed form of the totals of category [k]. *)
Lemma update_ftau_loop (n a : nat) (tau F : array) :
  exists tau' F',
    for_each (seq a n) (update_ftau_body data post_g update_F) (tau, F)
    = Ok (tau', F')
    /\ length tau' = length tau /\ length F' = length F
    /\ (forall k, (a <= k < a + n)%nat -> (k < length tau)%nat ->
          tau' !! k = Some (tau_update (totals data post_g k)))
    /\ (forall k, (k < a)%nat -> tau' !! k = tau !! k).
Proof using Hlen Hhap.
  revert a tau F. induction n as [|n IH]; intros a tau F; cbn [seq for_each].
  - exists tau, F. repeat split; auto. intros k Hk; lia.
  - destruct (update_ftau_body_ok a tau F) as (F1 & -> & HF1).
    cbn [mbind result_bind].
    destruct (IH (S a) (<[a := tau_update (totals data post_g a)]> tau) F1)
      as (tau' & F' & -> & Ht & HF & Hin & Hout).
    exists tau', F'. rewrite length_insert in Ht.
    repeat split; [congruence | congruence | |].
    + intros k Hk Hk'. destruct (decide (k = a)) as [->|Hne].
      * rewrite Hout by lia. now apply list_lookup_insert_eq.
      * apply Hin; [lia|]. now rewrite length_insert.
    + intros k Hk. rewrite Hout by lia.
      apply list_lookup_insert_ne. lia.
Qed.

End UpdateFtau.

Lemma update_ftau_body_diploid (data : SlugData) (post_g : list row3)
    (k : nat) (tau F : array) :
  length (SNP2SFS data) = length post_g ->
  haploid_snps data = None ->
  update_ftau_body data post_g true k (tau, F)
  = Ok (<[k := tau_update (totals data post_g k)]> tau,
        map clip01 (<[k := F_update (totals data post_g k)]> F)).
Proof.
  intros Hlen Hnone. unfold update_ftau_body, F_totals.
  rewrite select_ok by (rewrite length_eq_mask; exact Hlen).
  rewrite Hnone. reflexivity.
Qed.

Lemma assign_all_same (n : nat) (v : array) :
  length v = n -> Arr.assign_all n v = Ok v.
Proof. intros <-. unfold Arr.assign_all. now rewrite Nat.eqb_refl. Qed.

Lemma gtb_zero_of_eqb (v : npfloat) :
  NP.eqb v NP.zero = true -> NP.gtb v NP.zero = false.
Proof.
  destruct v as [q| | |]; simpl; try discriminate.
  unfold NP.gtb, NP.ltb, NP.Qlt_bool. simpl. intros H.
  apply Qeq_bool_iff in H.
  apply negb_false_iff, Qle_bool_iff. rewrite H. apply Qle_refl.
Qed.

(** C5. For every SFS category [k], the closed-form [update_ftau] returns
    and sets [tau[k] = (G1/2 + G2)/(G0+G1+G2)] from the totals of the
    posterior genotype probabilities over the SNPs of category [k]; it sets
    [tau[k] = 0] when that denominator is zero, in particular for a category
    with no SNP.  For [n_sfs = 1] and totals [G0 = 10, G1 = G2 = 0] it returns
    [tau = 0] and [F = 2*G0/(2*G0 + 1e-300)], which lies within [1e-299]
    of [1]. *)
Theorem update_ftau_closed_form :
  (forall (old_F old_tau : array) (data : SlugData) (post_g : list row3)
          (update_F : bool),
      length (SNP2SFS data) = length post_g ->
      haploid_ok data ->
      length old_tau = n_sfs data ->
      length old_F = n_sfs data ->
      exists F tau : array,
        update_ftau old_F old_tau data post_g update_F = Ok (F, tau)
        /\ forall k, (k < n_sfs data)%nat ->
             let '(G0, G1, G2) := totals data post_g k in
             tau !! k
             = Some (if (G0 + G1 + G2 >? NP.zero)%np
                     then ((G1 / NP.two + G2) / (G0 + G1 + G2))%np
                     else NP.zero)
             /\ ((G0 + G1 + G2 =? NP.zero)%np = true -> tau !! k = Some NP.zero)
             /\ (rows_of_category data post_g k = [] ->
                 tau !! k = Some NP.zero))
  /\
  (forall (old_F old_tau : array) (data : SlugData) (post_g : list row3),
      length (SNP2SFS data) = length post_g ->
      haploid_snps data = None ->
      n_sfs data = 1%nat ->
      length old_tau = 1%nat ->
      length old_F = 1%nat ->
      totals data post_g 0 = (Fin 10, Fin 0, Fin 0) ->
      exists F0 : npfloat,
        update_ftau old_F old_tau data post_g true = Ok ([F0], [NP.zero])
        /\ F0 = (NP.two * Fin 10 / (NP.two * Fin 10 + NP.lit_1e_300))%np
        /\ (Fin (1 - (1 # 10 ^ 299)) <? F0)%np = true
        /\ (F0 <=? NP.one)%np = true).
Proof.
  split.
  - intros old_F old_tau data post_g update_F Hlen Hhap Htau HF.
    unfold update_ftau.
    rewrite (assign_all_same _ _ Htau), (assign_all_same _ _ HF).
    cbn [mbind result_bind].
    destruct (update_ftau_loop data post_g update_F Hlen Hhap
                (n_sfs data) 0 old_tau old_F)
      as (tau' & F' & -> & Ht & _ & Hin & _).
    cbn [mbind result_bind]. exists F', tau'. split; [reflexivity|].
    intros k Hk. specialize (Hin k).
    unfold tau_update in Hin.
    destruct (totals data post_g k) as [[G0 G1] G2] eqn:EG.
    assert (Hk' : tau' !! k
                  = Some (if (G0 + G1 + G2 >? NP.zero)%np
                          then ((G1 / NP.two + G2) / (G0 + G1 + G2))%np
                          else NP.zero)).
    { apply Hin; lia. }
    split; [exact Hk'|]. split.
    + intros Hz. rewrite Hk'. now rewrite (gtb_zero_of_eqb _ Hz).
    + intros Hrows. rewrite Hk'. unfold totals in EG. rewrite Hrows in EG.
      inversion EG; subst. reflexivity.
  - intros old_F old_tau data post_g Hlen Hnone Hn Htau HF HG.
    unfold update_ftau. rewrite Hn.
    rewrite (assign_all_same _ _ Htau), (assign_all_same _ _ HF).
    cbn [mbind result_bind seq for_each].
    rewrite (update_ftau_body_diploid _ _ _ _ _ Hlen Hnone), HG.
    destruct old_tau as [|t [|]]; try discriminate.
    destruct old_F as [|f0 [|]]; try discriminate.
    eexists. split; [reflexivity|].
    split; [|split]; vm_compute; reflexivity.
Qed.

Lemma update_ftau_closed_form_witness :
  haploid_ok example_data
  /\ exists F tau : array,
       update_ftau [Fin 0; Fin 0; Fin 0] [Fin 0; Fin 0; Fin 0]
         example_data example_post_g true = Ok (F, tau)
       /\ tau !! 0%nat = Some (Fin (7 # 16))
       /\ tau !! 1%nat = Some NP.zero.
Proof.
  assert (Hh : haploid_ok example_data).
  { repeat constructor; unfold valid_index; simpl; lia. }
  split; [exact Hh|].
  destruct (proj1 update_ftau_closed_form
              [Fin 0; Fin 0; Fin 0] [Fin 0; Fin 0; Fin 0]
              example_data example_post_g true eq_refl Hh eq_refl eq_refl)
    as (F & tau & E & H).
  exists F, tau. split; [exact E|]. split.
  - exact (proj1 (H 0%nat ltac:(simpl; lia))).
  - pose proof (H 1%nat ltac:(simpl; lia)) as H1.
    change (totals example_data example_post_g 1)
      with (NP.zero, NP.zero, NP.zero) in H1.
    exact (proj1 H1).
Defined.

(* ===================================================================== *)
(** ** The contamination update *)
(* ===================================================================== *)

Lemma update_c_loop (post_c : array) (READ2RG : list Z) :
  length READ2RG = length post_c ->
  forall (n a : nat) (c : array),
  exists c' : array,
    for_each (seq a n)
      (fun r c =>
         xs ← Arr.select post_c (Arr.eq_mask READ2RG (Z.of_nat r));
         Ok (<[r := NP.mean xs]> c)) c = Ok c'
    /\ length c' = length c
    /\ (forall r, (a <= r < a + n)%nat -> (r < length c)%nat ->
          c' !! r = Some (NP.mean (reads_of_group post_c READ2RG r)))
    /\ (forall r, (r < a)%nat -> c' !! r = c !! r).
Proof.
  intros Hlen n. induction n as [|n IH]; intros a c; cbn [seq for_each].
  - exists c. repeat split; auto. intros r Hr; lia.
  - rewrite select_ok by (rewrite length_eq_mask; exact Hlen).
    cbn [mbind result_bind].
    fold (reads_of_group post_c READ2RG a).
    destruct (IH (S a) (<[a := NP.mean (reads_of_group post_c READ2RG a)]> c))
      as (c' & -> & Hc & Hin & Hout).
    exists c'. rewrite length_insert in Hc.
    repeat split; [congruence | |].
    + intros r Hr Hr'. destruct (decide (r = a)) as [->|Hne].
      * rewrite Hout by lia. now apply list_lookup_insert_eq.
      * apply Hin; [lia|]. now rewrite length_insert.
    + intros r Hr. rewrite Hout by lia. apply list_lookup_insert_ne. lia.
Qed.

(** C8 (the claim as stated fails): for a read-group without reads
    [update_c] returns, and the entry it returns is [nan], the mean of an
    empty selection. *)
Lemma update_c_empty_group_nan :
  update_c [Fin (1 # 2)] [0] 2 = Ok [Fin (1 # 2); NaN].
Proof. reflexivity. Qed.

(** What [update_c] returns, entry by entry. *)
Lemma update_c_entries (post_c : array) (READ2RG : list Z) (n_rgs : nat) :
  length READ2RG = length post_c ->
  exists c : array,
    update_c post_c READ2RG n_rgs = Ok c
    /\ length c = n_rgs
    /\ forall r, (r < n_rgs)%nat ->
         c !! r = Some (NP.mean (reads_of_group post_c READ2RG r)).
Proof.
  intros Hlen. unfold update_c.
  destruct (update_c_loop post_c READ2RG Hlen n_rgs 0 (replicate n_rgs NP.zero))
    as (c & -> & Hc & Hin & _).
  rewrite length_replicate in Hc.
  exists c. split; [reflexivity|]. split; [exact Hc|].
  intros r Hr. apply Hin; [lia|]. now rewrite length_replicate.
Qed.

Lemma mean_nonempty (xs : array) :
  xs <> [] ->
  NP.mean xs = (NP.sum xs / NP.of_nat (length xs))%np
  /\ (NP.zero <? NP.of_nat (length xs))%np = true.
Proof. destruct xs as [|y ys]; [congruence|]. intros _. split; reflexivity. Qed.

(** C8 (amended). With one read-group index per read, [update_c] returns an
    array with one entry per read-group and raises nothing; [cont[r]] is the
    mean of [post_c] over the reads of group [r], the sum of those entries
    divided by their number, when the group has a read, and it is [nan]
    (no fallback value) when the group has none. *)
Theorem update_c_mean (post_c : array) (READ2RG : list Z) (n_rgs : nat) :
  length READ2RG = length post_c ->
  exists c : array,
    update_c post_c READ2RG n_rgs = Ok c
    /\ length c = n_rgs
    /\ forall r, (r < n_rgs)%nat ->
         let xs := reads_of_group post_c READ2RG r in
         (xs <> [] ->
          c !! r = Some (NP.sum xs / NP.of_nat (length xs))%np
          /\ (NP.zero <? NP.of_nat (length xs))%np = true)
         /\ (xs = [] -> c !! r = Some NaN).
Proof.
  intros Hlen.
  destruct (update_c_entries post_c READ2RG n_rgs Hlen) as (c & E & Hc & H).
  exists c. split; [exact E|]. split; [exact Hc|].
  intros r Hr. set (xs := reads_of_group post_c READ2RG r).
  specialize (H r Hr). fold xs in H. split.
  - intros Hne. destruct (mean_nonempty xs Hne) as [Hm Hpos].
    rewrite <- Hm. auto.
  - intros Hnil. rewrite H, Hnil. reflexivity.
Qed.

Lemma update_c_mean_witness :
  exists c : array,
    update_c [Fin (1 # 2); Fin (1 # 4); Fin 1] [0; 0; 2] 3 = Ok c
    /\ c !! 0%nat = Some (Fin (3 # 8))
    /\ c !! 1%nat = Some NaN.
Proof.
  destruct (update_c_mean [Fin (1 # 2); Fin (1 # 4); Fin 1] [0; 0; 2] 3 eq_refl)
    as (c & E & _ & H).
  exists c. split; [exact E|]. split.
  - exact (proj1 (proj1 (H 0%nat ltac:(lia)) ltac:(discriminate))).
  - exact (proj2 (H 1%nat ltac:(lia)) eq_refl).
Defined.

(* ===================================================================== *)
(** ** The error and bias update *)
(* ===================================================================== *)

Lemma zip_with_not_l (a b : list bool) :
  zip_with andb (Arr.not_mask a) b = zip_with (fun x y => negb x && y) a b.
Proof.
  revert b. induction a as [|x a IH]; intros [|y b]; simpl; auto.
  now rewrite <- IH.
Qed.

Lemma zip_with_not_r (a b : list bool) :
  zip_with andb a (Arr.not_mask b) = zip_with (fun x y => x && negb y) a b.
Proof.
  revert b. induction a as [|x a IH]; intros [|y b]; simpl; auto.
  now rewrite <- IH.
Qed.

Lemma zip_with_not_both (a b : list bool) :
  zip_with andb (Arr.not_mask a) (Arr.not_mask b)
  = zip_with (fun x y => negb x && negb y) a b.
Proof.
  revert b. induction a as [|x a IH]; intros [|y b]; simpl; auto.
  now rewrite <- IH.
Qed.

Lemma and_mask_ok (a b : list bool) :
  length a = length b -> Arr.and_mask a b = Ok (zip_with andb a b).
Proof. intros E. unfold Arr.and_mask. now rewrite E, Nat.eqb_refl. Qed.

Lemma sum_col_ok (post_x : list row2) (mask : list bool) (col : row2 -> npfloat) :
  length mask = length post_x ->
  sum_col post_x mask col = Ok (NP.sum (map col (selected post_x mask))).
Proof. intros E. unfold sum_col. now rewrite (select_ok _ _ E). Qed.

Lemma length_zip_with_same {A B C} (g : A -> B -> C) (a : list A) (b : list B) :
  length a = length b -> length (zip_with g a b) = length a.
Proof.
  revert b. induction a as [|x a IH]; intros [|y b]; simpl; auto.
Qed.

(** the four counts, as totals over the four classes of reads *)
Lemma eb_counts_ok (post_x : list row2) (R : list Z) (F : list bool) :
  length R = length post_x ->
  length F = length post_x ->
  eb_counts post_x R F
  = Ok ((class_sum post_x R F (fun r f => r && negb f) fst
         + class_sum post_x R F (fun r f => r && f) snd)%np,
        (class_sum post_x R F (fun r f => negb r && negb f) fst
         + class_sum post_x R F (fun r f => negb r && f) snd)%np,
        (class_sum post_x R F (fun r f => negb r && negb f) snd
         + class_sum post_x R F (fun r f => negb r && f) fst)%np,
        (class_sum post_x R F (fun r f => r && negb f) snd
         + class_sum post_x R F (fun r f => r && f) fst)%np).
Proof.
  intros HR HF. unfold eb_counts, class_sum.
  set (Rb := map (fun z => negb (Z.eqb z 0)) R).
  assert (HRb : length Rb = length F).
  { unfold Rb. rewrite length_map. congruence. }
  rewrite !and_mask_ok
    by (unfold Arr.not_mask; rewrite ?length_map; exact HRb).
  cbn [mbind result_bind].
  rewrite zip_with_not_r, zip_with_not_l, zip_with_not_both.
  rewrite !sum_col_ok
    by (rewrite length_zip_with_same by exact HRb; congruence).
  reflexivity.
Qed.

(** C7 (the claim as stated fails): in the mode with a single error rate
    the value returned for [e] is not [errors/(errors+not_errors)] but the
    merged rate, here [2/5] where the counts are [1, 1, 1, 2]. *)
Lemma update_eb_single_rate_merges :
  let post_x := [(Fin 1, Fin 0); (Fin 1, Fin 0); (Fin 0, Fin 1);
                 (Fin 0, Fin 1); (Fin 0, Fin 1)] in
  let R := [1; 0; 1; 1; 0]%Z in
  let F := [false; false; false; false; false] in
  eb_counts post_x R F = Ok (Fin 1, Fin 1, Fin 1, Fin 2)
  /\ update_eb post_x R F false = Ok (Fin (2 # 5), Fin (2 # 5))
  /\ (Fin 1 / (Fin 1 + Fin 1))%np = Fin (1 # 2)
  /\ (Fin 1 / (Fin 1 + Fin 2))%np = Fin (1 # 3)
  /\ update_eb post_x R F true = Ok (Fin (1 # 2), Fin (1 # 3)).
Proof. repeat split; reflexivity. Qed.

(** C7 (amended). With one flag pair per read, [update_eb] raises nothing,
    whatever the counts.  In the mode with two error rates it returns
    [e = errors/(errors+not_errors)], or [0] when that denominator is not
    positive, and [b] likewise from [bias] and [not_bias].  In the mode with
    a single error rate it returns the merged rate
    [(errors+bias)/(errors+bias+not_errors+not_bias)] for both [e] and [b]. *)
Theorem update_eb_rates (post_x : list row2) (R : list Z) (F : list bool) :
  length R = length post_x ->
  length F = length post_x ->
  exists errors not_errors bias not_bias : npfloat,
    eb_counts post_x R F = Ok (errors, not_errors, bias, not_bias)
    /\ errors = (class_sum post_x R F (fun r f => r && negb f) fst
                 + class_sum post_x R F (fun r f => r && f) snd)%np
    /\ not_errors = (class_sum post_x R F (fun r f => negb r && negb f) fst
                     + class_sum post_x R F (fun r f => negb r && f) snd)%np
    /\ bias = (class_sum post_x R F (fun r f => negb r && negb f) snd
               + class_sum post_x R F (fun r f => negb r && f) fst)%np
    /\ not_bias = (class_sum post_x R F (fun r f => r && negb f) snd
                   + class_sum post_x R F (fun r f => r && f) fst)%np
    /\ update_eb post_x R F true
       = Ok (if (errors + not_errors >? NP.zero)%np
             then (errors / (errors + not_errors))%np else NP.zero,
             if (bias + not_bias >? NP.zero)%np
             then (bias / (bias + not_bias))%np else NP.zero)
    /\ exists e : npfloat,
         e = ((errors + bias) / (errors + bias + not_errors + not_bias))%np
         /\ update_eb post_x R F false = Ok (e, e).
Proof.
  intros HR HF. do 4 eexists.
  split; [apply (eb_counts_ok _ _ _ HR HF)|].
  do 4 (split; [reflexivity|]).
  unfold update_eb. rewrite (eb_counts_ok _ _ _ HR HF).
  split; [reflexivity|]. eexists. split; reflexivity.
Qed.

Lemma update_eb_rates_witness :
  exists errors not_errors bias not_bias : npfloat,
    eb_counts [(Fin 1, Fin 0); (Fin (1 # 4), Fin (3 # 4))] [1; 0] [false; true]
    = Ok (errors, not_errors, bias, not_bias)
    /\ update_eb [(Fin 1, Fin 0); (Fin (1 # 4), Fin (3 # 4))] [1; 0]
         [false; true] true = Ok (Fin (4 # 7), Fin 1)
    /\ update_eb [] [] [] true = Ok (NP.zero, NP.zero).
Proof.
  destruct (update_eb_rates [(Fin 1, Fin 0); (Fin (1 # 4), Fin (3 # 4))]
              [1; 0] [false; true] eq_refl eq_refl)
    as (errors & not_errors & bias & not_bias & E & -> & -> & -> & -> & H & _).
  do 4 eexists. split; [exact E|]. split; [exact H|].
  destruct (update_eb_rates [] [] [] eq_refl eq_refl)
    as (? & ? & ? & ? & _ & -> & -> & -> & -> & H' & _).
  exact H'.
Defined.

(* ===================================================================== *)
(** ** Arithmetic on finite values *)
(* ===================================================================== *)

Lemma val_Fin (q : Q) : val (Fin q) q.
Proof. exists q. split; [reflexivity | apply Qeq_refl]. Qed.

Lemma val_add x y a b : val x a -> val y b -> val (x + y)%np (a + b)%Q.
Proof.
  intros (a' & -> & Ha) (b' & -> & Hb). eexists. split; [reflexivity|].
  now rewrite Qred_correct, Ha, Hb.
Qed.

Lemma val_mul x y a b : val x a -> val y b -> val (x * y)%np (a * b)%Q.
Proof.
  intros (a' & -> & Ha) (b' & -> & Hb). eexists. split; [reflexivity|].
  now rewrite Qred_correct, Ha, Hb.
Qed.

Lemma val_sub x y a b : val x a -> val y b -> val (x - y)%np (a - b)%Q.
Proof.
  intros (a' & -> & Ha) (b' & -> & Hb). eexists. split; [reflexivity|].
  rewrite !Qred_correct, Ha, Hb. reflexivity.
Qed.

Lemma val_div x y a b :
  val x a -> val y b -> ~ (b == 0)%Q -> val (x / y)%np (a / b)%Q.
Proof.
  intros (a' & -> & Ha) (b' & -> & Hb) Hnz. unfold NP.div.
  destruct (Qeq_bool b' 0) eqn:E.
  - apply Qeq_bool_iff in E. rewrite Hb in E. contradiction.
  - eexists. split; [reflexivity|]. now rewrite Qred_correct, Ha, Hb.
Qed.

Lemma Qlt_bool_iff (a b : Q) : NP.Qlt_bool a b = true <-> (a < b)%Q.
Proof.
  unfold NP.Qlt_bool. rewrite negb_true_iff.
  split.
  - intros H. apply Qnot_le_lt. intros Hle.
    apply Qle_bool_iff in Hle. congruence.
  - intros H. destruct (Qle_bool b a) eqn:E; [|reflexivity].
    apply Qle_bool_iff in E. exfalso. exact (Qlt_not_le _ _ H E).
Qed.

Lemma val_ltb x y a b :
  val x a -> val y b -> ((x <? y)%np = true <-> (a < b)%Q).
Proof.
  intros (a' & -> & Ha) (b' & -> & Hb). simpl.
  rewrite Qlt_bool_iff, Ha, Hb. reflexivity.
Qed.

Lemma val_leb x y a b :
  val x a -> val y b -> ((x <=? y)%np = true <-> (a <= b)%Q).
Proof.
  intros (a' & -> & Ha) (b' & -> & Hb). unfold NP.leb. simpl.
  rewrite orb_true_iff, Qlt_bool_iff, Qeq_bool_iff, Ha, Hb.
  rewrite Qle_lteq. reflexivity.
Qed.

Lemma prob_in01 (v : npfloat) : prob v -> in01 v.
Proof.
  intros (q & Hv & H0 & H1). split.
  - apply (val_leb _ _ 0 q (val_Fin 0) Hv). exact H0.
  - apply (val_leb _ _ q 1 Hv (val_Fin 1)). exact H1.
Qed.

Lemma nonneg_add x y : nonneg x -> nonneg y -> nonneg (x + y)%np.
Proof.
  intros (a & Ha & Ha0) (b & Hb & Hb0). exists (a + b)%Q.
  split; [now apply val_add | lra].
Qed.

Lemma nonneg_zero : nonneg NP.zero.
Proof. exists 0%Q. split; [apply val_Fin | lra]. Qed.

(** a ratio [a / b] with [0 <= a <= b] and [0 < b] is a probability *)
Lemma ratio_prob x y a b :
  val x a -> val y b -> (0 <= a)%Q -> (a <= b)%Q -> (0 < b)%Q ->
  prob (x / y)%np.
Proof.
  intros Hx Hy Ha Hab Hb. exists (a / b)%Q. split.
  - apply val_div; auto. intros E. rewrite E in Hb. lra.
  - split.
    + apply Qle_shift_div_l; [exact Hb | lra].
    + apply Qle_shift_div_r; [exact Hb | lra].
Qed.

Lemma sum_acc_nonneg (xs : array) (acc : npfloat) :
  Forall nonneg xs -> nonneg acc -> nonneg (fold_left NP.add xs acc).
Proof.
  intros H. revert acc. induction H as [|x xs Hx _ IH]; intros acc Hacc; simpl.
  - exact Hacc.
  - apply IH. now apply nonneg_add.
Qed.

Lemma sum_nonneg (xs : array) : Forall nonneg xs -> nonneg (NP.sum xs).
Proof. intros H. apply sum_acc_nonneg; [exact H | apply nonneg_zero]. Qed.

(** the sum of [n] probabilities is between [0] and [n] *)
Lemma sum_acc_prob (xs : array) (acc : npfloat) (a : Q) :
  Forall prob xs -> val acc a ->
  exists q, val (fold_left NP.add xs acc) q
            /\ (a <= q <= a + inject_Z (Z.of_nat (length xs)))%Q.
Proof.
  intros H. revert acc a.
  induction H as [|x xs (p & Hp & Hp0 & Hp1) _ IH]; intros acc a Hacc.
  - exists a. cbn [fold_left length]. split; [exact Hacc|].
    change (inject_Z (Z.of_nat 0)) with 0%Q. lra.
  - cbn [fold_left length].
    destruct (IH (acc + x)%np (a + p)%Q (val_add _ _ _ _ Hacc Hp))
      as (q & Hq & Hlo & Hhi).
    exists q. split; [exact Hq|].
    rewrite Nat2Z.inj_succ, <- Z.add_1_r, inject_Z_plus.
    change (inject_Z 1) with 1%Q. lra.
Qed.

Lemma selected_Forall {A} (P : A -> Prop) (a : list A) (mask : list bool) :
  Forall P a -> Forall P (selected a mask).
Proof.
  intros H. unfold selected. revert mask.
  induction H as [|x a Hx _ IH]; intros [|m mask]; simpl;
    try constructor.
  rewrite filter_cons. destruct (decide (snd (x, m) = true)); simpl.
  - constructor; [exact Hx | apply IH].
  - apply IH.
Qed.

(* ===================================================================== *)
(** ** Bounds of the updated parameters *)
(* ===================================================================== *)

Lemma prob_finite v : prob v -> finite v.
Proof. intros (q & (q' & -> & _) & _). now exists q'. Qed.

Lemma prob_zero : prob NP.zero.
Proof. exists 0%Q. split; [apply val_Fin | lra]. Qed.

Lemma lit_1e_300_pos : val NP.lit_1e_300 (1 # 10 ^ 300) /\ (0 < 1 # 10 ^ 300)%Q.
Proof. split; [apply val_Fin | reflexivity]. Qed.

Lemma tau_update_prob (G0 G1 G2 : npfloat) :
  nonneg G0 -> nonneg G1 -> nonneg G2 -> prob (tau_update (G0, G1, G2)).
Proof.
  intros (g0 & H0 & P0) (g1 & H1 & P1) (g2 & H2 & P2). unfold tau_update.
  pose proof (val_add _ _ _ _ (val_add _ _ _ _ H0 H1) H2) as Hs.
  destruct (G0 + G1 + G2 >? NP.zero)%np eqn:E; [|apply prob_zero].
  unfold NP.gtb in E. apply (val_ltb _ _ _ _ (val_Fin 0) Hs) in E.
  eapply ratio_prob; [| exact Hs | | | exact E].
  - apply val_add; [|exact H2].
    apply val_div; [exact H1 | apply (val_Fin 2) | intros C; lra].
  - assert (0 <= g1 / 2)%Q by (apply Qle_shift_div_l; lra). lra.
  - assert (g1 / 2 <= g1)%Q by (apply Qle_shift_div_r; lra). lra.
Qed.

Lemma F_update_finite (G0 G1 G2 : npfloat) :
  nonneg G0 -> nonneg G1 -> nonneg G2 -> finite (F_update (G0, G1, G2)).
Proof.
  intros (g0 & H0 & P0) (g1 & H1 & P1) (g2 & H2 & P2). unfold F_update.
  destruct lit_1e_300_pos as [He Pe]. set (eps := (1 # 10 ^ 300)%Q) in *.
  assert (HF : val (NP.two * G0 / (NP.two * G0 + G1 + NP.lit_1e_300)
                    - G1 / (NP.two * G2 + G1 + NP.lit_1e_300))%np
                 (2 * g0 / (2 * g0 + g1 + eps) - g1 / (2 * g2 + g1 + eps))%Q).
  { apply val_sub; apply val_div;
      repeat first [ apply val_add | apply val_mul | apply (val_Fin 2)
                   | assumption ];
      intros C; lra. }
  destruct HF as (q & -> & _). now exists q.
Qed.

Lemma clip01_prob (v : npfloat) : finite v -> prob (clip01 v).
Proof.
  intros [q ->]. unfold clip01, NP.clip, NP.maximum, NP.zero, NP.one.
  cbn [NP.isnan].
  destruct (Fin q <? Fin 0)%np eqn:E0.
  - unfold NP.minimum. cbn [NP.isnan].
    change (Fin 1 <? Fin 0)%np with false. cbv iota.
    exists 0%Q. split; [apply val_Fin | lra].
  - unfold NP.minimum. cbn [NP.isnan].
    destruct (Fin 1 <? Fin q)%np eqn:E1.
    + exists 1%Q. split; [apply val_Fin | lra].
    + exists q. split; [apply val_Fin|].
      assert (~ (q < 0)%Q) as N0.
      { intros C. apply (val_ltb _ _ q 0 (val_Fin q) (val_Fin 0)) in C.
        congruence. }
      assert (~ (1 < q)%Q) as N1.
      { intros C. apply (val_ltb _ _ 1 q (val_Fin 1) (val_Fin q)) in C.
        congruence. }
      split; [apply Qnot_lt_le; exact N0 | apply Qnot_lt_le; exact N1].
Qed.

Lemma sum_rows_nonneg (rows : list row3) :
  Forall row3_nonneg rows -> row3_nonneg (Arr.sum_rows rows).
Proof.
  intros H. unfold Arr.sum_rows, row3_nonneg. cbn [fst snd].
  repeat split; apply sum_nonneg;
    (induction H as [|r rows (Ha & Hb & Hc) _ IH]; simpl; constructor; auto).
Qed.

Section FtauBounds.

Variables (data : SlugData) (post_g : list row3) (update_F : bool).
Hypothesis Hrows : Forall row3_nonneg post_g.

Lemma totals_nonneg (k : nat) : row3_nonneg (totals data post_g k).
Proof using Hrows.
  apply sum_rows_nonneg. now apply selected_Forall.
Qed.

Lemma F_totals_nonneg (k : nat) (G G' : row3) :
  row3_nonneg G -> F_totals data post_g k G = Ok G' -> row3_nonneg G'.
Proof using Hrows.
  intros HG. unfold F_totals.
  destruct (haploid_snps data) as [hs|]; [|now intros [= <-]].
  destruct (Arr.clear_at _ hs) as [ix1|]; [|discriminate].
  cbn [mbind result_bind].
  destruct (Arr.all_false ix1); [now intros [= <-]|].
  unfold Arr.select. destruct (Nat.eqb _ _); [|discriminate].
  cbn [mbind result_bind]. intros [= <-].
  apply sum_rows_nonneg. now apply selected_Forall.
Qed.

Lemma update_ftau_body_F (k : nat) (tau F tau' F' : array) :
  Forall finite F ->
  update_ftau_body data post_g update_F k (tau, F) = Ok (tau', F') ->
  Forall prob F'.
Proof using Hrows.
  intros HF. unfold update_ftau_body.
  destruct (Arr.select post_g _) as [rows|] eqn:Es; [|discriminate].
  cbn [mbind result_bind].
  assert (HG : row3_nonneg (Arr.sum_rows rows)).
  { apply sum_rows_nonneg. unfold Arr.select in Es.
    destruct (Nat.eqb _ _); [|discriminate].
    injection Es as <-. now apply selected_Forall. }
  assert (Hclip : forall F1 : array, Forall finite F1 ->
                    Forall prob (map (fun x0 => NP.clip x0 NP.zero NP.one) F1)).
  { intros F1 H1. induction H1 as [|v F1 Hv _ IH]; simpl; constructor; auto.
    now apply clip01_prob. }
  destruct update_F.
  - destruct (F_totals data post_g k (Arr.sum_rows rows)) as [G'|] eqn:EG;
      [|discriminate].
    cbn [mbind result_bind]. intros [= _ <-]. apply Hclip.
    apply F_totals_nonneg in EG; [|exact HG].
    destruct G' as [[G0 G1] G2]. destruct EG as (H0 & H1 & H2).
    cbn [fst snd] in *.
    apply Forall_insert; [exact HF|]. now apply F_update_finite.
  - cbn [mbind result_bind]. intros [= _ <-]. now apply Hclip.
Qed.

Lemma update_ftau_loop_F (n a : nat) (tau F tau' F' : array) :
  Forall finite F ->
  for_each (seq a n) (update_ftau_body data post_g update_F) (tau, F)
  = Ok (tau', F') ->
  Forall finite F' /\ (n <> 0%nat -> Forall prob F').
Proof using Hrows.
  revert a tau F. induction n as [|n IH]; intros a tau F HF; cbn [seq for_each].
  - intros [= _ <-]. split; [exact HF | congruence].
  - destruct (update_ftau_body data post_g update_F a (tau, F))
      as [[tau1 F1]|] eqn:Eb; [|discriminate].
    cbn [mbind result_bind]. intros Hl.
    pose proof (update_ftau_body_F _ _ _ _ _ HF Eb) as H1.
    assert (H1f : Forall finite F1).
    { eapply Forall_impl; [exact H1 | apply prob_finite]. }
    destruct (IH _ _ _ H1f Hl) as [Hf Hp]. split; [exact Hf|].
    intros _. destruct n as [|n'].
    + cbn [seq for_each] in Hl. now injection Hl as _ <-.
    + apply Hp. congruence.
Qed.

End FtauBounds.

Lemma rate_prob (x y : npfloat) :
  nonneg x -> nonneg y ->
  prob (if (x + y >? NP.zero)%np then (x / (x + y))%np else NP.zero).
Proof.
  intros (a & Ha & Pa) (b & Hb & Pb).
  pose proof (val_add _ _ _ _ Ha Hb) as Hs.
  destruct (x + y >? NP.zero)%np eqn:E; [|apply prob_zero].
  unfold NP.gtb in E. apply (val_ltb _ _ _ _ (val_Fin 0) Hs) in E.
  eapply ratio_prob; [exact Ha | exact Hs | | | exact E]; lra.
Qed.

Lemma merged_rate_prob (e n b m : npfloat) :
  nonneg e -> nonneg n -> nonneg b -> nonneg m ->
  (e + b + n + m >? NP.zero)%np = true ->
  prob ((e + b) / (e + b + n + m))%np.
Proof.
  intros (qe & He & Pe) (qn & Hn & Pn) (qb & Hb & Pb) (qm & Hm & Pm) E.
  pose proof (val_add _ _ _ _ He Hb) as Hnum.
  pose proof (val_add _ _ _ _ (val_add _ _ _ _ Hnum Hn) Hm) as Hden.
  unfold NP.gtb in E. apply (val_ltb _ _ _ _ (val_Fin 0) Hden) in E.
  eapply ratio_prob; [exact Hnum | exact Hden | | | exact E]; lra.
Qed.

Lemma class_sum_nonneg (post_x : list row2) (R : list Z) (F : list bool)
    (cls : bool -> bool -> bool) (col : row2 -> npfloat) :
  Forall row2_nonneg post_x ->
  (forall r, row2_nonneg r -> nonneg (col r)) ->
  nonneg (class_sum post_x R F cls col).
Proof.
  intros H Hcol. unfold class_sum. apply sum_nonneg.
  apply (selected_Forall _ _
           (zip_with cls (map (fun z => negb (Z.eqb z 0)) R) F)) in H.
  induction H as [|r rows Hr _ IH]; simpl; constructor; auto.
Qed.

Lemma inside01_of_bounds (v : npfloat) :
  (NP.lit_1e_10 <=? v)%np = true ->
  (v <=? NP.one - NP.lit_1e_10)%np = true ->
  inside01 v.
Proof.
  destruct v as [q| | |]; try discriminate.
  intros Hlo Hhi.
  assert (He : (0 < 1 # 10 ^ 10)%Q) by reflexivity.
  set (eps := (1 # 10 ^ 10)%Q) in *.
  apply (val_leb _ _ eps q (val_Fin eps) (val_Fin q)) in Hlo.
  apply (val_leb _ _ q (1 - eps)
           (val_Fin q) (val_sub _ _ _ _ (val_Fin 1) (val_Fin eps))) in Hhi.
  split.
  - apply (val_ltb _ _ 0 q (val_Fin 0) (val_Fin q)). lra.
  - apply (val_ltb _ _ q 1 (val_Fin q) (val_Fin 1)). lra.
Qed.

Lemma assign_all_length (n : nat) (v w : array) :
  Arr.assign_all n v = Ok w -> length w = n.
Proof.
  unfold Arr.assign_all. destruct (Nat.eqb (length v) n) eqn:E.
  - intros [= <-]. now apply Nat.eqb_eq.
  - destruct v as [|c [|]]; try discriminate.
    intros [= <-]. apply length_replicate.
Qed.

Section NumericBounds.

Context {numeric : Numeric}.
Hypothesis Hbox : respects_bounds.

Lemma update_ftau_numeric_body_inside (data : SlugData) (post_g : list row3)
    (k : nat) (tau F tau' F' : array) :
  update_ftau_numeric_body data post_g k (tau, F) = Ok (tau', F') ->
  exists t f0 : npfloat,
    inside01 t /\ inside01 f0
    /\ tau' = <[k := t]> tau /\ F' = <[k := f0]> F.
Proof using Hbox.
  unfold update_ftau_numeric_body.
  destruct (Arr.select _ _) as [rows|]; [|discriminate].
  cbn [mbind result_bind].
  destruct (at_index tau k) as [tau_k|]; [|discriminate].
  cbn [mbind result_bind].
  destruct (at_index F k) as [F_k|]; [|discriminate].
  cbn [mbind result_bind].
  destruct (f _ _) as [prev|]; [|discriminate].
  cbn [mbind result_bind].
  destruct (minimize _ _ bounds) as [OO|] eqn:EO; [|discriminate].
  cbn [mbind result_bind]. intros [= <- <-].
  destruct (Hbox _ _ _ EO) as (H1 & H2 & H3 & H4).
  exists (x OO).1, (x OO).2.
  repeat split; auto using inside01_of_bounds; now apply inside01_of_bounds.
Qed.

Lemma update_ftau_numeric_loop_inside (data : SlugData) (post_g : list row3)
    (n a : nat) (tau F tau' F' : array) :
  for_each (seq a n) (update_ftau_numeric_body data post_g) (tau, F)
  = Ok (tau', F') ->
  (forall k v, (k < a)%nat -> tau !! k = Some v -> inside01 v) ->
  (forall k v, (k < a)%nat -> F !! k = Some v -> inside01 v) ->
  (forall k v, (k < a + n)%nat -> tau' !! k = Some v -> inside01 v)
  /\ (forall k v, (k < a + n)%nat -> F' !! k = Some v -> inside01 v)
  /\ length tau' = length tau /\ length F' = length F.
Proof using Hbox.
  revert a tau F. induction n as [|n IH]; intros a tau F H Ht HF;
    cbn [seq for_each] in H.
  - injection H as <- <-. rewrite Nat.add_0_r. auto.
  - destruct (update_ftau_numeric_body data post_g a (tau, F))
      as [[tau1 F1]|] eqn:Eb; [|discriminate H].
    cbn [mbind result_bind] in H.
    destruct (update_ftau_numeric_body_inside _ _ _ _ _ _ _ Eb)
      as (t & f0 & Hti & Hfi & -> & ->).
    apply IH in H.
    + destruct H as (H1 & H2 & H3 & H4). rewrite !length_insert in *.
      replace (a + S n)%nat with (S a + n)%nat by lia. auto.
    + intros k v Hk Hv. apply list_lookup_insert_Some in Hv.
      destruct Hv as [(_ & <- & _)|(Hne & Hv)]; [exact Hti|].
      apply (Ht k v); [lia | exact Hv].
    + intros k v Hk Hv. apply list_lookup_insert_Some in Hv.
      destruct Hv as [(_ & <- & _)|(Hne & Hv)]; [exact Hfi|].
      apply (HF k v); [lia | exact Hv].
Qed.

(** When the optimizer keeps to its box, the [F] and [tau] that
    [update_ftau_numeric] returns are strictly inside the unit interval. *)
Lemma update_ftau_numeric_inside (old_F old_tau : array) (data : SlugData)
    (post_g : list row3) (update_F : bool) (F tau : array) :
  update_ftau_numeric old_F old_tau data post_g update_F = Ok (F, tau) ->
  Forall inside01 F /\ Forall inside01 tau.
Proof using Hbox.
  unfold update_ftau_numeric. destruct update_F; [|discriminate].
  cbn [negb].
  destruct (Arr.assign_all _ old_tau) as [tau0|] eqn:Et; [|discriminate].
  cbn [mbind result_bind].
  destruct (Arr.assign_all _ old_F) as [F0|] eqn:EF; [|discriminate].
  cbn [mbind result_bind].
  destruct (for_each _ _ _) as [[tau' F']|] eqn:El; [|discriminate].
  cbn [mbind result_bind]. intros [= <- <-].
  apply update_ftau_numeric_loop_inside in El;
    [|intros k v Hk; lia | intros k v Hk; lia].
  destruct El as (H1 & H2 & H3 & H4).
  apply assign_all_length in Et. apply assign_all_length in EF.
  split; apply Forall_lookup; intros k v Hv.
  - apply (H2 k v); [|exact Hv].
    apply lookup_lt_Some in Hv. cbn [Nat.add]. lia.
  - apply (H1 k v); [|exact Hv].
    apply lookup_lt_Some in Hv. cbn [Nat.add]. lia.
Qed.

End NumericBounds.

(** C6 (the claim as stated fails): the closed-form update returns
    [tau[0] = 0], which is not inside [(0, 1)], and for a read-group without
    reads [update_c] leaves [nan] in [cont], unclipped. *)
Lemma tau_reaches_zero :
  update_ftau [Fin (1 # 4)] [Fin (1 # 4)] Stub.data
    [(Fin 1, Fin 0, Fin 0)] true
  = Ok ([(NP.two * Fin 1 / (NP.two * Fin 1 + NP.lit_1e_300))%np], [NP.zero])
  /\ (NP.zero <? NP.zero)%np = false
  /\ update_c [] [] 1 = Ok [NaN]
  /\ (NP.zero <=? NaN)%np = false.
Proof.
  repeat match goal with |- _ /\ _ => split end; vm_compute; reflexivity.
Qed.

(** C6 (amended). On inputs of the declared domain the updates return
    values inside the unit interval.  For posterior genotype probabilities
    that are finite and not negative, the closed-form [update_ftau] returns
    [0 <= F[k] <= 1] ([F] is clipped) and [0 <= tau[k] <= 1] ([tau] is not
    clipped and may be exactly [0] or [1]).  For posterior contamination
    probabilities in [[0, 1]], [update_c] returns [0 <= cont[r] <= 1] for
    every read-group that has a read.  For posterior allele probabilities
    that are finite and not negative, [update_eb] returns [0 <= e, b <= 1] in
    the mode with two error rates, and in the mode with a single rate when
    the total count is positive.  The numerically optimized
    [update_ftau_numeric], when it returns, gives [0 < F[k] < 1] and
    [0 < tau[k] < 1], as far as the optimizer keeps to the box it is given.
    Nothing but the [F] of [update_ftau] is clipped. *)
Theorem updates_within_bounds :
  (forall (old_F old_tau : array) (data : SlugData) (post_g : list row3)
          (update_F : bool),
      length (SNP2SFS data) = length post_g ->
      haploid_ok data ->
      length old_tau = n_sfs data ->
      length old_F = n_sfs data ->
      Forall row3_nonneg post_g ->
      Forall finite old_F ->
      exists F tau : array,
        update_ftau old_F old_tau data post_g update_F = Ok (F, tau)
        /\ Forall in01 F /\ Forall in01 tau)
  /\
  (forall (post_c : array) (READ2RG : list Z) (n_rgs : nat),
      length READ2RG = length post_c ->
      Forall prob post_c ->
      exists c : array,
        update_c post_c READ2RG n_rgs = Ok c
        /\ forall (r : nat) (v : npfloat),
             c !! r = Some v ->
             reads_of_group post_c READ2RG r <> [] -> in01 v)
  /\
  (forall (post_x : list row2) (R : list Z) (F : list bool),
      length R = length post_x ->
      length F = length post_x ->
      Forall row2_nonneg post_x ->
      (exists e b : npfloat,
          update_eb post_x R F true = Ok (e, b) /\ in01 e /\ in01 b)
      /\
      (forall errors not_errors bias not_bias : npfloat,
          eb_counts post_x R F = Ok (errors, not_errors, bias, not_bias) ->
          (errors + bias + not_errors + not_bias >? NP.zero)%np = true ->
          exists e : npfloat,
            update_eb post_x R F false = Ok (e, e) /\ in01 e))
  /\
  (forall (numeric : Numeric),
      respects_bounds ->
      forall (old_F old_tau : array) (data : SlugData) (post_g : list row3)
             (update_F : bool) (F tau : array),
        update_ftau_numeric old_F old_tau data post_g update_F = Ok (F, tau) ->
        Forall inside01 F /\ Forall inside01 tau).
Proof.
  split; [|split; [|split]];
    [| | |intros numeric Hbox old_F old_tau data post_g update_F F tau H;
          exact (update_ftau_numeric_inside Hbox _ _ _ _ _ _ _ H)].
  - intros old_F old_tau data post_g update_F Hlen Hhap Htau HF Hrows Hfin.
    unfold update_ftau.
    rewrite (assign_all_same _ _ Htau), (assign_all_same _ _ HF).
    cbn [mbind result_bind].
    destruct (update_ftau_loop data post_g update_F Hlen Hhap
                (n_sfs data) 0 old_tau old_F)
      as (tau' & F' & E & Ht & HlF & Hin & _).
    rewrite E. cbn [mbind result_bind].
    exists F', tau'. split; [reflexivity|]. split.
    + destruct (update_ftau_loop_F data post_g update_F Hrows _ _ _ _ _ _
                  Hfin E) as [_ Hp].
      destruct (n_sfs data) as [|n] eqn:En.
      * rewrite HF in HlF. destruct F'; [constructor | discriminate].
      * eapply Forall_impl; [apply Hp; congruence | apply prob_in01].
    + apply Forall_lookup. intros k v Hk.
      assert (Hlt : (k < length tau')%nat) by (eapply lookup_lt_Some; eauto).
      pose proof (Hin k ltac:(lia) ltac:(lia)) as Hk'.
      pose proof (totals_nonneg data post_g Hrows k) as HG.
      destruct (totals data post_g k) as [[G0 G1] G2].
      destruct HG as (H0 & H1 & H2). cbn [fst snd] in H0, H1, H2.
      assert (v = tau_update (G0, G1, G2)) as -> by congruence.
      apply prob_in01. now apply tau_update_prob.
  - intros post_c READ2RG n_rgs Hlen Hp.
    destruct (update_c_entries post_c READ2RG n_rgs Hlen) as (c & E & Hc & H).
    exists c. split; [exact E|]. intros r v Hr Hne.
    assert (Hlt : (r < n_rgs)%nat).
    { rewrite <- Hc. eapply lookup_lt_Some; eauto. }
    destruct (mean_nonempty _ Hne) as [Hm Hpos].
    assert (v = (NP.sum (reads_of_group post_c READ2RG r)
                 / NP.of_nat (length (reads_of_group post_c READ2RG r)))%np)
      as -> by (rewrite <- Hm; specialize (H r Hlt); congruence).
    apply prob_in01.
    pose proof (selected_Forall prob post_c
                  (Arr.eq_mask READ2RG (Z.of_nat r)) Hp) as Hsel.
    fold (reads_of_group post_c READ2RG r) in Hsel.
    destruct (sum_acc_prob _ NP.zero 0 Hsel (val_Fin 0)) as (q & Hq & Hlo & Hhi).
    apply (val_ltb _ _ _ _ (val_Fin 0) (val_Fin _)) in Hpos.
    eapply ratio_prob; [exact Hq | apply val_Fin | | | exact Hpos]; lra.
  - intros post_x R F HR HF Hrows.
    pose proof (eb_counts_ok _ _ _ HR HF) as Ec.
    assert (Hfst : forall r : row2, row2_nonneg r -> nonneg (fst r))
      by (intros r [H _]; exact H).
    assert (Hsnd : forall r : row2, row2_nonneg r -> nonneg (snd r))
      by (intros r [_ H]; exact H).
    split.
    + unfold update_eb. rewrite Ec. cbn [mbind result_bind eb_rates].
      do 2 eexists. split; [reflexivity|].
      split; apply prob_in01; apply rate_prob; apply nonneg_add;
        apply class_sum_nonneg; auto.
    + intros errors not_errors bias not_bias Ec' Hpos.
      rewrite Ec in Ec'. injection Ec' as <- <- <- <-.
      unfold update_eb. rewrite Ec. cbn [mbind result_bind eb_rates].
      eexists. split; [reflexivity|].
      apply prob_in01. apply merged_rate_prob; [| | | | exact Hpos];
        apply nonneg_add; apply class_sum_nonneg; auto.
Qed.

Ltac solve_nonneg :=
  repeat first
    [ progress (unfold row3_nonneg, row2_nonneg; cbn [fst snd])
    | split
    | constructor
    | match goal with
      | |- nonneg (Fin ?q) =>
          exists q; split; [apply val_Fin | unfold Qle; simpl; lia]
      | |- prob (Fin ?q) =>
          exists q; split; [apply val_Fin | split; unfold Qle; simpl; lia]
      | |- finite (Fin ?q) => exists q; reflexivity
      end ].

Lemma updates_within_bounds_witness :
  (exists F tau : array,
      update_ftau [Fin 0; Fin 0; Fin 0] [Fin 0; Fin 0; Fin 0]
        example_data example_post_g true = Ok (F, tau)
      /\ Forall in01 F /\ Forall in01 tau)
  /\ (exists c : array,
        update_c [Fin (1 # 2); Fin (1 # 4); Fin 1] [0; 0; 2] 3 = Ok c
        /\ forall v, c !! 0%nat = Some v -> in01 v)
  /\ (exists e b : npfloat,
        update_eb [(Fin 1, Fin 0); (Fin (1 # 4), Fin (3 # 4))] [1; 0]
          [false; true] true = Ok (e, b) /\ in01 e /\ in01 b)
  /\ (@update_ftau_numeric Stub.numeric [Fin (1 # 4)] [Fin (1 # 4)] Stub.data
        [(NP.one, NP.zero, NP.zero)] true
      = Ok ([Fin (1 # 2)], [Fin (1 # 2)])
      /\ Forall inside01 [Fin (1 # 2)]).
Proof.
  destruct updates_within_bounds as (H1 & H2 & H3 & H4).
  split; [|split; [|split]].
  - apply H1;
      [ reflexivity
      | repeat constructor; unfold valid_index; simpl; lia
      | reflexivity
      | reflexivity
      | unfold example_post_g; solve_nonneg
      | solve_nonneg ].
  - destruct (H2 [Fin (1 # 2); Fin (1 # 4); Fin 1] [0; 0; 2] 3%nat eq_refl)
      as (c & E & H); [solve_nonneg|].
    exists c. split; [exact E|]. intros v Hv. apply (H 0%nat v Hv). discriminate.
  - apply (H3 [(Fin 1, Fin 0); (Fin (1 # 4), Fin (3 # 4))] [1; 0]
             [false; true] eq_refl eq_refl).
    solve_nonneg.
  - assert (E : @update_ftau_numeric Stub.numeric [Fin (1 # 4)] [Fin (1 # 4)]
                  Stub.data [(NP.one, NP.zero, NP.zero)] true
                = Ok ([Fin (1 # 2)], [Fin (1 # 2)]))
      by (vm_compute; reflexivity).
    split; [exact E|].
    refine (proj1 (H4 Stub.numeric _ _ _ _ _ _ _ _ E)).
    intros f0 init OO H. cbn [minimize Stub.numeric] in H.
    destruct (f0 init); [|discriminate H].
    cbn [mbind result_bind] in H. injection H as <-.
    repeat match goal with |- _ /\ _ => split end; vm_compute; reflexivity.
Defined.

(* ===================================================================== *)
(** ** Reasoning about stateful computations *)
(* ===================================================================== *)

Lemma bind_Ok_inv {S A B} (m : ST S A) (k : A -> ST S B) (s s' : S) (b : B) :
  (m ≫= k) s = (Ok b, s') ->
  exists a s1, m s = (Ok a, s1) /\ k a s1 = (Ok b, s').
Proof.
  unfold mbind, ST_bind. destruct (m s) as [[a|e] s1]; intros H.
  - eauto.
  - discriminate.
Qed.

(** decompose [H : (m ≫= k) s = (Ok _, _)] *)
Tactic Notation "bind_inv" hyp(H) ident(a) ident(s1) ident(Ha) :=
  apply bind_Ok_inv in H; destruct H as (a & s1 & Ha & H).

Lemma frame_ret {S X A} (proj : S -> X) (a : A) : frame proj (mret a : ST S A).
Proof. intros s. reflexivity. Qed.

Lemma frame_bind {S X A B} (proj : S -> X) (m : ST S A) (k : A -> ST S B) :
  frame proj m -> (forall a, frame proj (k a)) -> frame proj (m ≫= k).
Proof.
  intros Hm Hk s. unfold mbind, ST_bind. specialize (Hm s).
  destruct (m s) as [[a|e] s1]; simpl in *.
  - now rewrite Hk.
  - exact Hm.
Qed.

Lemma frame_lift {S X A} (proj : S -> X) (r : result A) :
  frame proj (lift r : ST S A).
Proof. intros s. reflexivity. Qed.

Lemma frame_get {S X} (proj : S -> X) : frame proj (get : ST S S).
Proof. intros s. reflexivity. Qed.

Lemma frame_modify {S X} (proj : S -> X) (g : S -> S) :
  (forall s, proj (g s) = proj s) -> frame proj (modify g).
Proof. intros H s. apply H. Qed.

Lemma frame_when {S X} (proj : S -> X) (c : bool) (m : ST S unit) :
  frame proj m -> frame proj (when c m).
Proof. intros H. destruct c; [exact H | apply frame_ret]. Qed.

Lemma frame_load (r : ref) : frame controller (load r).
Proof. intros s. unfold load. now destruct (heap s !! r). Qed.

Lemma frame_deepcopy (r : ref) : frame controller (deepcopy r).
Proof. intros s. unfold deepcopy. now destruct (heap s !! r). Qed.

Lemma frame_on_object {A} (r : ref) (m : ST Pars.t A) :
  frame controller (on_object r m).
Proof.
  intros s. unfold on_object. destruct (heap s !! r) as [p|]; [|reflexivity].
  now destruct (m p).
Qed.

Lemma frame_get_controller : frame controller get_controller.
Proof. intros s. reflexivity. Qed.

(** a goal [frame proj m], by the structure of [m] *)
Ltac solve_frame :=
  repeat first
    [ apply frame_ret
    | apply frame_lift
    | apply frame_get
    | apply frame_load
    | apply frame_deepcopy
    | apply frame_on_object
    | apply frame_get_controller
    | apply frame_when
    | apply frame_modify; intros []; reflexivity
    | apply frame_bind; [|intros ?]
    | match goal with
      | |- frame _ (if ?c then _ else _) => destruct c
      | |- frame _ (match ?x with _ => _ end) => destruct x
      | |- frame _ (let '(_, _) := ?x in _) => destruct x
      end
    | assumption ].

(* ===================================================================== *)
(** ** The controller object during a run *)
(* ===================================================================== *)

Section ControllerFrame.

Context {numeric : Numeric} {emissions : Emissions}.

Lemma frame_update_pars (pars : ref) (data : SlugData) :
  frame controller (update_pars pars data).
Proof. unfold update_pars. solve_frame. Qed.

Lemma frame_squarem_accept O pars2 pars_sq step_size max_step :
  frame controller (squarem_accept O pars2 pars_sq step_size max_step).
Proof. unfold squarem_accept. solve_frame. Qed.

Lemma frame_squarem_extrapolate O data pars pars2 Δp1 Δp3 step_size max_step :
  frame controller
    (squarem_extrapolate O data pars pars2 Δp1 Δp3 step_size max_step).
Proof.
  unfold squarem_extrapolate.
  pose proof frame_update_pars. pose proof frame_squarem_accept.
  solve_frame.
Qed.

Lemma frame_squarem_iter data min_step pars max_step :
  frame controller (squarem_iter data min_step pars max_step).
Proof.
  unfold squarem_iter.
  pose proof frame_update_pars. pose proof frame_squarem_extrapolate.
  solve_frame.
Qed.

Lemma frame_squarem_loop n data min_step pars max_step :
  frame controller (squarem_loop n data min_step pars max_step).
Proof.
  revert pars max_step. induction n as [|n IH]; intros pars max_step;
    cbn [squarem_loop].
  - apply frame_ret.
  - pose proof frame_squarem_iter. solve_frame. apply IH.
Qed.

(** C10. [squarem] sets [controller.copy_pars] to [True] before its first
    iteration, on the controller object the caller passed: the run is the
    one the caller would get having set the flag, whatever the flag was,
    and when [squarem] is done (returning or raising) the controller is the
    caller's with [copy_pars] set to [True] and nothing else changed. *)
Theorem squarem_sets_copy_pars (pars0 : ref) (data : SlugData) (s : State) :
  let forced :=
    mkState (heap s) (Controller.set_copy_pars true (controller s)) in
  Controller.copy_pars (controller (squarem pars0 data s).2) = true
  /\ controller (squarem pars0 data s).2
     = Controller.set_copy_pars true (controller s)
  /\ squarem pars0 data s = squarem pars0 data forced
  /\ squarem pars0 data s
     = squarem_loop
         (Z.to_nat (Controller.n_iter (controller s))) data
         (Controller.squarem_min (controller s)) pars0
         (Controller.squarem_max (controller s)) forced.
Proof.
  intros forced.
  assert (Hrun : squarem pars0 data s
                 = squarem_loop
                     (Z.to_nat (Controller.n_iter (controller s))) data
                     (Controller.squarem_min (controller s)) pars0
                     (Controller.squarem_max (controller s)) forced).
  { reflexivity. }
  assert (Hctl : controller (squarem pars0 data s).2
                 = Controller.set_copy_pars true (controller s)).
  { rewrite Hrun. now rewrite frame_squarem_loop. }
  split; [now rewrite Hctl|]. split; [exact Hctl|]. split; [|exact Hrun].
  reflexivity.
Qed.

End ControllerFrame.

(* ===================================================================== *)
(** ** One EM step *)
(* ===================================================================== *)

(** Unfold the binds of a hypothesis [H] about a run [m s]. *)
Ltac st_unfold H :=
  cbv beta iota zeta delta [mbind mret ST_bind ST_ret lift get modify when] in H.

Section EMStep.

Context {numeric : Numeric} {emissions : Emissions}.

Lemma frame_F_tau_cont data bwd_x fwd_x_nocont fwd_x_cont fwd_c :
  frame (fun p => (Pars.F p, Pars.tau p))
    (update_pars_cont data bwd_x fwd_x_nocont fwd_x_cont fwd_c).
Proof. unfold update_pars_cont. solve_frame. Qed.

Lemma frame_F_tau_eb O data bwd_x fwd_x_cont fwd_x_nocont fwd_c :
  frame (fun p => (Pars.F p, Pars.tau p))
    (update_pars_eb O data bwd_x fwd_x_cont fwd_x_nocont fwd_c).
Proof. unfold update_pars_eb. solve_frame. Qed.

Lemma frame_F_tau_ll data :
  frame (fun p => (Pars.F p, Pars.tau p)) (update_pars_ll data).
Proof. unfold update_pars_ll. solve_frame. Qed.

(** With [update_ftau] off, an EM step leaves [F] and [tau] as they were. *)
Lemma update_pars_body_sfs_off (O : Controller.t) (data : SlugData)
    (p : Pars.t) :
  Controller.update_ftau O = false ->
  Pars.F (update_pars_body O data p).2 = Pars.F p
  /\ Pars.tau (update_pars_body O data p).2 = Pars.tau p.
Proof.
  intros Hoff.
  assert (H : frame (fun p => (Pars.F p, Pars.tau p)) (update_pars_body O data)).
  { unfold update_pars_body. rewrite Hoff.
    pose proof frame_F_tau_cont. pose proof frame_F_tau_eb.
    pose proof frame_F_tau_ll. solve_frame. }
  specialize (H p). now injection H.
Qed.

(** With [update_ftau] on, an EM step that returns has set [F] and [tau]
    to what [update_ftau_numeric] returns. *)
Lemma update_pars_body_sfs_on (O : Controller.t) (data : SlugData)
    (p p' : Pars.t) :
  Controller.update_ftau O = true ->
  update_pars_body O data p = (Ok tt, p') ->
  exists post_g,
    post_g_of data p = Ok post_g
    /\ update_ftau_numeric (Pars.F p) (Pars.tau p) data post_g
         (Controller.update_F O) = Ok (Pars.F p', Pars.tau p').
Proof.
  intros Hon H. unfold update_pars_body in H. rewrite Hon in H.
  unfold update_pars_ftau in H. st_unfold H.
  destruct (fwd_p_g data p) as [fwd_g|] eqn:E1; [|discriminate H].
  destruct (bwd_p_o_given_x _ _ _ _) as [bwd_x|] eqn:E2; [|discriminate H].
  destruct (bwd_p_one_o_given_g _ _ _ _ _ _) as [bwd_g1|] eqn:E3;
    [|discriminate H].
  destruct (bwd_p_all_o_given_g _ _ _) as [bwd_g|] eqn:E4; [|discriminate H].
  destruct (fwd_p_x_cont _ _) as [fwd_x_cont|] eqn:E5; [|discriminate H].
  destruct (fwd_p_x_nocont _ _) as [fwd_x_nocont|] eqn:E6; [|discriminate H].
  destruct (fwd_p_x _ _ _ _) as [fwd_x|] eqn:E7; [|discriminate H].
  destruct (posterior_g bwd_g fwd_g) as [post_g|] eqn:E8; [|discriminate H].
  destruct (Arr.assign_all _ (Pars.F p)) as [pF|] eqn:E9; [|discriminate H].
  destruct (Arr.assign_all _ (Pars.tau p)) as [pt|] eqn:E10; [|discriminate H].
  destruct (update_ftau_numeric _ _ _ _ _) as [[F' tau']|] eqn:E11;
    [|discriminate H].
  exists post_g. split.
  - unfold post_g_of. rewrite E1. cbn [mbind result_bind].
    rewrite E2. cbn [mbind result_bind]. rewrite E3. cbn [mbind result_bind].
    rewrite E4. cbn [mbind result_bind]. exact E8.
  - set (q := Pars.set_tau tau' _) in H.
    match type of H with
    | (let (_, _) := ?m q in _) = _ =>
        destruct (m q) as [[[]|] s1] eqn:B1; [|discriminate H]
    end.
    match type of H with
    | (let (_, _) := ?m s1 in _) = _ =>
        destruct (m s1) as [[[]|] s2] eqn:B2; [|discriminate H]
    end.
    assert (F1 : (Pars.F s1, Pars.tau s1) = (Pars.F q, Pars.tau q)).
    { change s1 with (Ok (), s1).2. rewrite <- B1.
      destruct (Controller.update_cont O);
        [apply frame_F_tau_cont | reflexivity]. }
    assert (F2 : (Pars.F s2, Pars.tau s2) = (Pars.F s1, Pars.tau s1)).
    { change s2 with (Ok (), s2).2. rewrite <- B2.
      destruct (Controller.update_eb O);
        [apply frame_F_tau_eb | reflexivity]. }
    assert (F3 : (Pars.F p', Pars.tau p') = (Pars.F s2, Pars.tau s2)).
    { change p' with (Ok (), p').2. rewrite <- H.
      destruct (Controller.do_ll O);
        [apply frame_F_tau_ll | reflexivity]. }
    rewrite F3, F2, F1. exact E11.
Qed.

End EMStep.

Section UpdatePars.

Context {numeric : Numeric} {emissions : Emissions}.

(** [update_pars] on an object [p] of the store: the step runs on a new
    object at the end of the store when [copy_pars] is set, and on [p]
    itself otherwise. *)
Lemma update_pars_run (r : ref) (data : SlugData) (s : State) (p : Pars.t) :
  heap s !! r = Some p ->
  update_pars r data s
  = let O := controller s in
    let step := update_pars_body O data p in
    if Controller.copy_pars O
    then (returning step.1 (length (heap s)),
          mkState (heap s ++ [step.2]) O)
    else (returning step.1 r, mkState (<[r := step.2]> (heap s)) O).
Proof.
  intros Hp. unfold update_pars, get_controller, deepcopy, on_object.
  cbv beta iota zeta delta [mbind mret ST_bind ST_ret].
  destruct (Controller.copy_pars (controller s)); cbn [heap controller].
  - rewrite Hp. cbn [heap controller].
    rewrite list_lookup_middle by reflexivity.
    destruct (update_pars_body (controller s) data p) as [[[]|e] p'];
      cbn [fst snd returning heap controller];
      rewrite insert_app_r_alt, Nat.sub_diag by lia; reflexivity.
  - rewrite Hp.
    destruct (update_pars_body (controller s) data p) as [[[]|e] p'];
      reflexivity.
Qed.

(** C4 (amended). [update_pars] has one SFS update and no choice between
    two: when [O.update_ftau] is set, an EM step that returns has set [F]
    and [tau] of the object it updated to what the numerically optimized
    [update_ftau_numeric] returns for the genotype posterior of [pars];
    when [O.update_ftau] is not set, [F] and [tau] are those of [pars].  The
    closed-form [update_ftau] is not called. *)
Theorem update_pars_sfs_is_numeric (r : ref) (data : SlugData) (s : State)
    (p : Pars.t) :
  heap s !! r = Some p ->
  forall (r' : ref) (s' : State),
    update_pars r data s = (Ok r', s') ->
    exists p' : Pars.t,
      heap s' !! r' = Some p'
      /\ (Controller.update_ftau (controller s) = true ->
          exists post_g : list row3,
            post_g_of data p = Ok post_g
            /\ update_ftau_numeric (Pars.F p) (Pars.tau p) data post_g
                 (Controller.update_F (controller s))
               = Ok (Pars.F p', Pars.tau p'))
      /\ (Controller.update_ftau (controller s) = false ->
          Pars.F p' = Pars.F p /\ Pars.tau p' = Pars.tau p).
Proof.
  intros Hp r' s' H. rewrite (update_pars_run _ _ _ _ Hp) in H.
  cbv zeta in H.
  destruct (update_pars_body (controller s) data p) as [a p'] eqn:Eb.
  cbn [fst snd] in H.
  assert (Ha : a = Ok tt /\ heap s' !! r' = Some p').
  { destruct (Controller.copy_pars (controller s));
      destruct a as [[]|e]; cbn [returning] in H; try discriminate H;
      injection H as <- <-; cbn [heap]; split; try reflexivity.
    - now apply list_lookup_middle.
    - apply list_lookup_insert_eq. eapply lookup_lt_Some; eauto. }
  destruct Ha as [-> Hp']. exists p'. split; [exact Hp'|]. split.
  - intros Hon. now apply update_pars_body_sfs_on.
  - intros Hoff.
    pose proof (update_pars_body_sfs_off (controller s) data p Hoff) as Hf.
    now rewrite Eb in Hf.
Qed.

End UpdatePars.

(** C4 (the claim as stated fails): on the small emission model, with the
    genotype posterior [(1, 0, 0)], no configuration makes an EM step
    compute the closed-form update: [F] and [tau] after the step are never
    what [update_ftau] returns. *)
Lemma no_configuration_selects_closed_form :
  ~ exists (O : Controller.t) (p' : Pars.t),
      @update_pars_body Stub.numeric (Stub.emissions Stub.drift Stub.c0)
        O Stub.data (Stub.pars0 NInf) = (Ok tt, p')
      /\ update_ftau (Pars.F (Stub.pars0 NInf)) (Pars.tau (Stub.pars0 NInf))
           Stub.data [(NP.one, NP.zero, NP.zero)] (Controller.update_F O)
         = Ok (Pars.F p', Pars.tau p').
Proof.
  intros (O & p' & H & Hc).
  destruct (Controller.update_ftau O) eqn:Eu.
  - destruct (@update_pars_body_sfs_on Stub.numeric _ O _ _ _ Eu H)
      as (post_g & Hg & Hn).
    vm_compute in Hg. injection Hg as <-.
    destruct (Controller.update_F O); vm_compute in Hn, Hc.
    + rewrite <- Hn in Hc. discriminate Hc.
    + discriminate Hn.
  - destruct (@update_pars_body_sfs_off Stub.numeric
                (Stub.emissions Stub.drift Stub.c0) O Stub.data
                (Stub.pars0 NInf) Eu) as [HF Ht].
    rewrite H in HF, Ht. cbn [snd] in HF, Ht. rewrite HF, Ht in Hc.
    destruct (Controller.update_F O); vm_compute in Hc; discriminate Hc.
Qed.

Lemma update_pars_sfs_is_numeric_witness :
  let s0 := Stub.store NInf
              (Controller.mk true true false false true true true 1
                 (Fin (1 # 1000)) (Fin (1 # 100)) (Fin 1) (Fin 4) (Fin 4)) in
  let run := @update_pars Stub.numeric (Stub.emissions Stub.drift Stub.c0)
               0%nat Stub.data s0 in
  exists p' : Pars.t,
    heap run.2 !! 1%nat = Some p'
    /\ Pars.F p' = [Fin (1 # 2)] /\ Pars.tau p' = [Fin (1 # 2)].
Proof.
  intros s0 run.
  assert (E : run = (Ok 1%nat, run.2)) by (vm_compute; reflexivity).
  destruct (@update_pars_sfs_is_numeric Stub.numeric
              (Stub.emissions Stub.drift Stub.c0)
              0%nat Stub.data s0 (Stub.pars0 NInf) eq_refl 1%nat run.2 E)
    as (p' & Hp' & Hon & _).
  exists p'. split; [exact Hp'|].
  destruct (Hon eq_refl) as (post_g & Hg & Hn).
  vm_compute in Hg. injection Hg as <-.
  match type of Hn with
  | ?l = _ => let v := eval vm_compute in l in change l with v in Hn
  end.
  injection Hn as <- <-. split; reflexivity.
Defined.

(* ===================================================================== *)
(** ** Running on an explicit store *)
(* ===================================================================== *)

Lemma lift_Ok_inv {S A} (r : result A) (s s1 : S) (a : A) :
  lift r s = (Ok a, s1) -> r = Ok a /\ s1 = s.
Proof. unfold lift. now intros [= -> <-]. Qed.

Lemma load_Ok_inv (r : ref) (s s1 : State) (p : Pars.t) :
  load r s = (Ok p, s1) -> heap s !! r = Some p /\ s1 = s.
Proof.
  unfold load. destruct (heap s !! r); [|discriminate]. now intros [= -> <-].
Qed.

Lemma deepcopy_Ok_inv (r a : ref) (s s1 : State) :
  deepcopy r s = (Ok a, s1) ->
  exists p, heap s !! r = Some p /\ a = length (heap s)
            /\ s1 = mkState (heap s ++ [p]) (controller s).
Proof.
  unfold deepcopy. destruct (heap s !! r) as [p|]; [|discriminate].
  intros [= <- <-]. eauto.
Qed.

Lemma on_object_Ok_inv {A} (r : ref) (m : ST Pars.t A) (s s1 : State) (a : A) :
  on_object r m s = (Ok a, s1) ->
  exists p p', heap s !! r = Some p /\ m p = (Ok a, p')
               /\ s1 = mkState (<[r := p']> (heap s)) (controller s).
Proof.
  unfold on_object. destruct (heap s !! r) as [p|]; [|discriminate].
  destruct (m p) as [a' p'] eqn:E. intros [= -> <-]. eauto.
Qed.

Section CopyMode.

Context {numeric : Numeric} {emissions : Emissions}.

Lemma update_pars_copy_inv (r r' : ref) (data : SlugData) (s s' : State) :
  Controller.copy_pars (controller s) = true ->
  update_pars r data s = (Ok r', s') ->
  exists p p',
    heap s !! r = Some p
    /\ em_step (controller s) data p = Ok p'
    /\ r' = length (heap s)
    /\ s' = mkState (heap s ++ [p']) (controller s).
Proof.
  intros Hc H. destruct (heap s !! r) as [p|] eqn:Hp.
  - rewrite (update_pars_run _ _ _ _ Hp) in H. cbv zeta in H.
    rewrite Hc in H.
    destruct (update_pars_body (controller s) data p) as [[[]|e] p'] eqn:Eb;
      cbn [fst snd returning] in H; [|discriminate H].
    injection H as <- <-. exists p, p'. unfold em_step. rewrite Eb.
    repeat split; auto.
  - exfalso. unfold update_pars, get_controller, deepcopy in H.
    cbv beta iota zeta delta [mbind mret ST_bind ST_ret] in H.
    rewrite Hc, Hp in H. discriminate H.
Qed.

End CopyMode.

(* ===================================================================== *)
(** ** One pass of [squarem] with copied parameter vectors *)
(* ===================================================================== *)

Section SquaremPass.

Context {numeric : Numeric} {emissions : Emissions}.

Local Open Scope np_scope.

Lemma assign_pars_Ok_inv (v : Pars.t -> array) (p p' : Pars.t) :
  assign_pars v p = (Ok tt, p') -> Pars.set_pars (v p) p = Ok p'.
Proof.
  unfold assign_pars.
  cbv beta iota zeta delta [mbind mret ST_bind ST_ret lift get modify].
  destruct (Pars.set_pars (v p) p); [|discriminate]. now intros [= <-].
Qed.

Lemma lookup_app_plus {A} (h l : list A) (i : nat) :
  (h ++ l) !! (length h + i)%nat = l !! i.
Proof. rewrite lookup_app_r by lia. f_equal. lia. Qed.

Lemma lookup_app_end {A} (h l : list A) :
  (h ++ l) !! length h = l !! 0%nat.
Proof. rewrite <- (lookup_app_plus h l 0). f_equal. lia. Qed.

End SquaremPass.

Section SquaremCopy.

Context {numeric : Numeric} {emissions : Emissions}.

Local Open Scope np_scope.

(** With [copy_pars] set, a pass of the loop that does not raise has the
    outcome of [squarem_pass] on the value of its current point, and adds
    the objects of [squarem_pass] at the end of the store; the objects that
    were in the store stay as they were. *)
Lemma squarem_iter_copy (data : SlugData) (min_step max_step : npfloat)
    (pars : ref) (s s' : State) (out : outcome) :
  Controller.copy_pars (controller s) = true ->
  squarem_iter data min_step pars max_step s = (Ok out, s') ->
  exists (p : Pars.t) (created : list Pars.t),
    heap s !! pars = Some p
    /\ squarem_pass (controller s) data min_step (length (heap s)) p max_step
       = Ok (out, created)
    /\ s' = mkState (heap s ++ created) (controller s).
Proof.
  intros Hc H. unfold squarem_iter in H.
  bind_inv H c s0 HO. injection HO as <- <-.
  bind_inv H pars1 s1 Hu1.
  destruct (update_pars_copy_inv _ _ _ _ _ Hc Hu1) as (p & p1 & Hp & E1 & -> & ->).
  clear Hu1. set (h := heap s) in *. set (O := controller s) in *.
  assert (Hlt : (pars < length h)%nat) by (eapply lookup_lt_Some; eauto).
  bind_inv H x s1 Hl. apply load_Ok_inv in Hl as [Hl ->]. cbn [heap] in Hl.
  rewrite lookup_app_end in Hl. injection Hl as <-.
  bind_inv H x s1 Hl. apply load_Ok_inv in Hl as [Hl ->]. cbn [heap] in Hl.
  rewrite lookup_app_l, Hp in Hl by exact Hlt. injection Hl as <-.
  bind_inv H Δp1 s1 Hv. apply lift_Ok_inv in Hv as [Hv1 ->].
  exists p. unfold squarem_pass. rewrite E1. cbn [mbind result_bind].
  rewrite Hv1. cbn [mbind result_bind].
  destruct ((norm Δp1 <? Controller.param_tol O)
            || (Pars.ll p1 - Pars.prev_ll p1 <? Controller.ll_tol O)).
  { injection H as <- <-. exists [p1]. auto. }
  bind_inv H pars2 s2 Hu2.
  match type of Hu2 with
  | update_pars _ _ ?st = _ =>
      destruct (update_pars_copy_inv _ _ _ st _ Hc Hu2)
        as (x & p2 & Hx & E2 & -> & ->)
  end.
  clear Hu2. cbn [heap controller] in *.
  rewrite lookup_app_end in Hx. injection Hx as <-.
  rewrite length_app in H. cbn [length] in H.
  rewrite <- app_assoc in H. cbn [app] in H.
  bind_inv H x s1 Hl. apply load_Ok_inv in Hl as [Hl ->]. cbn [heap] in Hl.
  rewrite (lookup_app_plus h [p1; p2] 1) in Hl. injection Hl as <-.
  bind_inv H x s1 Hl. apply load_Ok_inv in Hl as [Hl ->]. cbn [heap] in Hl.
  rewrite lookup_app_end in Hl. injection Hl as <-.
  bind_inv H Δp2 s1 Hv. apply lift_Ok_inv in Hv as [Hv2 ->].
  rewrite E2. cbn [mbind result_bind]. rewrite Hv2. cbn [mbind result_bind].
  destruct ((norm Δp2 <? Controller.param_tol O)
            || (Pars.ll p2 - Pars.ll p1 <? Controller.ll_tol O)).
  { injection H as <- <-. exists [p1; p2]. auto. }
  bind_inv H Δp3 s1 Hv. apply lift_Ok_inv in Hv as [Hv3 ->].
  rewrite Hv3. cbn [mbind result_bind]. cbv zeta in H |- *.
  set (step_size := NP.clip (norm Δp1 / norm Δp3) min_step max_step) in *.
  unfold squarem_extrapolate in H.
  bind_inv H pars_sq s1 Hd.
  apply deepcopy_Ok_inv in Hd as (x & Hx & -> & ->). cbn [heap controller] in *.
  rewrite (lookup_app_plus h [p1; p2] 1) in Hx. injection Hx as <-.
  rewrite length_app in H. cbn [length] in H.
  rewrite <- app_assoc in H. cbn [app] in H.
  bind_inv H x s1 Hl. apply load_Ok_inv in Hl as [Hl ->]. cbn [heap] in Hl.
  rewrite lookup_app_l, Hp in Hl by exact Hlt. injection Hl as <-.
  bind_inv H v s1 Hv. apply lift_Ok_inv in Hv as [Hcand ->].
  rewrite Hcand. cbn [mbind result_bind].
  bind_inv H u s1 Ho. destruct u.
  apply on_object_Ok_inv in Ho as (x & q0 & Hx & Hq0 & ->).
  cbn [heap controller] in *.
  rewrite (lookup_app_plus h [p1; p2; p2] 2) in Hx. injection Hx as <-.
  apply assign_pars_Ok_inv in Hq0. rewrite Hq0. cbn [mbind result_bind].
  rewrite (insert_app_r h [p1; p2; p2] 2) in H. cbn [insert list_insert] in H.
  bind_inv H u s1 Ho. destruct u.
  apply on_object_Ok_inv in Ho as (x & q & Hx & Hq & ->).
  cbn [heap controller] in *.
  rewrite (lookup_app_plus h [p1; p2; q0] 2) in Hx. injection Hx as <-.
  apply assign_pars_Ok_inv in Hq. rewrite Hq. cbn [mbind result_bind].
  rewrite (insert_app_r h [p1; p2; q0] 2) in H. cbn [insert list_insert] in H.
  bind_inv H pars_sq s1 Hu3.
  match type of Hu3 with
  | update_pars _ _ ?st = _ =>
      destruct (update_pars_copy_inv _ _ _ st _ Hc Hu3)
        as (x & p_sq & Hx & E3 & -> & ->)
  end.
  clear Hu3. cbn [heap controller] in *.
  rewrite (lookup_app_plus h [p1; p2; q] 2) in Hx. injection Hx as <-.
  rewrite E3. cbn [mbind result_bind].
  rewrite length_app in H. cbn [length] in H.
  rewrite <- app_assoc in H. cbn [app] in H.
  unfold squarem_accept in H.
  bind_inv H x s1 Hl. apply load_Ok_inv in Hl as [Hl ->]. cbn [heap] in Hl.
  rewrite (lookup_app_plus h [p1; p2; q; p_sq] 3) in Hl. injection Hl as <-.
  bind_inv H x s1 Hl. apply load_Ok_inv in Hl as [Hl ->]. cbn [heap] in Hl.
  rewrite (lookup_app_plus h [p1; p2; q; p_sq] 1) in Hl. injection Hl as <-.
  injection H as <- <-. exists [p1; p2; q; p_sq]. auto.
Qed.

End SquaremCopy.

(* ===================================================================== *)
(** ** The log-likelihood along a run of [squarem] *)
(* ===================================================================== *)

Section LogLikelihood.

Context {numeric : Numeric} {emissions : Emissions}.

Local Open Scope np_scope.

Abbreviation lls := (fun p : Pars.t => (Pars.ll p, Pars.prev_ll p)).

Lemma frame_ll_ftau O data bwd_g fwd_g :
  frame lls (update_pars_ftau O data bwd_g fwd_g).
Proof. unfold update_pars_ftau. solve_frame. Qed.

Lemma frame_ll_cont data bwd_x fwd_x_nocont fwd_x_cont fwd_c :
  frame lls (update_pars_cont data bwd_x fwd_x_nocont fwd_x_cont fwd_c).
Proof. unfold update_pars_cont. solve_frame. Qed.

Lemma frame_ll_eb O data bwd_x fwd_x_cont fwd_x_nocont fwd_c :
  frame lls (update_pars_eb O data bwd_x fwd_x_cont fwd_x_nocont fwd_c).
Proof. unfold update_pars_eb. solve_frame. Qed.

(** What an EM step does to [ll] and [prev_ll]: with [do_ll] the old [ll]
    moves to [prev_ll] and [ll] is a value of [calc_full_ll]; without it
    both stay. *)
Lemma em_step_ll (O : Controller.t) (data : SlugData) (p p' : Pars.t) :
  em_step O data p = Ok p' ->
  if Controller.do_ll O
  then Pars.prev_ll p' = Pars.ll p
       /\ exists q, calc_full_ll data q = Ok (Pars.ll p')
  else Pars.ll p' = Pars.ll p /\ Pars.prev_ll p' = Pars.prev_ll p.
Proof.
  unfold em_step.
  destruct (update_pars_body O data p) as [[[]|e] p''] eqn:H; [|discriminate].
  intros [= ->]. unfold update_pars_body in H. st_unfold H.
  destruct (fwd_p_g data p) as [fwd_g|]; [|discriminate H].
  destruct (bwd_p_o_given_x _ _ _ _) as [bwd_x|]; [|discriminate H].
  destruct (bwd_p_one_o_given_g _ _ _ _ _ _) as [bwd_g1|]; [|discriminate H].
  destruct (bwd_p_all_o_given_g _ _ _) as [bwd_g|]; [|discriminate H].
  destruct (fwd_p_x_cont _ _) as [fwd_x_cont|]; [|discriminate H].
  destruct (fwd_p_x_nocont _ _) as [fwd_x_nocont|]; [|discriminate H].
  destruct (fwd_p_x _ _ _ _) as [fwd_x|]; [|discriminate H].
  match type of H with
  | (let (_, _) := ?m p in _) = _ =>
      destruct (m p) as [[[]|] s1] eqn:B1; [|discriminate H]
  end.
  match type of H with
  | (let (_, _) := ?m s1 in _) = _ =>
      destruct (m s1) as [[[]|] s2] eqn:B2; [|discriminate H]
  end.
  match type of H with
  | (let (_, _) := ?m s2 in _) = _ =>
      destruct (m s2) as [[[]|] s3] eqn:B3; [|discriminate H]
  end.
  assert (F1 : lls s1 = lls p).
  { change s1 with (Ok (), s1).2. rewrite <- B1.
    destruct (Controller.update_ftau O); [apply frame_ll_ftau | reflexivity]. }
  assert (F2 : lls s2 = lls s1).
  { change s2 with (Ok (), s2).2. rewrite <- B2.
    destruct (Controller.update_cont O); [apply frame_ll_cont | reflexivity]. }
  assert (F3 : lls s3 = lls s2).
  { change s3 with (Ok (), s3).2. rewrite <- B3.
    destruct (Controller.update_eb O); [apply frame_ll_eb | reflexivity]. }
  assert (F : Pars.ll s3 = Pars.ll p /\ Pars.prev_ll s3 = Pars.prev_ll p).
  { cbv beta in F1, F2, F3. rewrite F2, F1 in F3. now injection F3. }
  destruct F as [Fl Fp]. clear B1 B2 B3 F1 F2 F3.
  destruct (Controller.do_ll O).
  - unfold update_pars_ll in H. st_unfold H.
    destruct (calc_full_ll data s3) as [v|] eqn:Ev; [|discriminate H].
    injection H as <-. cbn. split; [exact Fl | eauto].
  - injection H as <-. auto.
Qed.

(** With [do_ll], the [ll] an EM step leaves is the log-likelihood of the
    parameters it leaves. *)
Lemma em_step_ll_current (O : Controller.t) (data : SlugData) (p p' : Pars.t) :
  ll_reads_parameters ->
  Controller.do_ll O = true ->
  em_step O data p = Ok p' -> ll_current data p'.
Proof.
  intros Hfields Hdo. unfold em_step.
  destruct (update_pars_body O data p) as [[[]|e] p''] eqn:H; [|discriminate].
  intros [= ->]. unfold update_pars_body in H. st_unfold H.
  destruct (fwd_p_g data p) as [fwd_g|]; [|discriminate H].
  destruct (bwd_p_o_given_x _ _ _ _) as [bwd_x|]; [|discriminate H].
  destruct (bwd_p_one_o_given_g _ _ _ _ _ _) as [bwd_g1|]; [|discriminate H].
  destruct (bwd_p_all_o_given_g _ _ _) as [bwd_g|]; [|discriminate H].
  destruct (fwd_p_x_cont _ _) as [fwd_x_cont|]; [|discriminate H].
  destruct (fwd_p_x_nocont _ _) as [fwd_x_nocont|]; [|discriminate H].
  destruct (fwd_p_x _ _ _ _) as [fwd_x|]; [|discriminate H].
  match type of H with
  | (let (_, _) := ?m p in _) = _ =>
      destruct (m p) as [[[]|] s1]; [|discriminate H]
  end.
  match type of H with
  | (let (_, _) := ?m s1 in _) = _ =>
      destruct (m s1) as [[[]|] s2]; [|discriminate H]
  end.
  match type of H with
  | (let (_, _) := ?m s2 in _) = _ =>
      destruct (m s2) as [[[]|] s3]; [|discriminate H]
  end.
  rewrite Hdo in H. unfold update_pars_ll in H. st_unfold H.
  destruct (calc_full_ll data s3) as [v|] eqn:Ev; [|discriminate H].
  injection H as <-. unfold ll_current. now rewrite Hfields.
Qed.

End LogLikelihood.

(** Comparisons of values that are not [nan]. *)
Lemma leb_Fin_iff (a b : Q) : (Fin a <=? Fin b)%np = true <-> (a <= b)%Q.
Proof. apply (val_leb _ _ a b (val_Fin a) (val_Fin b)). Qed.

Lemma leb_refl (a : npfloat) : NP.isnan a = false -> (a <=? a)%np = true.
Proof.
  destruct a as [q| | |]; try reflexivity; [|discriminate].
  intros _. apply leb_Fin_iff. apply Qle_refl.
Qed.

Lemma leb_trans (a b c : npfloat) :
  (a <=? b)%np = true -> (b <=? c)%np = true -> (a <=? c)%np = true.
Proof.
  destruct a as [x| | |], b as [y| | |], c as [z| | |];
    try reflexivity; try discriminate; try (intros; assumption).
  rewrite !leb_Fin_iff. apply Qle_trans.
Qed.

Lemma leb_total (a b : npfloat) :
  NP.isnan a = false -> NP.isnan b = false ->
  (a <=? b)%np = false -> (b <=? a)%np = true.
Proof.
  destruct a as [x| | |], b as [y| | |];
    try reflexivity; try discriminate.
  intros _ _ H. apply leb_Fin_iff.
  destruct (Qlt_le_dec y x) as [Hlt|Hle]; [now apply Qlt_le_weak|].
  apply leb_Fin_iff in Hle. congruence.
Qed.

(** A gain [a - b] that is not below a tolerance [t >= 0] is no loss. *)
Lemma gain_not_below_tol (a b t : npfloat) :
  NP.isnan a = false -> NP.isnan b = false ->
  (NP.zero <=? t)%np = true ->
  (a - b <? t)%np = false ->
  (b <=? a)%np = true.
Proof.
  destruct a as [x| | |], b as [y| | |], t as [z| | |];
    try reflexivity; try discriminate.
  intros _ _ Ht H. apply leb_Fin_iff. apply leb_Fin_iff in Ht.
  destruct (Qlt_le_dec x y) as [Hlt|Hle]; [|exact Hle].
  exfalso.
  assert (Hs : val (Fin x - Fin y)%np (x - y)%Q).
  { apply val_sub; apply val_Fin. }
  assert (Hc : (Fin x - Fin y <? Fin z)%np = true).
  { apply (val_ltb _ _ _ _ Hs (val_Fin z)). lra. }
  congruence.
Qed.

Lemma set_pars_ll (v : array) (p q : Pars.t) :
  Pars.set_pars v p = Ok q ->
  Pars.ll q = Pars.ll p /\ Pars.prev_ll q = Pars.prev_ll p.
Proof.
  unfold Pars.set_pars. destruct (Nat.eqb _ _); [|discriminate].
  intros [= <-]. split; reflexivity.
Qed.

Lemma nondecreasing_cons (a b : npfloat) (l : list npfloat) :
  (a <=? b)%np = true -> nondecreasing (b :: l) -> nondecreasing (a :: b :: l).
Proof.
  intros Hab Hl [|i] x y Hx Hy; simpl in *.
  - injection Hx as <-. injection Hy as <-. exact Hab.
  - exact (Hl i x y Hx Hy).
Qed.

Lemma nondecreasing_one (a : npfloat) : nondecreasing [a].
Proof. intros [|i] x y Hx Hy; simpl in *; discriminate. Qed.

Section Monotone.

Context {numeric : Numeric} {emissions : Emissions}.

Local Open Scope np_scope.

Lemma squarem_loop_traced_run n data min_step pars max_step s :
  (squarem_loop_traced n data min_step pars max_step s).2
  = squarem_loop n data min_step pars max_step s.
Proof.
  revert pars max_step s. induction n as [|n IH]; intros pars max_step s.
  - reflexivity.
  - cbn [squarem_loop_traced squarem_loop].
    cbv beta iota zeta delta [mbind ST_bind mret ST_ret].
    destruct (squarem_iter data min_step pars max_step s)
      as [[[pars'|pars' max_step']|e] s']; try reflexivity.
    specialize (IH pars' max_step' s').
    destruct (squarem_loop_traced n data min_step pars' max_step' s').
    exact IH.
Qed.

Variables (O : Controller.t) (data : SlugData).
Hypothesis Htol : (NP.zero <=? Controller.ll_tol O) = true.
Hypothesis Hll : forall d q v, calc_full_ll d q = Ok v -> NP.isnan v = false.

Lemma em_step_ll_nan (p p' : Pars.t) :
  em_step O data p = Ok p' ->
  NP.isnan (Pars.ll p) = false -> NP.isnan (Pars.ll p') = false.
Proof using Hll.
  intros E Hp. apply em_step_ll in E. destruct (Controller.do_ll O).
  - destruct E as [_ [q Hq]]. eapply Hll; eauto.
  - destruct E as [-> _]. exact Hp.
Qed.

(** A pass that goes on to the next ends at a point whose log-likelihood
    is not below that of the point it started from. *)
Lemma squarem_pass_ll (min_step max_step m : npfloat) (n r : nat)
    (p : Pars.t) (created : list Pars.t) :
  NP.isnan (Pars.ll p) = false ->
  squarem_pass O data min_step n p max_step = Ok (Next r m, created) ->
  exists p' : Pars.t,
    (n <= r)%nat /\ created !! (r - n)%nat = Some p'
    /\ (Pars.ll p <=? Pars.ll p') = true
    /\ NP.isnan (Pars.ll p') = false.
Proof using Htol Hll.
  intros Hp H. unfold squarem_pass in H.
  destruct (em_step O data p) as [p1|] eqn:E1; [|discriminate H].
  cbn [mbind result_bind] in H.
  destruct (vec_sub (Pars.pars p1) (Pars.pars p)) as [Δp1|]; [|discriminate H].
  cbn [mbind result_bind] in H.
  destruct (_ || _) eqn:C1 in H; [discriminate H|].
  destruct (em_step O data p1) as [p2|] eqn:E2; [|discriminate H].
  cbn [mbind result_bind] in H.
  destruct (vec_sub (Pars.pars p2) (Pars.pars p1)) as [Δp2|]; [|discriminate H].
  cbn [mbind result_bind] in H.
  destruct (_ || _) eqn:C2 in H; [discriminate H|].
  destruct (vec_sub Δp2 Δp1) as [Δp3|]; [|discriminate H].
  cbn [mbind result_bind] in H. cbv zeta in H.
  destruct (candidate _ _ _ _) as [v|]; [|discriminate H].
  cbn [mbind result_bind] in H.
  destruct (Pars.set_pars v p2) as [q0|] eqn:Eq0; [|discriminate H].
  cbn [mbind result_bind] in H.
  destruct (Pars.set_pars _ q0) as [q|] eqn:Eq; [|discriminate H].
  cbn [mbind result_bind] in H.
  destruct (em_step O data q) as [p_sq|] eqn:E3; [|discriminate H].
  cbn [mbind result_bind] in H.
  apply orb_false_iff in C1 as [_ C1]. apply orb_false_iff in C2 as [_ C2].
  pose proof (em_step_ll_nan _ _ E1 Hp) as N1.
  pose proof (em_step_ll_nan _ _ E2 N1) as N2.
  apply set_pars_ll in Eq0 as [L0 _]. apply set_pars_ll in Eq as [Lq _].
  assert (Nq : NP.isnan (Pars.ll q) = false) by (now rewrite Lq, L0).
  pose proof (em_step_ll_nan _ _ E3 Nq) as N3.
  assert (H01 : (Pars.ll p <=? Pars.ll p1) = true).
  { pose proof (em_step_ll _ _ _ _ E1) as L. destruct (Controller.do_ll O).
    - destruct L as [L _]. rewrite L in C1.
      now apply (gain_not_below_tol _ _ _ N1 Hp Htol).
    - destruct L as [L _]. rewrite L. now apply leb_refl. }
  assert (H12 : (Pars.ll p1 <=? Pars.ll p2) = true).
  { now apply (gain_not_below_tol _ _ _ N2 N1 Htol). }
  pose proof (leb_trans _ _ _ H01 H12) as H02.
  unfold accept_rule in H.
  destruct (Pars.ll p_sq <=? Pars.ll p2) eqn:Ca; injection H as <- _ <-.
  - exists p2. replace (n + 1 - n)%nat with 1%nat by lia.
    repeat split; auto. lia.
  - exists p_sq. replace (n + 3 - n)%nat with 3%nat by lia.
    repeat split; auto; [lia|].
    apply (leb_trans _ _ _ H02). now apply leb_total.
Qed.

End Monotone.

Section MonotoneEM.

Context {numeric : Numeric} {emissions : Emissions}.

Local Open Scope np_scope.

Variables (O : Controller.t) (data : SlugData).
Hypothesis Hll : forall d q v, calc_full_ll d q = Ok v -> NP.isnan v = false.
Hypothesis Hfields : ll_reads_parameters.
Hypothesis Hem : em_never_decreases O data.

(** what an EM step leaves is settled *)
Lemma em_step_settled (p p' : Pars.t) :
  NP.isnan (Pars.ll p) = false ->
  em_step O data p = Ok p' -> settled O data p'.
Proof using Hll Hfields.
  intros Hp E. split.
  - exact (em_step_ll_nan O data Hll _ _ E Hp).
  - intros Hdo. exact (em_step_ll_current _ _ _ _ Hfields Hdo E).
Qed.

(** an EM step from a settled point does not lower the log-likelihood *)
Lemma em_step_not_lower (p p' : Pars.t) :
  settled O data p ->
  em_step O data p = Ok p' -> (Pars.ll p <=? Pars.ll p') = true.
Proof using Hem.
  intros [Hp Hcur] E. destruct (Controller.do_ll O) eqn:Hdo.
  - exact (Hem p p' (Hcur eq_refl) E).
  - apply em_step_ll in E. rewrite Hdo in E. destruct E as [-> _].
    now apply leb_refl.
Qed.

(** With an EM that does not lower the log-likelihood, the current point
    at the end of a pass, however the pass ends, is not below the point the
    pass started from. *)
Lemma squarem_pass_ll_kept (min_step max_step : npfloat) (n : nat)
    (p : Pars.t) (out : outcome) (created : list Pars.t) :
  settled O data p ->
  squarem_pass O data min_step n p max_step = Ok (out, created) ->
  exists p' : Pars.t,
    (n <= outcome_ref out)%nat
    /\ created !! (outcome_ref out - n)%nat = Some p'
    /\ (Pars.ll p <=? Pars.ll p') = true
    /\ settled O data p'.
Proof using Hll Hfields Hem.
  intros Hp H. unfold squarem_pass in H.
  destruct (em_step O data p) as [p1|] eqn:E1; [|discriminate H].
  cbn [mbind result_bind] in H.
  pose proof (em_step_not_lower _ _ Hp E1) as H01.
  pose proof (em_step_settled _ _ (proj1 Hp) E1) as S1.
  destruct (vec_sub (Pars.pars p1) (Pars.pars p)) as [Δp1|]; [|discriminate H].
  cbn [mbind result_bind] in H.
  destruct (_ || _) in H.
  { injection H as <- <-. exists p1. cbn [outcome_ref].
    rewrite Nat.sub_diag. repeat split; auto; apply S1. }
  destruct (em_step O data p1) as [p2|] eqn:E2; [|discriminate H].
  cbn [mbind result_bind] in H.
  pose proof (em_step_not_lower _ _ S1 E2) as H12.
  pose proof (em_step_settled _ _ (proj1 S1) E2) as S2.
  pose proof (leb_trans _ _ _ H01 H12) as H02.
  destruct (vec_sub (Pars.pars p2) (Pars.pars p1)) as [Δp2|]; [|discriminate H].
  cbn [mbind result_bind] in H.
  destruct (_ || _) in H.
  { injection H as <- <-. exists p2. cbn [outcome_ref].
    replace (n + 1 - n)%nat with 1%nat by lia.
    repeat split; auto; [lia | apply S2..]. }
  destruct (vec_sub Δp2 Δp1) as [Δp3|]; [|discriminate H].
  cbn [mbind result_bind] in H. cbv zeta in H.
  destruct (candidate _ _ _ _) as [v|]; [|discriminate H].
  cbn [mbind result_bind] in H.
  destruct (Pars.set_pars v p2) as [q0|] eqn:Eq0; [|discriminate H].
  cbn [mbind result_bind] in H.
  destruct (Pars.set_pars _ q0) as [q|] eqn:Eq; [|discriminate H].
  cbn [mbind result_bind] in H.
  destruct (em_step O data q) as [p_sq|] eqn:E3; [|discriminate H].
  cbn [mbind result_bind] in H.
  apply set_pars_ll in Eq0 as [L0 _]. apply set_pars_ll in Eq as [Lq _].
  assert (Nq : NP.isnan (Pars.ll q) = false)
    by (rewrite Lq, L0; apply S2).
  pose proof (em_step_settled _ _ Nq E3) as S3.
  unfold accept_rule in H.
  destruct (Pars.ll p_sq <=? Pars.ll p2) eqn:Ca; injection H as <- <-;
    cbn [outcome_ref].
  - exists p2. replace (n + 1 - n)%nat with 1%nat by lia.
    repeat split; auto; [lia | apply S2..].
  - exists p_sq. replace (n + 3 - n)%nat with 3%nat by lia.
    repeat split; auto; [lia | | apply S3..].
    apply (leb_trans _ _ _ H02).
    apply leb_total; [apply S3 | apply S2 | exact Ca].
Qed.

End MonotoneEM.

Section MonotoneRun.

Context {numeric : Numeric} {emissions : Emissions}.

Local Open Scope np_scope.

Lemma squarem_loop_traced_nondecreasing (data : SlugData) (min_step : npfloat)
    (n : nat) (pars : ref) (max_step : npfloat) (s : State) :
  Controller.copy_pars (controller s) = true ->
  (NP.zero <=? Controller.ll_tol (controller s)) = true ->
  (forall d q v, calc_full_ll d q = Ok v -> NP.isnan v = false) ->
  NP.isnan (ll_at s pars) = false ->
  nondecreasing
    (ll_at s pars
     :: kept_by_rule (squarem_loop_traced n data min_step pars max_step s).1).
Proof.
  intros Hc Htol Hll. revert pars max_step s Hc Htol.
  induction n as [|n IH]; intros pars max_step s Hc Htol Hnan.
  - apply nondecreasing_one.
  - cbn [squarem_loop_traced].
    destruct (squarem_iter data min_step pars max_step s)
      as [[[pars'|pars' max_step']|e] s'] eqn:Ei;
      try apply nondecreasing_one.
    destruct (squarem_iter_copy _ _ _ _ _ _ _ Hc Ei)
      as (p & created & Hp & Hpass & ->).
    assert (Hlp : ll_at s pars = Pars.ll p) by (unfold ll_at; now rewrite Hp).
    rewrite Hlp in Hnan |- *.
    destruct (squarem_pass_ll _ data Htol Hll _ _ _ _ _ _ _ Hnan Hpass)
      as (p' & Hle & Hp' & Hmono & Hnan').
    set (s' := mkState (heap s ++ created) (controller s)) in *.
    assert (Hlp' : ll_at s' pars' = Pars.ll p').
    { unfold ll_at, s'. cbn [heap].
      rewrite lookup_app_r by exact Hle. now rewrite Hp'. }
    specialize (IH pars' max_step' s' Hc Htol).
    destruct (squarem_loop_traced n data min_step pars' max_step' s')
      as [t r].
    cbn [fst kept_by_rule] in *. rewrite Hlp' in *.
    apply nondecreasing_cons; [exact Hmono | now apply IH].
Qed.

(** With an EM that does not lower the log-likelihood, no point kept along
    the loop is below the one before it, the point kept at a [break]
    included. *)
Lemma squarem_loop_traced_all_nondecreasing (data : SlugData)
    (min_step : npfloat) (n : nat) (pars : ref) (max_step : npfloat)
    (s : State) (p : Pars.t) :
  Controller.copy_pars (controller s) = true ->
  (forall d q v, calc_full_ll d q = Ok v -> NP.isnan v = false) ->
  ll_reads_parameters ->
  em_never_decreases (controller s) data ->
  heap s !! pars = Some p ->
  settled (controller s) data p ->
  nondecreasing
    (Pars.ll p
     :: map kept_ll (squarem_loop_traced n data min_step pars max_step s).1).
Proof.
  intros Hc Hll Hfields. revert pars max_step s p Hc.
  induction n as [|n IH]; intros pars max_step s p Hc Hem Hp Hs.
  - apply nondecreasing_one.
  - cbn [squarem_loop_traced].
    destruct (squarem_iter data min_step pars max_step s)
      as [[out|e] s'] eqn:Ei; [|apply nondecreasing_one].
    destruct (squarem_iter_copy _ _ _ _ _ _ _ Hc Ei)
      as (p0 & created & Hp0 & Hpass & ->).
    rewrite Hp in Hp0. injection Hp0 as <-.
    destruct (squarem_pass_ll_kept _ data Hll Hfields Hem _ _ _ _ _ _ Hs Hpass)
      as (p' & Hle & Hp' & Hmono & Hs').
    set (s' := mkState (heap s ++ created) (controller s)) in *.
    assert (Hh : heap s' !! outcome_ref out = Some p').
    { unfold s'. cbn [heap]. rewrite lookup_app_r by exact Hle. exact Hp'. }
    assert (Hlp' : ll_at s' (outcome_ref out) = Pars.ll p').
    { unfold ll_at. now rewrite Hh. }
    destruct out as [pars'|pars' max_step']; cbn [outcome_ref] in *.
    + cbn [fst map kept_ll]. rewrite Hlp'.
      apply nondecreasing_cons; [exact Hmono | apply nondecreasing_one].
    + specialize (IH pars' max_step' s' p' Hc Hem Hh Hs').
      destruct (squarem_loop_traced n data min_step pars' max_step' s')
        as [t r].
      cbn [fst map kept_ll] in *. rewrite Hlp'.
      apply nondecreasing_cons; [exact Hmono | exact IH].
Qed.

(** C1.  Along a run of [squarem] the log-likelihood of the current point
    never decreases from one outer iteration to the next.  The loop of
    [squarem] itself records the log-likelihood of the point kept at the
    end of every outer iteration.  For every dataset, every emission model
    whose log-likelihood is never [nan] and every configuration whose
    tolerance [ll_tol] is not negative: in the list that starts with the
    log-likelihood of the initial point and continues with that of the
    points kept by the acceptance rule ([pars2] on rejection, [pars_sq] on
    acceptance), no value is followed by a smaller one.  When moreover the
    EM steps do not lower the log-likelihood (the monotonicity of EM), the
    log-likelihood being that of the parameters and current at the start,
    the same holds of the list of all points kept, the point kept at a
    [break], which [squarem] returns, included. *)
Theorem squarem_ll_never_decreases (pars0 : ref) (data : SlugData) (s : State) :
  let forced :=
    mkState (heap s) (Controller.set_copy_pars true (controller s)) in
  let traced :=
    squarem_loop_traced (Z.to_nat (Controller.n_iter (controller s))) data
      (Controller.squarem_min (controller s)) pars0
      (Controller.squarem_max (controller s)) forced in
  (NP.zero <=? Controller.ll_tol (controller s)) = true ->
  (forall d q v, calc_full_ll d q = Ok v -> NP.isnan v = false) ->
  NP.isnan (ll_at s pars0) = false ->
  traced.2 = squarem pars0 data s
  /\ nondecreasing (ll_at s pars0 :: kept_by_rule traced.1)
  /\ (ll_reads_parameters ->
      em_never_decreases (controller forced) data ->
      (forall p, heap s !! pars0 = Some p -> ll_current data p) ->
      nondecreasing (ll_at s pars0 :: map kept_ll traced.1)).
Proof.
  intros forced traced Htol Hll Hnan. split; [|split].
  - unfold traced. rewrite squarem_loop_traced_run. reflexivity.
  - change (ll_at s pars0) with (ll_at forced pars0).
    apply squarem_loop_traced_nondecreasing; auto.
  - intros Hfields Hem Hcur. unfold ll_at in Hnan |- *.
    destruct (heap s !! pars0) as [p|] eqn:Hp; [|discriminate Hnan].
    apply squarem_loop_traced_all_nondecreasing; auto.
    split; [exact Hnan | intros _; now apply Hcur].
Qed.

End MonotoneRun.

(* ===================================================================== *)
(** ** The step size and the acceptance rule *)
(* ===================================================================== *)

Section Acceptance.

Context {numeric : Numeric} {emissions : Emissions}.

Local Open Scope np_scope.

Lemma squarem_pass_Next_inv (O : Controller.t) (data : SlugData)
    (min_step max_step m : npfloat) (n r : nat) (p : Pars.t)
    (created : list Pars.t) :
  squarem_pass O data min_step n p max_step = Ok (Next r m, created) ->
  exists d : pass_data,
    pass_computes O data min_step max_step p d
    /\ created = [pd_p1 d; pd_p2 d; pd_q d; pd_p_sq d]
    /\ Next r m
       = accept_rule O (n + 1)%nat (n + 3)%nat (Pars.ll (pd_p2 d))
           (Pars.ll (pd_p_sq d)) (pd_step_size d min_step max_step) max_step.
Proof.
  intros H. unfold squarem_pass in H.
  destruct (em_step O data p) as [p1|] eqn:E1; [|discriminate H].
  cbn [mbind result_bind] in H.
  destruct (vec_sub (Pars.pars p1) (Pars.pars p)) as [Δp1|] eqn:V1;
    [|discriminate H].
  cbn [mbind result_bind] in H.
  destruct (_ || _) eqn:C1 in H; [discriminate H|].
  destruct (em_step O data p1) as [p2|] eqn:E2; [|discriminate H].
  cbn [mbind result_bind] in H.
  destruct (vec_sub (Pars.pars p2) (Pars.pars p1)) as [Δp2|] eqn:V2;
    [|discriminate H].
  cbn [mbind result_bind] in H.
  destruct (_ || _) eqn:C2 in H; [discriminate H|].
  destruct (vec_sub Δp2 Δp1) as [Δp3|] eqn:V3; [|discriminate H].
  cbn [mbind result_bind] in H. cbv zeta in H.
  destruct (candidate _ _ _ _) as [v|] eqn:Ev; [|discriminate H].
  cbn [mbind result_bind] in H.
  destruct (Pars.set_pars v p2) as [q0|] eqn:Eq0; [|discriminate H].
  cbn [mbind result_bind] in H.
  destruct (Pars.set_pars _ q0) as [q|] eqn:Eq; [|discriminate H].
  cbn [mbind result_bind] in H.
  destruct (em_step O data q) as [p_sq|] eqn:E3; [|discriminate H].
  cbn [mbind result_bind] in H.
  injection H as Hout <-.
  exists {| pd_p1 := p1; pd_p2 := p2; pd_Δp1 := Δp1; pd_Δp2 := Δp2;
            pd_Δp3 := Δp3; pd_q := q; pd_p_sq := p_sq |}.
  unfold pass_computes, past_checks, evaluates_candidate, pd_step_size.
  cbn [pd_p1 pd_p2 pd_Δp1 pd_Δp2 pd_Δp3 pd_q pd_p_sq].
  split; [|split; [reflexivity | symmetry; exact Hout]].
  split.
  - split; [exact E1|]. split; [exact V1|]. split; [exact C1|].
    split; [exact E2|]. split; [exact V2|]. split; [exact C2|]. exact V3.
  - split; [|exact E3]. exists v, q0. auto.
Qed.


End Acceptance.

Lemma load_run (r : ref) (s : State) (p : Pars.t) :
  heap s !! r = Some p -> load r s = (Ok p, s).
Proof. intros H. unfold load. now rewrite H. Qed.

Lemma deepcopy_run (r : ref) (s : State) (p : Pars.t) :
  heap s !! r = Some p ->
  deepcopy r s
  = (Ok (length (heap s)), mkState (heap s ++ [p]) (controller s)).
Proof. intros H. unfold deepcopy. now rewrite H. Qed.

Section SquaremRun.

Context {numeric : Numeric} {emissions : Emissions}.

Local Open Scope np_scope.

Lemma assign_pars_run (v : Pars.t -> array) (p p' : Pars.t) :
  Pars.set_pars (v p) p = Ok p' -> assign_pars v p = (Ok tt, p').
Proof.
  intros H. unfold assign_pars.
  cbv beta iota zeta delta [mbind mret ST_bind ST_ret lift get modify].
  now rewrite H.
Qed.

Lemma on_object_assign_run (r : ref) (v : Pars.t -> array) (s : State)
    (p p' : Pars.t) :
  heap s !! r = Some p ->
  Pars.set_pars (v p) p = Ok p' ->
  on_object r (assign_pars v) s
  = (Ok tt, mkState (<[r := p']> (heap s)) (controller s)).
Proof.
  intros Hp H. unfold on_object. rewrite Hp.
  now rewrite (assign_pars_run _ _ _ H).
Qed.

Lemma update_pars_copy_run (r : ref) (data : SlugData) (s : State)
    (p p' : Pars.t) :
  Controller.copy_pars (controller s) = true ->
  heap s !! r = Some p ->
  em_step (controller s) data p = Ok p' ->
  update_pars r data s
  = (Ok (length (heap s)), mkState (heap s ++ [p']) (controller s)).
Proof.
  intros Hc Hp E. rewrite (update_pars_run _ _ _ _ Hp). cbv zeta.
  rewrite Hc. unfold em_step in E.
  destruct (update_pars_body (controller s) data p) as [[[]|e] q];
    [|discriminate E].
  injection E as ->. reflexivity.
Qed.

(** one step of a run: [(m ≫= k) s] when [m s] returns *)
Lemma bind_run {S A B} (m : ST S A) (k : A -> ST S B) (s s1 : S) (a : A) :
  m s = (Ok a, s1) -> (m ≫= k) s = k a s1.
Proof. intros H. unfold mbind, ST_bind. now rewrite H. Qed.

Lemma bind_lift_Ok {A B} (a : A) (k : A -> M B) (s : State) :
  ((lift (Ok a) : M A) ≫= k) s = k a s.
Proof. reflexivity. Qed.

(** With [copy_pars] set, a pass of the loop from an object of value [p]
    returns whenever [squarem_pass] does on [p], with that outcome. *)
Lemma squarem_iter_copy_run (data : SlugData) (min_step max_step : npfloat)
    (pars : ref) (s : State) (p : Pars.t) (out : outcome)
    (created : list Pars.t) :
  Controller.copy_pars (controller s) = true ->
  heap s !! pars = Some p ->
  squarem_pass (controller s) data min_step (length (heap s)) p max_step
  = Ok (out, created) ->
  squarem_iter data min_step pars max_step s
  = (Ok out, mkState (heap s ++ created) (controller s)).
Proof.
  intros Hc Hp H. unfold squarem_pass in H. unfold squarem_iter.
  set (h := heap s) in *. set (O := controller s) in *.
  assert (Hlt : (pars < length h)%nat) by (eapply lookup_lt_Some; eauto).
  rewrite (bind_run get_controller _ s s O eq_refl).
  destruct (em_step O data p) as [p1|] eqn:E1; [|discriminate H].
  cbn [mbind result_bind] in H.
  rewrite (bind_run _ _ _ _ _ (update_pars_copy_run _ _ _ _ _ Hc Hp E1)).
  fold h O.
  rewrite (bind_run _ _ _ _ _
             (load_run _ (mkState (h ++ [p1]) O) p1 (lookup_app_end h [p1]))).
  rewrite (bind_run _ _ _ _ p
             (load_run _ (mkState (h ++ [p1]) O) p
                (eq_trans (lookup_app_l h [p1] pars Hlt) Hp))).
  destruct (vec_sub (Pars.pars p1) (Pars.pars p)) as [Δp1|] eqn:V1;
    [|discriminate H].
  cbn [mbind result_bind] in H.
  rewrite bind_lift_Ok.
  destruct (_ || _) in H |- *.
  { injection H as <- <-. reflexivity. }
  destruct (em_step O data p1) as [p2|] eqn:E2; [|discriminate H].
  cbn [mbind result_bind] in H.
  rewrite (bind_run _ _ _ _ _
             (update_pars_copy_run _ _ (mkState (h ++ [p1]) O) p1 p2 Hc
                (lookup_app_end h [p1]) E2)).
  cbn [heap controller]. rewrite length_app. cbn [length].
  rewrite <- app_assoc. cbn [app].
  rewrite (bind_run _ _ _ _ _
             (load_run _ (mkState (h ++ [p1; p2]) O) p2
                (lookup_app_plus h [p1; p2] 1))).
  rewrite (bind_run _ _ _ _ _
             (load_run _ (mkState (h ++ [p1; p2]) O) p1
                (lookup_app_end h [p1; p2]))).
  destruct (vec_sub (Pars.pars p2) (Pars.pars p1)) as [Δp2|] eqn:V2;
    [|discriminate H].
  cbn [mbind result_bind] in H.
  rewrite bind_lift_Ok.
  destruct (_ || _) in H |- *.
  { injection H as <- <-. reflexivity. }
  destruct (vec_sub Δp2 Δp1) as [Δp3|] eqn:V3; [|discriminate H].
  cbn [mbind result_bind] in H. cbv zeta in H.
  rewrite bind_lift_Ok. cbv zeta.
  set (step_size := NP.clip (norm Δp1 / norm Δp3) min_step max_step) in *.
  destruct (candidate p Δp1 Δp3 step_size) as [v|] eqn:Ev; [|discriminate H].
  cbn [mbind result_bind] in H.
  destruct (Pars.set_pars v p2) as [q0|] eqn:Eq0; [|discriminate H].
  cbn [mbind result_bind] in H.
  destruct (Pars.set_pars _ q0) as [q|] eqn:Eq; [|discriminate H].
  cbn [mbind result_bind] in H.
  destruct (em_step O data q) as [p_sq|] eqn:E3; [|discriminate H].
  cbn [mbind result_bind] in H. injection H as <- <-.
  unfold squarem_extrapolate.
  rewrite (bind_run _ _ _ _ _
             (deepcopy_run _ (mkState (h ++ [p1; p2]) O) p2
                (lookup_app_plus h [p1; p2] 1))).
  cbn [heap controller]. rewrite length_app. cbn [length].
  rewrite <- app_assoc. cbn [app].
  rewrite (bind_run _ _ _ _ _
             (load_run _ (mkState (h ++ [p1; p2; p2]) O) p
                (eq_trans (lookup_app_l h _ pars Hlt) Hp))).
  rewrite Ev, bind_lift_Ok.
  rewrite (bind_run _ _ _ _ _
             (on_object_assign_run _ (fun _ => v)
                (mkState (h ++ [p1; p2; p2]) O) p2 q0
                (lookup_app_plus h [p1; p2; p2] 2) Eq0)).
  cbn [heap controller].
  rewrite (insert_app_r h [p1; p2; p2] 2). cbn [insert list_insert].
  rewrite (bind_run _ _ _ _ _
             (on_object_assign_run _ (fun p_sq => stabilize (Pars.pars p_sq))
                (mkState (h ++ [p1; p2; q0]) O) q0 q
                (lookup_app_plus h [p1; p2; q0] 2) Eq)).
  cbn [heap controller].
  rewrite (insert_app_r h [p1; p2; q0] 2). cbn [insert list_insert].
  rewrite (bind_run _ _ _ _ _
             (update_pars_copy_run _ _ (mkState (h ++ [p1; p2; q]) O) q p_sq
                Hc (lookup_app_plus h [p1; p2; q] 2) E3)).
  cbn [heap controller]. rewrite length_app. cbn [length].
  rewrite <- app_assoc. cbn [app].
  unfold squarem_accept.
  rewrite (bind_run _ _ _ _ _
             (load_run _ (mkState (h ++ [p1; p2; q; p_sq]) O) p_sq
                (lookup_app_plus h [p1; p2; q; p_sq] 3))).
  rewrite (bind_run _ _ _ _ _
             (load_run _ (mkState (h ++ [p1; p2; q; p_sq]) O) p2
                (lookup_app_plus h [p1; p2; q; p_sq] 1))).
  reflexivity.
Qed.

End SquaremRun.

Lemma maximum_ge_l (a b : npfloat) :
  NP.isnan a = false -> NP.isnan b = false ->
  (a <=? NP.maximum a b)%np = true.
Proof.
  intros Ha Hb. unfold NP.maximum. rewrite Ha, Hb.
  destruct (a <? b)%np eqn:E.
  - unfold NP.leb. now rewrite E.
  - now apply leb_refl.
Qed.


Section AcceptanceRule.

Context {numeric : Numeric} {emissions : Emissions}.

Local Open Scope np_scope.

(** C3 (amended).  In every outer iteration of [squarem] that goes on to
    the next, with [p2] the second EM iterate and [p_sq] the evaluated
    candidate: if [p_sq.ll <= p2.ll] the extrapolation is rejected and the
    iteration continues from [pars2], and if the step size had reached the
    maximum bound, the bound becomes the larger of the configured
    [squarem_max] and the bound divided by [squarem_mstep], so it is never
    below the configured maximum [squarem_max] (the floor is not the
    configured minimum); otherwise [pars_sq] is accepted and, when the step
    size equals the maximum bound, the bound is multiplied by
    [squarem_mstep].  In the other cases the bound stays. *)
Theorem squarem_acceptance_rule (data : SlugData) (min_step max_step : npfloat)
    (pars : ref) (s : State) (pars' : ref) (max_step' : npfloat) (s' : State) :
  Controller.copy_pars (controller s) = true ->
  squarem_iter data min_step pars max_step s
  = (Ok (Next pars' max_step'), s') ->
  let O := controller s in
  let pars2 := (length (heap s) + 1)%nat in
  let pars_sq := (length (heap s) + 3)%nat in
  exists (p : Pars.t) (d : pass_data),
    heap s !! pars = Some p
    /\ pass_computes O data min_step max_step p d
    /\ heap s' !! pars2 = Some (pd_p2 d)
    /\ heap s' !! pars_sq = Some (pd_p_sq d)
    /\ let step_size := pd_step_size d min_step max_step in
       ((Pars.ll (pd_p_sq d) <=? Pars.ll (pd_p2 d)) = true
        /\ pars' = pars2
        /\ max_step'
           = (if step_size >=? max_step
              then NP.maximum (Controller.squarem_max O)
                     (max_step / Controller.squarem_mstep O)
              else max_step)
        /\ ((step_size >=? max_step) = true ->
            NP.isnan (Controller.squarem_max O) = false ->
            NP.isnan (max_step / Controller.squarem_mstep O) = false ->
            (Controller.squarem_max O <=? max_step') = true))
       \/
       ((Pars.ll (pd_p_sq d) <=? Pars.ll (pd_p2 d)) = false
        /\ pars' = pars_sq
        /\ max_step'
           = (if step_size =? max_step
              then max_step * Controller.squarem_mstep O
              else max_step)).
Proof.
  intros Hc H O pars2 pars_sq.
  destruct (squarem_iter_copy _ _ _ _ _ _ _ Hc H)
    as (p & created & Hp & Hpass & ->).
  destruct (squarem_pass_Next_inv _ _ _ _ _ _ _ _ _ Hpass)
    as (d & Hd & -> & Hout).
  exists p, d. split; [exact Hp|]. split; [exact Hd|]. cbn [heap].
  unfold pars2, pars_sq.
  split; [now rewrite lookup_app_plus|].
  split; [now rewrite lookup_app_plus|].
  cbv zeta. unfold accept_rule in Hout. fold O in Hout.
  destruct (Pars.ll (pd_p_sq d) <=? Pars.ll (pd_p2 d)); injection Hout as -> ->.
  - left. repeat split; try reflexivity.
    intros Hs Hn1 Hn2. rewrite Hs. now apply maximum_ge_l.
  - right. repeat split; reflexivity.
Qed.

End AcceptanceRule.

(** C3 (the claim as stated fails): the candidate is rejected with the step
    size at the maximum bound [2], the configured minimum is [1/2] and
    [squarem_mstep] is [2]; the bound divided by [squarem_mstep] is [1],
    which is not below the configured minimum, yet the bound stays [2],
    the configured maximum. *)
Lemma shrink_is_floored_at_squarem_max :
  let c := Stub.ctl true 1 (Fin 0) (Fin (1 # 2)) (Fin 2) (Fin 2) in
  let run :=
    @squarem_iter Stub.numeric (Stub.emissions Stub.halfway Stub.peak)
      Stub.data (Fin (1 # 2)) 0%nat (Fin 2) (Stub.store (Fin (-9 # 16)) c) in
  run.1 = Ok (Next 2%nat (Fin 2))
  /\ map Stub.c0 (heap run.2)
     = [Fin 0; Fin (1 # 2); Fin (3 # 4); Fin 1; Fin 1]
  /\ map Pars.ll (heap run.2)
     = [Fin (-9 # 16); Fin (-1 # 16); Fin 0; Fin 0; Fin (-1 # 16)]
  /\ NP.clip (@norm Stub.numeric [Fin 0; Fin 0; Fin (1 # 2); Fin 0; Fin 0]
              / @norm Stub.numeric [Fin 0; Fin 0; Fin (-1 # 4); Fin 0; Fin 0])%np
       (Fin (1 # 2)) (Fin 2) = Fin 2
  /\ (Fin 2 / Fin 2)%np = Fin 1
  /\ NP.maximum (Fin (1 # 2)) (Fin 2 / Fin 2)%np = Fin 1.
Proof.
  intros c run.
  repeat match goal with |- _ /\ _ => split end; vm_compute; reflexivity.
Qed.

Lemma squarem_acceptance_rule_witness :
  let c := Stub.ctl true 1 (Fin 0) (Fin (1 # 2)) (Fin 2) (Fin 2) in
  let s := Stub.store (Fin (-9 # 16)) c in
  let run :=
    @squarem_iter Stub.numeric (Stub.emissions Stub.halfway Stub.peak)
      Stub.data (Fin (1 # 2)) 0%nat (Fin 2) s in
  exists d : pass_data,
    heap run.2 !! 2%nat = Some (pd_p2 d)
    /\ heap run.2 !! 4%nat = Some (pd_p_sq d)
    /\ (Pars.ll (pd_p_sq d) <=? Pars.ll (pd_p2 d))%np = true.
Proof.
  intros c s run.
  assert (E : run = (Ok (Next 2%nat (Fin 2)), run.2)) by (vm_compute; reflexivity).
  destruct (@squarem_acceptance_rule Stub.numeric
              (Stub.emissions Stub.halfway Stub.peak)
              Stub.data (Fin (1 # 2)) (Fin 2) 0%nat s 2%nat (Fin 2) run.2
              eq_refl E)
    as (p & d & _ & _ & H2 & H4 & Hrule).
  exists d. split; [exact H2|]. split; [exact H4|].
  destruct Hrule as [(Hle & _)|(_ & Hne & _)]; [exact Hle | discriminate Hne].
Defined.

(* ===================================================================== *)
(** ** A pass whose second difference is the zero vector *)
(* ===================================================================== *)

Lemma square_of_zero (v : npfloat) : is_zero v -> (v * v)%np = NP.zero.
Proof.
  unfold is_zero. destruct v as [q| | |]; try discriminate.
  cbn [NP.eqb NP.zero]. intros H. apply Qeq_bool_iff in H.
  cbn [NP.mul]. unfold NP.zero. f_equal.
  rewrite (Qred_complete (q * q) 0); [reflexivity|].
  rewrite H. reflexivity.
Qed.

Lemma nansum_squares_zero (v : array) :
  Forall is_zero v -> NP.nansum (map (fun c => c * c)%np v) = NP.zero.
Proof.
  intros H. unfold NP.nansum, NP.sum.
  induction H as [|c v Hc _ IH]; [reflexivity|].
  cbn [map]. rewrite (square_of_zero _ Hc). rewrite filter_cons.
  destruct (decide (NP.isnan NP.zero = false)) as [_|N]; [|now elim N].
  cbn [fold_left]. exact IH.
Qed.



Section ZeroDelta.

Context {numeric : Numeric} {emissions : Emissions}.

Local Open Scope np_scope.


End ZeroDelta.



(* ===================================================================== *)
(** ** Plain EM and the [copy_pars] flag *)
(* ===================================================================== *)

Section PlainEM.

Context {numeric : Numeric} {emissions : Emissions}.

Local Open Scope np_scope.

(** With [copy_pars] set, the loop of [em] updates copies that it drops:
    when it returns, the object behind [pars] is as it was. *)
Lemma em_loop_copy (n : nat) (pars : ref) (data : SlugData) (s s' : State) :
  Controller.copy_pars (controller s) = true ->
  em_loop n pars data s = (Ok tt, s') ->
  heap s' !! pars = heap s !! pars /\ controller s' = controller s.
Proof.
  revert s. induction n as [|n IH]; intros s Hc H; cbn [em_loop] in H.
  - injection H as <-. auto.
  - bind_inv H r s1 Hu.
    destruct (update_pars_copy_inv _ _ _ _ _ Hc Hu) as (p & p' & Hp & _ & _ & ->).
    assert (Hlt : (pars < length (heap s))%nat) by (eapply lookup_lt_Some; eauto).
    bind_inv H x s1 Hl. apply load_Ok_inv in Hl as [_ ->].
    bind_inv H O s1 HO. injection HO as <- <-.
    assert (Hsame : heap (mkState (heap s ++ [p']) (controller s)) !! pars
                    = heap s !! pars).
    { cbn [heap]. now apply lookup_app_l. }
    destruct (_ <? _) in H.
    + injection H as <-. auto.
    + apply IH in H; [|exact Hc]. destruct H as [H1 H2].
      rewrite H1, H2. auto.
Qed.

Lemma em_copy_returns_input (pars r : ref) (data : SlugData) (s s' : State) :
  Controller.copy_pars (controller s) = true ->
  em pars data s = (Ok r, s') ->
  r = pars /\ heap s' !! pars = heap s !! pars.
Proof.
  intros Hc H. unfold em in H.
  bind_inv H O s1 HO. injection HO as <- <-.
  bind_inv H u s1 Hl. destruct u.
  injection H as <- <-. split; [reflexivity|].
  exact (proj1 (em_loop_copy _ _ _ _ _ Hc Hl)).
Qed.

End PlainEM.

(** C9 (the code departs from the claim).  Three iterations of [em] on the
    same data and parameters, with the rate moving half way to [1] per EM
    step: with [copy_pars = False] the returned parameters have the rate
    [7/8]; with [copy_pars = True] the update runs on copies that [em]
    drops, and the returned parameters are the initial ones, rate [0]. *)
Theorem em_copy_pars_drops_updates :
  let run (copy : bool) :=
    @em Stub.numeric (Stub.emissions Stub.halfway Stub.rising) 0%nat Stub.data
      (Stub.store (Fin 0)
         (Stub.ctl copy 3 (Fin 0) (Fin 1) (Fin 1) (Fin 2))) in
  Stub.final (run false) = Some (Fin (7 # 8), Fin (7 # 8))
  /\ Stub.final (run true) = Some (Fin 0, Fin 0)
  /\ (run true).1 = Ok 0%nat
  /\ heap (run true).2 !! 0%nat = Some (Stub.pars0 (Fin 0))
  /\ length (heap (run true).2) = 4%nat.
Proof.
  intros run.
  repeat match goal with |- _ /\ _ => split end; vm_compute; reflexivity.
Qed.

(* ===================================================================== *)
(** ** The vector norm and the stabilization step *)
(* ===================================================================== *)

Lemma leb_ltb_false (a b : npfloat) :
  (a <=? b)%np = true -> (b <? a)%np = false.
Proof.
  destruct a as [x| | |], b as [y| | |]; try reflexivity; try discriminate.
  intros H. apply leb_Fin_iff in H.
  destruct (Fin y <? Fin x)%np eqn:E; [|reflexivity].
  apply (val_ltb _ _ y x (val_Fin y) (val_Fin x)) in E. lra.
Qed.

Lemma ltb_false_leb (a b : npfloat) :
  NP.isnan a = false -> NP.isnan b = false ->
  (a <? b)%np = false -> (b <=? a)%np = true.
Proof.
  destruct a as [x| | |], b as [y| | |]; try reflexivity; try discriminate.
  intros _ _ H. apply leb_Fin_iff.
  destruct (Qlt_le_dec x y) as [Hlt|Hle]; [|exact Hle].
  apply (val_ltb _ _ x y (val_Fin x) (val_Fin y)) in Hlt. congruence.
Qed.

Lemma stabilized_in_bounds (c : npfloat) :
  (NP.zero <=? c)%np = true -> (c <=? NP.one)%np = true -> stabilized c = c.
Proof.
  intros H0 H1. unfold stabilized, NP.gtb.
  now rewrite (leb_ltb_false _ _ H0), (leb_ltb_false _ _ H1).
Qed.

Lemma stabilized_bounds (c : npfloat) : nan_or_in01 (stabilized c).
Proof.
  unfold stabilized, nan_or_in01.
  destruct (c <? NP.zero)%np eqn:E0.
  { right. split; vm_compute; reflexivity. }
  destruct (c >? NP.one)%np eqn:E1.
  { right. split; vm_compute; reflexivity. }
  destruct (NP.isnan c) eqn:En; [now left|right].
  split.
  - now apply ltb_false_leb.
  - unfold NP.gtb in E1. now apply ltb_false_leb.
Qed.

Lemma stabilize_map (v : array) : stabilize v = map stabilized v.
Proof.
  unfold stabilize.
  destruct (forallb _ v && forallb _ v) eqn:E.
  - apply andb_true_iff in E as [E0 E1].
    rewrite forallb_forall in E0, E1.
    induction v as [|c v IH]; [reflexivity|]. cbn [map].
    rewrite stabilized_in_bounds by (first [apply E0 | apply E1]; now left).
    f_equal. apply IH; intros x Hx; [apply E0 | apply E1]; now right.
  - rewrite map_map. apply map_ext. intros c. unfold stabilized.
    destruct (c <? NP.zero)%np; reflexivity.
Qed.

(** X10. The stabilization step of [squarem] works entry by entry: an entry
    below [0] becomes [EPS], an entry above [1] becomes [1 - EPS], and every
    other entry stays, a [nan] entry included; the vector keeps its length,
    and afterwards every entry is [nan] or inside [[0, 1]]. *)
Theorem stabilize_entries (v : array) :
  stabilize v = map stabilized v
  /\ length (stabilize v) = length v
  /\ Forall nan_or_in01 (stabilize v).
Proof.
  rewrite stabilize_map. split; [reflexivity|]. split; [apply length_map|].
  induction v as [|c v IH]; cbn [map]; constructor; auto.
  apply stabilized_bounds.
Qed.

Section NormFacts.

Context {numeric : Numeric}.

Lemma isnan_square (c : npfloat) : NP.isnan (c * c)%np = NP.isnan c.
Proof. destruct c; reflexivity. Qed.

Lemma filter_squares (v : array) :
  filter (fun c => NP.isnan c = false) (map (fun c => c * c)%np v)
  = map (fun c => c * c)%np (filter (fun c => NP.isnan c = false) v).
Proof.
  induction v as [|c v IH]; [reflexivity|]. cbn [map].
  rewrite !filter_cons.
  destruct (decide (NP.isnan (c * c)%np = false)) as [H|H];
    destruct (decide (NP.isnan c = false)) as [H'|H'];
    rewrite isnan_square in H; try contradiction; cbn [map]; now rewrite IH.
Qed.

Lemma filter_filter_same {A} (P : A -> Prop) `{forall x, Decision (P x)}
    (l : list A) :
  filter P (filter P l) = filter P l.
Proof.
  induction l as [|x l IH]; [reflexivity|]. rewrite filter_cons.
  destruct (decide (P x)) as [H1|H1]; [|exact IH].
  rewrite filter_cons. destruct (decide (P x)); [|contradiction].
  now rewrite IH.
Qed.

Lemma filter_nan_or_zero (v : array) :
  Forall nan_or_zero v ->
  Forall is_zero (filter (fun c => NP.isnan c = false) v).
Proof.
  intros H. induction H as [|c v Hc _ IH]; [constructor|].
  rewrite filter_cons. destruct (decide (NP.isnan c = false)) as [Hn|_];
    [|exact IH].
  constructor; [|exact IH]. destruct Hc as [Hc|Hc]; [congruence | exact Hc].
Qed.

(** X1. [norm] leaves the [nan] entries of its argument out: it is the norm
    of the entries that are not [nan].  So a vector of differences in which
    every entry is [nan] or zero has the norm of the zero vector, and counts
    as no change in the stopping checks of [squarem]. *)
Theorem norm_ignores_nan (v : array) :
  norm v = norm (filter (fun c => NP.isnan c = false) v)
  /\ (Forall nan_or_zero v -> norm v = np_sqrt NP.zero).
Proof.
  assert (H : norm v = norm (filter (fun c => NP.isnan c = false) v)).
  { unfold norm, NP.nansum. f_equal. f_equal.
    rewrite !filter_squares. now rewrite filter_filter_same. }
  split; [exact H|].
  intros Hz. rewrite H. unfold norm.
  now rewrite nansum_squares_zero by (now apply filter_nan_or_zero).
Qed.

End NormFacts.

Lemma norm_ignores_nan_witness :
  @norm Stub.numeric [NaN; Fin 0; NaN] = @norm Stub.numeric [Fin 0]
  /\ @norm Stub.numeric [NaN; Fin 0; NaN] = Fin 0.
Proof.
  destruct (@norm_ignores_nan Stub.numeric [NaN; Fin 0; NaN]) as [H1 H2].
  split; [exact H1|].
  rewrite H2; [reflexivity|].
  repeat (constructor; [first [left; reflexivity | right; reflexivity]|]).
  constructor.
Defined.

(* ===================================================================== *)
(** ** The entries of [F] in the closed-form SFS update *)
(* ===================================================================== *)

Lemma index_denotes (n : nat) (h : Z) :
  valid_index n h ->
  exists j, Arr.index n h = Ok j /\ (j < n)%nat
            /\ forall i, (i < n)%nat -> denotes n h i = bool_decide (i = j).
Proof.
  unfold valid_index, Arr.index, denotes. intros [Hl Hu].
  destruct (0 <=? h)%Z eqn:E0.
  - assert ((h <? Z.of_nat n)%Z = true) as -> by lia. cbn [andb].
    exists (Z.to_nat h). split; [reflexivity|]. split; [lia|].
    intros i Hi. case_bool_decide; [|]; lia.
  - cbn [andb]. assert ((- Z.of_nat n <=? h)%Z = true) as -> by lia.
    assert ((h <? 0)%Z = true) as -> by lia. cbn [andb].
    exists (Z.to_nat (h + Z.of_nat n)). split; [reflexivity|]. split; [lia|].
    intros i Hi. case_bool_decide; lia.
Qed.

(** [mask[idx] = False]: the entries of the mask at the positions that [idx]
    denotes are cleared, the others stay. *)
Lemma clear_at_spec (idx : list Z) (mask : list bool) :
  Forall (valid_index (length mask)) idx ->
  Arr.clear_at mask idx
  = Ok (imap (fun i b => b && negb (existsb (fun h => denotes (length mask) h i) idx))
          mask).
Proof.
  unfold Arr.clear_at.
  generalize (eq_refl (length mask)).
  generalize (length mask) at 1 3 4 5 as n.
  intros n Hn H. revert mask Hn.
  induction H as [|h idx Hh _ IH]; intros mask Hn; cbn [for_each].
  - f_equal. apply list_eq. intros i. rewrite list_lookup_imap.
    destruct (mask !! i) as [b|]; [|reflexivity].
    cbn. now rewrite andb_true_r.
  - destruct (index_denotes n h Hh) as (j & -> & Hj & Hd).
    cbn [mbind result_bind].
    rewrite IH by (now rewrite length_insert).
    f_equal. apply list_eq. intros i. rewrite !list_lookup_imap.
    destruct (decide (i = j)) as [->|Hne].
    + rewrite list_lookup_insert_eq by lia.
      destruct (mask !! j) as [b|] eqn:Eb.
      * cbn. rewrite (Hd j Hj). rewrite bool_decide_eq_true_2 by reflexivity.
        cbn. now rewrite andb_false_r.
      * apply lookup_ge_None in Eb. lia.
    + rewrite list_lookup_insert_ne by congruence.
      destruct (mask !! i) as [b|] eqn:Eb; [|reflexivity].
      cbn. apply lookup_lt_Some in Eb.
      rewrite (Hd i) by lia. rewrite bool_decide_eq_false_2 by exact Hne.
      reflexivity.
Qed.

Lemma eq_mask_imap (a : list Z) (k : Z) (g : nat -> bool) :
  imap (fun i b => b && g i) (Arr.eq_mask a k)
  = imap (fun i z => Z.eqb k z && g i) a.
Proof.
  unfold Arr.eq_mask. apply list_eq. intros i. rewrite !list_lookup_imap.
  change (map (Z.eqb k) a) with (Z.eqb k <$> a).
  rewrite list_lookup_fmap. now destruct (a !! i).
Qed.

Lemma diploid_mask_no_haploid (data : SlugData) (k : nat) :
  haploid_snps data = None ->
  diploid_mask data k = Arr.eq_mask (SNP2SFS data) (Z.of_nat k).
Proof.
  intros Hn. unfold diploid_mask, is_haploid, Arr.eq_mask. rewrite Hn.
  apply list_eq. intros i. rewrite list_lookup_imap.
  change (map (Z.eqb (Z.of_nat k)) (SNP2SFS data))
    with (Z.eqb (Z.of_nat k) <$> SNP2SFS data).
  rewrite list_lookup_fmap. destruct (SNP2SFS data !! i); [|reflexivity].
  cbn. now rewrite andb_true_r.
Qed.

Lemma length_diploid_mask (data : SlugData) (k : nat) :
  length (diploid_mask data k) = length (SNP2SFS data).
Proof. unfold diploid_mask. apply length_imap. Qed.

(** the totals that [update_ftau] uses for [F[k]] *)
Lemma F_totals_spec (data : SlugData) (post_g : list row3) (k : nat) :
  length (SNP2SFS data) = length post_g ->
  haploid_ok data ->
  F_totals data post_g k (totals data post_g k) = Ok (F_basis data post_g k).
Proof.
  intros Hlen Hhap. unfold F_totals, F_basis.
  destruct (haploid_snps data) as [hs|] eqn:Eh.
  - unfold haploid_ok in Hhap. rewrite Eh in Hhap.
    rewrite clear_at_spec by (now rewrite length_eq_mask).
    cbn [mbind result_bind]. rewrite length_eq_mask, eq_mask_imap.
    assert (Hm : imap (fun i z => Z.eqb (Z.of_nat k) z
                   && negb (existsb (fun h => denotes (length (SNP2SFS data)) h i) hs))
                   (SNP2SFS data)
                 = diploid_mask data k).
    { unfold diploid_mask, is_haploid. now rewrite Eh. }
    rewrite Hm. destruct (Arr.all_false (diploid_mask data k)); [reflexivity|].
    rewrite select_ok by (rewrite length_diploid_mask; exact Hlen).
    reflexivity.
  - rewrite (diploid_mask_no_haploid _ _ Eh).
    now destruct (Arr.all_false _).
Qed.

Lemma clip01_idem (v : npfloat) : clip01 (clip01 v) = clip01 v.
Proof.
  destruct v as [q| | |]; try reflexivity.
  unfold clip01, NP.clip, NP.maximum, NP.minimum, NP.zero, NP.one.
  cbn [NP.isnan].
  destruct (Fin q <? Fin 0)%np eqn:E0; cbn [NP.isnan].
  - reflexivity.
  - destruct (Fin 1 <? Fin q)%np eqn:E1; cbn [NP.isnan].
    + reflexivity.
    + now rewrite E0, E1.
Qed.

Section UpdateFtauF.

Variables (data : SlugData) (post_g : list row3) (update_F : bool).
Hypothesis Hlen : length (SNP2SFS data) = length post_g.
Hypothesis Hhap : update_F = true -> haploid_ok data.

Lemma update_ftau_body_spec (k : nat) (tau F : array) :
  update_ftau_body data post_g update_F k (tau, F)
  = Ok (<[k := tau_update (totals data post_g k)]> tau,
        map clip01 (if update_F
                    then <[k := F_update (F_basis data post_g k)]> F
                    else F)).
Proof using Hlen Hhap.
  unfold update_ftau_body.
  rewrite select_ok by (rewrite length_eq_mask; exact Hlen).
  cbn [mbind result_bind].
  fold (rows_of_category data post_g k). fold (totals data post_g k).
  destruct update_F; [|reflexivity].
  rewrite (F_totals_spec _ _ _ Hlen (Hhap eq_refl)). reflexivity.
Qed.

Lemma update_ftau_loop_F_entries (n a : nat) (tau F : array) :
  exists tau' F',
    for_each (seq a n) (update_ftau_body data post_g update_F) (tau, F)
    = Ok (tau', F')
    /\ length F' = length F
    /\ forall k v, F !! k = Some v -> F' !! k = Some (F_after data post_g update_F a n k v).
Proof using Hlen Hhap.
  revert a tau F. induction n as [|n IH]; intros a tau F; cbn [seq for_each].
  - exists tau, F. split; [reflexivity|]. split; [reflexivity|].
    intros k v Hk. unfold F_after.
    assert ((k <? a + 0)%nat && (a <=? k)%nat = false) as E.
    { destruct (k <? a + 0)%nat eqn:E1; [|reflexivity].
      apply Nat.ltb_lt in E1. cbn. apply Nat.leb_gt. lia. }
    rewrite <- andb_assoc, (andb_comm (a <=? k)%nat), E, andb_false_r.
    exact Hk.
  - rewrite update_ftau_body_spec. cbn [mbind result_bind].
    set (F1 := map clip01 _).
    destruct (IH (S a) (<[a := tau_update (totals data post_g a)]> tau) F1)
      as (tau' & F' & -> & HlF & Hent).
    exists tau', F'. split; [reflexivity|].
    assert (Hl1 : length F1 = length F).
    { unfold F1. rewrite length_map. destruct update_F; [|reflexivity].
      apply length_insert. }
    split; [congruence|].
    intros k v Hk.
    assert (H1 : F1 !! k
                 = Some (clip01 (if update_F && (k =? a)%nat
                                 then F_update (F_basis data post_g k) else v))).
    { unfold F1. change (map clip01 ?l) with (clip01 <$> l).
      rewrite list_lookup_fmap.
      destruct update_F; cbn [andb].
      - destruct (k =? a)%nat eqn:Ek.
        + apply Nat.eqb_eq in Ek. subst k.
          rewrite list_lookup_insert_eq by (eapply lookup_lt_Some; eauto).
          reflexivity.
        + apply Nat.eqb_neq in Ek.
          rewrite list_lookup_insert_ne by congruence. now rewrite Hk.
      - now rewrite Hk. }
    rewrite (Hent _ _ H1). f_equal. unfold F_after.
    destruct update_F; cbn [andb].
    + destruct (k =? a)%nat eqn:Ek.
      * apply Nat.eqb_eq in Ek. subst k.
        assert ((S a <=? a)%nat = false) as -> by (apply Nat.leb_gt; lia).
        assert ((a <=? a)%nat = true) as -> by (apply Nat.leb_le; lia).
        assert ((a <? a + S n)%nat = true) as -> by (apply Nat.ltb_lt; lia).
        cbn [andb]. destruct (n =? 0)%nat; [reflexivity | apply clip01_idem].
      * apply Nat.eqb_neq in Ek.
        destruct (S a <=? k)%nat eqn:E1.
        -- apply Nat.leb_le in E1.
           assert ((a <=? k)%nat = true) as -> by (apply Nat.leb_le; lia).
           replace (S a + n)%nat with (a + S n)%nat by lia.
           cbn [andb]. destruct (k <? a + S n)%nat; [reflexivity|].
           destruct (n =? 0)%nat; [reflexivity | apply clip01_idem].
        -- apply Nat.leb_gt in E1.
           assert ((a <=? k)%nat = false) as -> by (apply Nat.leb_gt; lia).
           cbn [andb]. destruct (n =? 0)%nat; [reflexivity | apply clip01_idem].
    + destruct (n =? 0)%nat; [reflexivity | apply clip01_idem].
Qed.

End UpdateFtauF.

(** X4. With [update_F] set, the closed-form [update_ftau] returns, for
    every SFS category [k], [F[k]] as the formula
    [2*G0/(2*G0 + G1 + 1e-300) - G1/(2*G2 + G1 + 1e-300)] clipped to
    [[0, 1]], where [(G0, G1, G2)] are the totals of the posterior genotype
    probabilities over the SNPs of category [k] that are not in the haploid
    set; when the category has no such SNP, or there is no haploid set, the
    totals over all SNPs of the category are used. *)
Theorem update_ftau_F_entries (old_F old_tau : array) (data : SlugData)
    (post_g : list row3) :
  length (SNP2SFS data) = length post_g ->
  haploid_ok data ->
  length old_tau = n_sfs data ->
  length old_F = n_sfs data ->
  exists F tau : array,
    update_ftau old_F old_tau data post_g true = Ok (F, tau)
    /\ length F = n_sfs data
    /\ forall k, (k < n_sfs data)%nat ->
         F !! k = Some (clip01 (F_update (F_basis data post_g k)))
         /\ (Arr.all_false (diploid_mask data k) = false ->
             F_basis data post_g k
             = Arr.sum_rows (selected post_g (diploid_mask data k)))
         /\ (Arr.all_false (diploid_mask data k) = true
             \/ haploid_snps data = None ->
             F_basis data post_g k = totals data post_g k).
Proof.
  intros Hlen Hhap Htau HF. unfold update_ftau.
  rewrite (assign_all_same _ _ Htau), (assign_all_same _ _ HF).
  cbn [mbind result_bind].
  destruct (update_ftau_loop_F_entries data post_g true Hlen (fun _ => Hhap)
              (n_sfs data) 0 old_tau old_F)
    as (tau' & F' & -> & HlF & Hent).
  cbn [mbind result_bind]. exists F', tau'. split; [reflexivity|].
  split; [congruence|].
  intros k Hk. split; [|split].
  - destruct (lookup_lt_is_Some_2 old_F k ltac:(lia)) as [v Hv].
    rewrite (Hent _ _ Hv). unfold F_after. cbn [andb Nat.leb Nat.add].
    assert ((k <? n_sfs data)%nat = true) as -> by (apply Nat.ltb_lt; lia).
    reflexivity.
  - intros E. unfold F_basis. now rewrite E.
  - intros [E|E]; unfold F_basis.
    + now rewrite E.
    + rewrite (diploid_mask_no_haploid _ _ E).
      now destruct (Arr.all_false _).
Qed.

Lemma update_ftau_F_entries_witness :
  haploid_ok example_data
  /\ exists F tau : array,
       update_ftau [Fin 0; Fin 0; Fin 0] [Fin 0; Fin 0; Fin 0]
         example_data example_post_g true = Ok (F, tau)
       /\ diploid_mask example_data 0 = [true; true; false]
       /\ F !! 0%nat
          = Some (clip01 (F_update (Fin (3 # 4), Fin (3 # 4), Fin (1 # 2))))
       /\ diploid_mask example_data 2 = [false; false; false]
       /\ F !! 2%nat = Some (clip01 (F_update (Fin 0, Fin 0, Fin 1))).
Proof.
  assert (Hh : haploid_ok example_data).
  { repeat constructor; unfold valid_index; simpl; lia. }
  split; [exact Hh|].
  destruct (update_ftau_F_entries [Fin 0; Fin 0; Fin 0] [Fin 0; Fin 0; Fin 0]
              example_data example_post_g eq_refl Hh eq_refl eq_refl)
    as (F & tau & E & _ & H).
  exists F, tau. split; [exact E|].
  split; [reflexivity|]. split; [exact (proj1 (H 0%nat ltac:(simpl; lia)))|].
  split; [reflexivity|]. exact (proj1 (H 2%nat ltac:(simpl; lia))).
Defined.

(** X5. With [update_F] not set, the closed-form [update_ftau] does not
    return [old_F] as it is: [F] is clipped to [[0, 1]] in every pass of the
    loop over the categories, so the [F] returned is [old_F] clipped (and
    [old_F] itself only when there is no category). *)
Theorem update_ftau_without_F (old_F old_tau : array) (data : SlugData)
    (post_g : list row3) :
  length (SNP2SFS data) = length post_g ->
  length old_tau = n_sfs data ->
  length old_F = n_sfs data ->
  exists tau : array,
    update_ftau old_F old_tau data post_g false
    = Ok (if (n_sfs data =? 0)%nat then old_F else map clip01 old_F, tau).
Proof.
  intros Hlen Htau HF. unfold update_ftau.
  rewrite (assign_all_same _ _ Htau), (assign_all_same _ _ HF).
  cbn [mbind result_bind].
  destruct (update_ftau_loop_F_entries data post_g false Hlen
              ltac:(discriminate) (n_sfs data) 0 old_tau old_F)
    as (tau' & F' & -> & HlF & Hent).
  cbn [mbind result_bind]. exists tau'. do 2 f_equal.
  apply list_eq. intros k.
  destruct (old_F !! k) as [v|] eqn:Hv.
  - rewrite (Hent _ _ Hv). unfold F_after. cbn [andb].
    destruct (n_sfs data =? 0)%nat; [now rewrite Hv|].
    change (map clip01 old_F) with (clip01 <$> old_F).
    now rewrite list_lookup_fmap, Hv.
  - assert (F' !! k = None) as ->.
    { apply lookup_ge_None. rewrite HlF. now apply lookup_ge_None. }
    destruct (n_sfs data =? 0)%nat; [now rewrite Hv|].
    change (map clip01 old_F) with (clip01 <$> old_F).
    now rewrite list_lookup_fmap, Hv.
Qed.

Lemma update_ftau_without_F_witness :
  exists tau : array,
    update_ftau [Fin 2; Fin (-1); Fin (1 # 2)] [Fin 0; Fin 0; Fin 0]
      example_data example_post_g false
    = Ok ([Fin 1; Fin 0; Fin (1 # 2)], tau).
Proof.
  destruct (update_ftau_without_F [Fin 2; Fin (-1); Fin (1 # 2)]
              [Fin 0; Fin 0; Fin 0] example_data example_post_g
              eq_refl eq_refl eq_refl) as (tau & E).
  exists tau. exact E.
Defined.

(* ===================================================================== *)
(** ** The numerically optimized SFS update, category by category *)
(* ===================================================================== *)

Lemma select_Ok_inv {A} (a : list A) (mask : list bool) (r : list A) :
  Arr.select a mask = Ok r -> r = selected a mask.
Proof.
  unfold Arr.select. destruct (Nat.eqb _ _); [|discriminate].
  now intros [= <-].
Qed.

Section NumericUpdate.

Context {numeric : Numeric}.

Local Open Scope np_scope.

(** what a pass of the loop of [update_ftau_numeric] computes *)
Lemma update_ftau_numeric_body_inv (data : SlugData) (post_g : list row3)
    (k : nat) (tau F tau' F' : array) :
  update_ftau_numeric_body data post_g k (tau, F) = Ok (tau', F') ->
  exists t f0 prev OO,
    tau !! k = Some t /\ F !! k = Some f0
    /\ f (totals data post_g k) (t, f0) = Ok prev
    /\ minimize (f (totals data post_g k)) (t, f0) bounds = Ok OO
    /\ tau' = <[k := (x OO).1]> tau /\ F' = <[k := (x OO).2]> F.
Proof.
  unfold update_ftau_numeric_body, at_index.
  destruct (Arr.select _ _) as [rows|] eqn:Es; [|discriminate].
  apply select_Ok_inv in Es. subst rows.
  fold (rows_of_category data post_g k). fold (totals data post_g k).
  cbn [mbind result_bind].
  destruct (tau !! k) as [t|] eqn:Et; [|discriminate].
  cbn [mbind result_bind].
  destruct (F !! k) as [f0|] eqn:EF; [|discriminate].
  cbn [mbind result_bind].
  destruct (f _ _) as [prev|] eqn:Ef; [|discriminate].
  cbn [mbind result_bind].
  destruct (minimize _ _ bounds) as [OO|] eqn:EO; [|discriminate].
  cbn [mbind result_bind]. intros [= <- <-].
  exists t, f0, prev, OO. unfold totals. repeat split; assumption.
Qed.

Lemma update_ftau_numeric_loop_inv (data : SlugData) (post_g : list row3)
    (n a : nat) (tau F tau' F' : array) :
  for_each (seq a n) (update_ftau_numeric_body data post_g) (tau, F)
  = Ok (tau', F') ->
  length tau' = length tau /\ length F' = length F
  /\ (forall k, (k < a)%nat -> tau' !! k = tau !! k /\ F' !! k = F !! k)
  /\ (forall k, (a <= k < a + n)%nat ->
      exists t f0 prev OO,
        tau !! k = Some t /\ F !! k = Some f0
        /\ f (totals data post_g k) (t, f0) = Ok prev
        /\ minimize (f (totals data post_g k)) (t, f0) bounds = Ok OO
        /\ tau' !! k = Some (x OO).1 /\ F' !! k = Some (x OO).2).
Proof.
  revert a tau F. induction n as [|n IH]; intros a tau F H;
    cbn [seq for_each] in H.
  - injection H as <- <-. repeat split; auto. intros k Hk. lia.
  - destruct (update_ftau_numeric_body data post_g a (tau, F))
      as [[tau1 F1]|] eqn:Eb; [|discriminate H].
    cbn [mbind result_bind] in H.
    apply update_ftau_numeric_body_inv in Eb
      as (t & f0 & prev & OO & Ht & HF & Ef & EO & -> & ->).
    apply IH in H as (Hl1 & Hl2 & Hlow & Hin).
    rewrite length_insert in Hl1, Hl2.
    split; [exact Hl1|]. split; [exact Hl2|]. split.
    + intros k Hk. destruct (Hlow k ltac:(lia)) as [-> ->].
      rewrite !list_lookup_insert_ne by lia. auto.
    + intros k Hk. destruct (decide (k = a)) as [->|Hne].
      * exists t, f0, prev, OO. repeat split; auto.
        -- destruct (Hlow a ltac:(lia)) as [-> _].
           apply list_lookup_insert_eq. eapply lookup_lt_Some; eauto.
        -- destruct (Hlow a ltac:(lia)) as [_ ->].
           apply list_lookup_insert_eq. eapply lookup_lt_Some; eauto.
      * destruct (Hin k ltac:(lia))
          as (t' & f0' & prev' & OO' & Ht' & HF' & Ef' & EO' & R1 & R2).
        rewrite list_lookup_insert_ne in Ht', HF' by congruence.
        exists t', f0', prev', OO'. repeat split; assumption.
Qed.

Lemma isnan_neg (v : npfloat) : NP.isnan (NP.neg v) = NP.isnan v.
Proof. now destruct v. Qed.

(** a value of the objective is never [nan] *)
Lemma f_Ok_not_nan (G : row3) (args : npfloat * npfloat) (prev : npfloat) :
  f G args = Ok prev -> NP.isnan prev = false.
Proof.
  unfold f. destruct G as [[G0 G1] G2], args as [tau_ F_].
  match goal with
  | |- (if NP.isnan ?v then _ else _) = _ -> _ =>
      generalize v
  end.
  intros w. destruct (NP.isnan w) eqn:En; [discriminate|].
  intros [= <-]. now rewrite isnan_neg.
Qed.

(** what [update_ftau_numeric] returns, category by category *)
Lemma update_ftau_numeric_inv (old_F old_tau : array) (data : SlugData)
    (post_g : list row3) (update_F : bool) (F tau : array) :
  length old_tau = n_sfs data ->
  length old_F = n_sfs data ->
  update_ftau_numeric old_F old_tau data post_g update_F = Ok (F, tau) ->
  update_F = true
  /\ length F = n_sfs data /\ length tau = n_sfs data
  /\ forall k, (k < n_sfs data)%nat ->
       exists t f0 prev OO,
         old_tau !! k = Some t /\ old_F !! k = Some f0
         /\ f (totals data post_g k) (t, f0) = Ok prev
         /\ minimize (f (totals data post_g k)) (t, f0) bounds = Ok OO
         /\ tau !! k = Some (x OO).1 /\ F !! k = Some (x OO).2.
Proof.
  intros Htau HF. unfold update_ftau_numeric.
  destruct update_F; [|discriminate]. cbn [negb].
  rewrite (assign_all_same _ _ Htau), (assign_all_same _ _ HF).
  cbn [mbind result_bind].
  destruct (for_each _ _ _) as [[tau' F']|] eqn:El; [|discriminate].
  cbn [mbind result_bind]. intros [= <- <-].
  apply update_ftau_numeric_loop_inv in El as (Hl1 & Hl2 & _ & Hin).
  split; [reflexivity|]. split; [congruence|]. split; [congruence|].
  intros k Hk. apply Hin. lia.
Qed.

(** X2. A call of [update_ftau_numeric] that returns has [update_F] set,
    and has treated every SFS category [k] on its own: the objective of the
    category, built from the totals of the posterior genotype probabilities
    over its SNPs, has a value at the starting point
    [(old_tau[k], old_F[k])] that is not [nan], the optimizer has returned
    for that objective, starting point and the box
    [[1e-10, 1 - 1e-10]^2], and [tau[k]], [F[k]] are the first and the
    second coordinate of the point it returned, whether or not it reports
    convergence. *)
Theorem update_ftau_numeric_per_category (old_F old_tau : array)
    (data : SlugData) (post_g : list row3) (update_F : bool) (F tau : array) :
  length old_tau = n_sfs data ->
  length old_F = n_sfs data ->
  update_ftau_numeric old_F old_tau data post_g update_F = Ok (F, tau) ->
  update_F = true
  /\ length F = n_sfs data /\ length tau = n_sfs data
  /\ forall k, (k < n_sfs data)%nat ->
       exists (t f0 prev : npfloat) (OO : OptimizeResult),
         old_tau !! k = Some t /\ old_F !! k = Some f0
         /\ f (totals data post_g k) (t, f0) = Ok prev
         /\ NP.isnan prev = false
         /\ minimize (f (totals data post_g k)) (t, f0) bounds = Ok OO
         /\ tau !! k = Some (x OO).1 /\ F !! k = Some (x OO).2.
Proof.
  intros Htau HF H.
  destruct (update_ftau_numeric_inv _ _ _ _ _ _ _ Htau HF H)
    as (Hu & Hl1 & Hl2 & Hk).
  split; [exact Hu|]. split; [exact Hl1|]. split; [exact Hl2|].
  intros k Hlt.
  destruct (Hk k Hlt) as (t & f0 & prev & OO & Ht & Hf0 & Ef & EO & R1 & R2).
  exists t, f0, prev, OO. repeat split; auto.
  exact (f_Ok_not_nan _ _ _ Ef).
Qed.

Lemma mul_zero_r (a t : npfloat) :
  finite a -> is_zero t -> (a * t) = NP.zero.
Proof.
  intros [q ->]. unfold is_zero. destruct t as [y| | |]; try discriminate.
  cbn [NP.eqb NP.zero]. intros H. apply Qeq_bool_iff in H.
  cbn [NP.mul]. unfold NP.zero. f_equal.
  rewrite (Qred_complete (q * y) 0); [reflexivity|]. rewrite H. ring.
Qed.

Lemma mul_zero_l (t a : npfloat) :
  is_zero t -> finite a -> (t * a) = NP.zero.
Proof.
  intros H [q ->]. unfold is_zero in H. destruct t as [y| | |]; try discriminate.
  cbn [NP.eqb NP.zero] in H. apply Qeq_bool_iff in H.
  cbn [NP.mul]. unfold NP.zero. f_equal.
  rewrite (Qred_complete (y * q) 0); [reflexivity|]. rewrite H. ring.
Qed.

Lemma finite_sub (a b : npfloat) : finite a -> finite b -> finite (a - b).
Proof. intros [x ->] [y ->]. eexists. reflexivity. Qed.

Lemma finite_mul (a b : npfloat) : finite a -> finite b -> finite (a * b).
Proof. intros [x ->] [y ->]. eexists. reflexivity. Qed.

Lemma is_zero_finite (t : npfloat) : is_zero t -> finite t.
Proof.
  unfold is_zero. destruct t as [y| | |]; try discriminate. now exists y.
Qed.

Lemma ninf_mul_zero (g : npfloat) : is_zero g -> (NInf * g) = NaN.
Proof.
  unfold is_zero. destruct g as [y| | |]; try discriminate.
  cbn [NP.eqb NP.zero]. intros H. apply Qeq_bool_iff in H.
  cbn [NP.mul NP.sign].
  assert ((Qnum y ?= 0)%Z = Eq) as ->.
  { apply Z.compare_eq_iff. unfold Qeq in H. simpl in H. lia. }
  reflexivity.
Qed.

(** At [tau = 0] the objective of a category without heterozygous mass is
    [nan]. *)
Lemma f_nan_at_tau_zero (G0 G1 G2 t f0 : npfloat) :
  np_log NP.zero = NInf ->
  is_zero t -> finite f0 -> is_zero G1 ->
  f (G0, G1, G2) (t, f0) = Raise ValueError.
Proof.
  intros Hlog Ht Hf HG. unfold f.
  assert (finite NP.one) as H1 by (now exists 1%Q).
  assert (finite NP.two) as H2 by (now exists 2%Q).
  assert (Hc1 : (NP.one - f0) * NP.two * t * (NP.one - t) = NP.zero).
  { rewrite (mul_zero_r _ t); [|auto using finite_mul, finite_sub|exact Ht].
    apply mul_zero_l; [reflexivity|].
    auto using finite_sub, is_zero_finite. }
  rewrite Hc1, Hlog, (ninf_mul_zero _ HG).
  match goal with
  | |- (if NP.isnan (?a + NaN + ?b) then _ else _) = _ =>
      assert (a + NaN + b = NaN) as ->
        by (destruct a; destruct b; reflexivity)
  end.
  reflexivity.
Qed.

(** X3. [update_ftau_numeric] cannot start from [tau[k] = 0] in a category
    [k] whose posterior mass of heterozygotes is zero (an empty category
    is one): with [log 0 = -inf] the objective is [nan] at the starting
    point, which is evaluated before the optimizer is called, and the call
    does not return.  The closed-form [update_ftau] returns exactly
    [tau[k] = 0] for a category without mass. *)
Theorem update_ftau_numeric_rejects_tau_zero (old_F old_tau : array)
    (data : SlugData) (post_g : list row3) (update_F : bool)
    (k : nat) (t f0 : npfloat) :
  np_log NP.zero = NInf ->
  length old_tau = n_sfs data ->
  length old_F = n_sfs data ->
  old_tau !! k = Some t -> is_zero t ->
  old_F !! k = Some f0 -> finite f0 ->
  is_zero (totals data post_g k).1.2 ->
  exists e, update_ftau_numeric old_F old_tau data post_g update_F = Raise e.
Proof.
  intros Hlog Htau HF Ht Ht0 Hf Hf0 HG.
  destruct (update_ftau_numeric old_F old_tau data post_g update_F)
    as [[F tau]|e] eqn:E; [|eauto].
  exfalso.
  destruct (update_ftau_numeric_inv _ _ _ _ _ _ _ Htau HF E)
    as (_ & _ & _ & Hk).
  assert (Hlt : (k < n_sfs data)%nat).
  { rewrite <- Htau. eapply lookup_lt_Some; eauto. }
  destruct (Hk k Hlt) as (t' & f0' & prev & OO & Ht' & Hf' & Ef & _).
  rewrite Ht in Ht'. rewrite Hf in Hf'. injection Ht' as <-. injection Hf' as <-.
  destruct (totals data post_g k) as [[G0 G1] G2]. cbn [fst snd] in HG.
  rewrite (f_nan_at_tau_zero _ _ _ _ _ Hlog Ht0 Hf0 HG) in Ef. discriminate Ef.
Qed.

End NumericUpdate.

Lemma update_ftau_numeric_per_category_witness :
  @update_ftau_numeric Stub.numeric [Fin (1 # 4)] [Fin (1 # 4)] Stub.data
    [(NP.one, NP.zero, NP.zero)] true
  = Ok ([Fin (1 # 2)], [Fin (1 # 2)])
  /\ exists prev : npfloat,
       @f Stub.numeric (totals Stub.data [(NP.one, NP.zero, NP.zero)] 0)
         (Fin (1 # 4), Fin (1 # 4)) = Ok prev
       /\ NP.isnan prev = false.
Proof.
  assert (E : @update_ftau_numeric Stub.numeric [Fin (1 # 4)] [Fin (1 # 4)]
                Stub.data [(NP.one, NP.zero, NP.zero)] true
              = Ok ([Fin (1 # 2)], [Fin (1 # 2)]))
    by (vm_compute; reflexivity).
  split; [exact E|].
  destruct (@update_ftau_numeric_per_category Stub.numeric
              [Fin (1 # 4)] [Fin (1 # 4)] Stub.data
              [(NP.one, NP.zero, NP.zero)] true _ _ eq_refl eq_refl E)
    as (_ & _ & _ & H).
  destruct (H 0%nat ltac:(simpl; lia))
    as (t & f0 & prev & OO & Ht & Hf & Ef & En & _).
  injection Ht as <-. injection Hf as <-.
  exists prev. split; [exact Ef | exact En].
Defined.

Lemma update_ftau_numeric_rejects_tau_zero_witness :
  update_ftau [Fin (1 # 4)] [Fin (1 # 4)] Stub.data
    [(Fin 1, Fin 0, Fin 0)] false
  = Ok ([Fin (1 # 4)], [NP.zero])
  /\ exists e,
       @update_ftau_numeric log_numeric [Fin (1 # 4)] [NP.zero] Stub.data
         [(Fin 1, Fin 0, Fin 0)] true = Raise e.
Proof.
  split; [vm_compute; reflexivity|].
  apply (@update_ftau_numeric_rejects_tau_zero log_numeric
           [Fin (1 # 4)] [NP.zero] Stub.data [(Fin 1, Fin 0, Fin 0)] true
           0%nat NP.zero (Fin (1 # 4)));
    try reflexivity.
  now exists (1 # 4)%Q.
Defined.

(* ===================================================================== *)
(** ** The error and bias update on data without posterior mass *)
(* ===================================================================== *)

Lemma val_zero_num (v : npfloat) (q : Q) :
  val v q -> (q == 0)%Q -> exists x, v = Fin x /\ Qnum x = 0%Z.
Proof.
  intros (x & -> & Hx) Hq. exists x. split; [reflexivity|].
  rewrite Hq in Hx. unfold Qeq in Hx. simpl in Hx. lia.
Qed.

(** the rates of [update_eb] when the four counts are zero *)
Lemma eb_rates_zero_total (e n b m : npfloat) :
  nonneg e -> nonneg n -> nonneg b -> nonneg m ->
  (e + b + n + m =? NP.zero)%np = true ->
  eb_rates true (e, n, b, m) = (NP.zero, NP.zero)
  /\ eb_rates false (e, n, b, m) = (NaN, NaN).
Proof.
  intros (qe & He & Pe) (qn & Hn & Pn) (qb & Hb & Pb) (qm & Hm & Pm) Hz.
  pose proof (val_add _ _ _ _ He Hb) as Heb.
  pose proof (val_add _ _ _ _ (val_add _ _ _ _ Heb Hn) Hm) as Htot.
  assert (Hq : (qe + qb + qn + qm == 0)%Q).
  { destruct Htot as (x & Ex & Hx). rewrite Ex in Hz.
    cbn [NP.eqb NP.zero] in Hz. apply Qeq_bool_iff in Hz.
    rewrite <- Hx. exact Hz. }
  assert (Ze : (qe == 0)%Q) by lra. assert (Zn : (qn == 0)%Q) by lra.
  assert (Zb : (qb == 0)%Q) by lra. assert (Zm : (qm == 0)%Q) by lra.
  cbn [eb_rates]. split.
  - assert (G1 : (e + n >? NP.zero)%np = false).
    { destruct (e + n >? NP.zero)%np eqn:E; [|reflexivity].
      unfold NP.gtb in E.
      apply (val_ltb _ _ _ _ (val_Fin 0) (val_add _ _ _ _ He Hn)) in E. lra. }
    assert (G2 : (b + m >? NP.zero)%np = false).
    { destruct (b + m >? NP.zero)%np eqn:E; [|reflexivity].
      unfold NP.gtb in E.
      apply (val_ltb _ _ _ _ (val_Fin 0) (val_add _ _ _ _ Hb Hm)) in E. lra. }
    now rewrite G1, G2.
  - destruct (val_zero_num _ _ Heb ltac:(lra)) as (x & Ex & Hx).
    destruct (val_zero_num _ _ Htot Hq) as (y & Ey & Hy).
    rewrite Ey, Ex. unfold NP.div.
    assert (Qeq_bool y 0 = true) as ->.
    { apply Qeq_bool_iff. unfold Qeq. simpl. lia. }
    now rewrite Hx.
Qed.

(** X19. On data without any posterior mass (no reads, for one) the two
    modes of [update_eb] differ: with two error rates the guards give
    [e = b = 0], with a single rate the merged rate is the unguarded
    quotient [0/0], and [update_eb] returns [nan] for both [e] and [b],
    raising nothing. *)
Theorem update_eb_zero_total (post_x : list row2) (R : list Z)
    (F : list bool) (errors not_errors bias not_bias : npfloat) :
  length R = length post_x ->
  length F = length post_x ->
  Forall row2_nonneg post_x ->
  eb_counts post_x R F = Ok (errors, not_errors, bias, not_bias) ->
  (errors + bias + not_errors + not_bias =? NP.zero)%np = true ->
  update_eb post_x R F true = Ok (NP.zero, NP.zero)
  /\ update_eb post_x R F false = Ok (NaN, NaN).
Proof.
  intros HR HF Hrows Ec Hz. unfold update_eb. rewrite Ec.
  cbn [mbind result_bind].
  assert (Hfst : forall r : row2, row2_nonneg r -> nonneg (fst r))
    by (intros r [H _]; exact H).
  assert (Hsnd : forall r : row2, row2_nonneg r -> nonneg (snd r))
    by (intros r [_ H]; exact H).
  rewrite (eb_counts_ok _ _ _ HR HF) in Ec. injection Ec as <- <- <- <-.
  match goal with
  | |- Ok (eb_rates true (?e, ?n, ?b, ?m)) = _ /\ _ =>
      destruct (eb_rates_zero_total e n b m) as [-> ->]
  end; try (apply nonneg_add; apply class_sum_nonneg; auto); auto.
Qed.

Lemma update_eb_zero_total_witness :
  update_eb [] [] [] true = Ok (NP.zero, NP.zero)
  /\ update_eb [] [] [] false = Ok (NaN, NaN)
  /\ update_eb [(Fin 0, Fin 0)] [1] [true] false = Ok (NaN, NaN).
Proof.
  destruct (update_eb_zero_total [] [] [] _ _ _ _ eq_refl eq_refl
              ltac:(constructor) eq_refl eq_refl) as [H1 H2].
  split; [exact H1|]. split; [exact H2|].
  refine (proj2 (update_eb_zero_total [(Fin 0, Fin 0)] [1] [true] _ _ _ _
                   eq_refl eq_refl _ eq_refl eq_refl)).
  solve_nonneg.
Defined.

(* ===================================================================== *)
(** ** The blocks of an EM step *)
(* ===================================================================== *)

Section EMBlocks.

Context {numeric : Numeric} {emissions : Emissions}.

(** An EM step that returns, block by block: the forward and backward
    probabilities are those of [p], and the four blocks run one after the
    other on the object. *)
Lemma em_step_blocks (O : Controller.t) (data : SlugData) (p p' : Pars.t) :
  em_step O data p = Ok p' ->
  exists fwd_g bwd_x bwd_g fwd_x_cont fwd_x_nocont s1 s2 s3,
    fwd_p_g data p = Ok fwd_g
    /\ bwd_p_o_given_x (READS data) (FLIPPED_READS data) (Pars.e p) (Pars.b p)
       = Ok bwd_x
    /\ fwd_p_x_cont (psi data) (READ2SNP data) = Ok fwd_x_cont
    /\ fwd_p_x_nocont fwd_g (READ2SNP data) = Ok fwd_x_nocont
    /\ when (Controller.update_ftau O) (update_pars_ftau O data bwd_g fwd_g) p
       = (Ok tt, s1)
    /\ when (Controller.update_cont O)
         (update_pars_cont data bwd_x fwd_x_nocont fwd_x_cont (Pars.cont p)) s1
       = (Ok tt, s2)
    /\ when (Controller.update_eb O)
         (update_pars_eb O data bwd_x fwd_x_cont fwd_x_nocont (Pars.cont p)) s2
       = (Ok tt, s3)
    /\ when (Controller.do_ll O) (update_pars_ll data) s3 = (Ok tt, p').
Proof.
  unfold em_step.
  destruct (update_pars_body O data p) as [[[]|e] p''] eqn:H; [|discriminate].
  intros [= ->]. unfold update_pars_body in H.
  cbv beta iota zeta delta [mbind mret ST_bind ST_ret lift get] in H.
  destruct (fwd_p_g data p) as [fwd_g|] eqn:E1; [|discriminate H].
  destruct (bwd_p_o_given_x _ _ _ _) as [bwd_x|] eqn:E2; [|discriminate H].
  destruct (bwd_p_one_o_given_g _ _ _ _ _ _) as [bwd_g1|]; [|discriminate H].
  destruct (bwd_p_all_o_given_g _ _ _) as [bwd_g|]; [|discriminate H].
  destruct (fwd_p_x_cont _ _) as [fwd_x_cont|] eqn:E3; [|discriminate H].
  destruct (fwd_p_x_nocont _ _) as [fwd_x_nocont|] eqn:E4; [|discriminate H].
  destruct (fwd_p_x _ _ _ _) as [fwd_x|]; [|discriminate H].
  destruct (when (Controller.update_ftau O) _ p) as [[[]|] s1] eqn:B1;
    [|discriminate H].
  destruct (when (Controller.update_cont O) _ s1) as [[[]|] s2] eqn:B2;
    [|discriminate H].
  destruct (when (Controller.update_eb O) _ s2) as [[[]|] s3] eqn:B3;
    [|discriminate H].
  exists fwd_g, bwd_x, bwd_g, fwd_x_cont, fwd_x_nocont, s1, s2, s3.
  repeat split; auto.
Qed.

Lemma update_pars_ftau_inv O data bwd_g fwd_g (p s1 : Pars.t) :
  update_pars_ftau O data bwd_g fwd_g p = (Ok tt, s1) ->
  exists post_g prev_F prev_tau F tau,
    posterior_g bwd_g fwd_g = Ok post_g
    /\ Arr.assign_all (length (Pars.prev_F p)) (Pars.F p) = Ok prev_F
    /\ Arr.assign_all (length (Pars.prev_tau p)) (Pars.tau p) = Ok prev_tau
    /\ update_ftau_numeric (Pars.F p) (Pars.tau p) data post_g
         (Controller.update_F O) = Ok (F, tau)
    /\ s1 = Pars.set_tau tau (Pars.set_F F
              (Pars.set_prev_tau prev_tau (Pars.set_prev_F prev_F p))).
Proof.
  intros H. unfold update_pars_ftau in H. st_unfold H.
  destruct (posterior_g bwd_g fwd_g) as [post_g|] eqn:E1; [|discriminate H].
  destruct (Arr.assign_all _ (Pars.F p)) as [pF|] eqn:E2; [|discriminate H].
  destruct (Arr.assign_all _ (Pars.tau p)) as [pt|] eqn:E3; [|discriminate H].
  destruct (update_ftau_numeric _ _ _ _ _) as [[F' tau']|] eqn:E4;
    [|discriminate H].
  injection H as <-. exists post_g, pF, pt, F', tau'. auto.
Qed.

Lemma update_pars_cont_inv data bwd_x fwd_x_nocont fwd_x_cont fwd_c
    (s1 s2 : Pars.t) :
  update_pars_cont data bwd_x fwd_x_nocont fwd_x_cont fwd_c s1 = (Ok tt, s2) ->
  exists post_c prev_cont cont,
    posterior_c bwd_x fwd_x_nocont fwd_x_cont fwd_c (READ2RG data) = Ok post_c
    /\ Arr.assign_all (length (Pars.prev_cont s1)) (Pars.cont s1) = Ok prev_cont
    /\ update_c post_c (READ2RG data) (n_rgs data) = Ok cont
    /\ s2 = Pars.set_cont cont (Pars.set_prev_cont prev_cont s1).
Proof.
  intros H. unfold update_pars_cont in H. st_unfold H.
  destruct (posterior_c _ _ _ _ _) as [post_c|] eqn:E1; [|discriminate H].
  destruct (Arr.assign_all _ _) as [pc|] eqn:E2; [|discriminate H].
  destruct (update_c _ _ _) as [c|] eqn:E3; [|discriminate H].
  injection H as <-. exists post_c, pc, c. auto.
Qed.

Lemma update_pars_eb_inv O data bwd_x fwd_x_cont fwd_x_nocont fwd_c
    (s2 s3 : Pars.t) :
  update_pars_eb O data bwd_x fwd_x_cont fwd_x_nocont fwd_c s2 = (Ok tt, s3) ->
  exists post_x e b,
    posterior_x bwd_x fwd_x_cont fwd_x_nocont fwd_c (READ2RG data) = Ok post_x
    /\ update_eb post_x (READS data) (FLIPPED_READS data)
         (Controller.update_bias O) = Ok (e, b)
    /\ s3 = Pars.set_b b (Pars.set_e e
              (Pars.set_prev_b (Pars.b s2) (Pars.set_prev_e (Pars.e s2) s2))).
Proof.
  intros H. unfold update_pars_eb in H. st_unfold H.
  destruct (posterior_x _ _ _ _ _) as [post_x|] eqn:E1; [|discriminate H].
  destruct (update_eb _ _ _ _) as [[e b]|] eqn:E2; [|discriminate H].
  injection H as <-. exists post_x, e, b. auto.
Qed.

Lemma update_pars_ll_inv data (s3 p' : Pars.t) :
  update_pars_ll data s3 = (Ok tt, p') ->
  exists ll,
    calc_full_ll data s3 = Ok ll
    /\ p' = Pars.set_prev_ll (Pars.ll s3) (Pars.set_ll ll s3).
Proof.
  intros H. unfold update_pars_ll in H. st_unfold H.
  destruct (calc_full_ll data s3) as [v|] eqn:E1; [|discriminate H].
  injection H as <-. exists v. auto.
Qed.

Lemma when_off_inv {S} (m : ST S unit) (s s' : S) :
  when false m s = (Ok tt, s') -> s' = s.
Proof. now intros [= <-]. Qed.

(** X6. The M-steps of an EM step that returns use the posteriors of the
    parameters the step started from, also after the SFS block of the step
    has overwritten [F] and [tau]: the new [cont] is [update_c] of the
    contamination posterior of [pars]; in a step that does not update
    [cont], the new [e] and [b] are [update_eb] of the allele posterior of
    [pars] (with [two_errors = O.update_bias]); the new [ll] is
    [calc_full_ll] of the updated parameters.  (In a step that updates
    [cont] as well, what line 228 reads through [fwd_c] after the write of
    line 225 depends on the parameter-vector class, and nothing is stated
    of [e] and [b].) *)
Theorem em_step_m_steps (O : Controller.t) (data : SlugData) (p p' : Pars.t) :
  em_step O data p = Ok p' ->
  (Controller.update_cont O = true ->
   exists post_c : array,
     post_c_of data p = Ok post_c
     /\ update_c post_c (READ2RG data) (n_rgs data) = Ok (Pars.cont p'))
  /\ (Controller.update_eb O = true ->
      Controller.update_cont O = false ->
      exists post_x : list row2,
        post_x_of data p = Ok post_x
        /\ update_eb post_x (READS data) (FLIPPED_READS data)
             (Controller.update_bias O) = Ok (Pars.e p', Pars.b p'))
  /\ (Controller.do_ll O = true ->
      calc_full_ll data (with_ll_of p p') = Ok (Pars.ll p')).
Proof.
  intros H.
  destruct (em_step_blocks _ _ _ _ H)
    as (fwd_g & bwd_x & bwd_g & fwd_x_cont & fwd_x_nocont & s1 & s2 & s3
        & E1 & E2 & E3 & E4 & B1 & B2 & B3 & B4).
  assert (Hpc : forall r,
             posterior_c bwd_x fwd_x_nocont fwd_x_cont (Pars.cont p)
               (READ2RG data) = r -> post_c_of data p = r).
  { intros r Hr. unfold post_c_of. rewrite E1. cbn [mbind result_bind].
    rewrite E2. cbn [mbind result_bind]. rewrite E3. cbn [mbind result_bind].
    rewrite E4. exact Hr. }
  assert (Hpx : forall r,
             posterior_x bwd_x fwd_x_cont fwd_x_nocont (Pars.cont p)
               (READ2RG data) = r -> post_x_of data p = r).
  { intros r Hr. unfold post_x_of. rewrite E1. cbn [mbind result_bind].
    rewrite E2. cbn [mbind result_bind]. rewrite E3. cbn [mbind result_bind].
    rewrite E4. exact Hr. }
  (* the fields each block leaves *)
  assert (H2 : Controller.update_cont O = true ->
               exists post_c cont,
                 post_c_of data p = Ok post_c
                 /\ update_c post_c (READ2RG data) (n_rgs data) = Ok cont
                 /\ Pars.cont s2 = cont).
  { intros Hon. rewrite Hon in B2. cbn [when] in B2.
    apply update_pars_cont_inv in B2 as (post_c & pc & c & P1 & _ & P3 & ->).
    exists post_c, c. repeat split; auto. }
  assert (H3c : Pars.cont s3 = Pars.cont s2).
  { destruct (Controller.update_eb O).
    - cbn [when] in B3.
      apply update_pars_eb_inv in B3 as (? & ? & ? & _ & _ & ->). reflexivity.
    - apply when_off_inv in B3 as ->. reflexivity. }
  assert (H3 : Controller.update_eb O = true ->
               exists post_x e b,
                 post_x_of data p = Ok post_x
                 /\ update_eb post_x (READS data) (FLIPPED_READS data)
                      (Controller.update_bias O) = Ok (e, b)
                 /\ Pars.e s3 = e /\ Pars.b s3 = b).
  { intros Hon. rewrite Hon in B3. cbn [when] in B3.
    apply update_pars_eb_inv in B3 as (post_x & e & b & P1 & P2 & ->).
    exists post_x, e, b. repeat split; auto. }
  assert (H4 : Pars.cont p' = Pars.cont s3 /\ Pars.e p' = Pars.e s3
               /\ Pars.b p' = Pars.b s3).
  { destruct (Controller.do_ll O).
    - cbn [when] in B4.
      apply update_pars_ll_inv in B4 as (? & _ & ->). auto.
    - apply when_off_inv in B4 as ->. auto. }
  destruct H4 as (H4c & H4e & H4b).
  split; [|split].
  - intros Hon. destruct (H2 Hon) as (post_c & c & P1 & P2 & P3).
    exists post_c. split; [exact P1|]. rewrite H4c, H3c, P3. exact P2.
  - intros Hon _. destruct (H3 Hon) as (post_x & e & b & P1 & P2 & P3 & P4).
    exists post_x. split; [exact P1|]. rewrite H4e, H4b, P3, P4. exact P2.
  - intros Hon. rewrite Hon in B4. cbn [when] in B4.
    apply update_pars_ll_inv in B4 as (v & Hv & ->).
    assert (Hl : Pars.ll s3 = Pars.ll p /\ Pars.prev_ll s3 = Pars.prev_ll p).
    { assert (L1 : Pars.ll s1 = Pars.ll p /\ Pars.prev_ll s1 = Pars.prev_ll p).
      { destruct (Controller.update_ftau O).
        - cbn [when] in B1.
          apply update_pars_ftau_inv in B1
            as (? & ? & ? & ? & ? & _ & _ & _ & _ & ->). auto.
        - apply when_off_inv in B1 as ->. auto. }
      assert (L2 : Pars.ll s2 = Pars.ll s1 /\ Pars.prev_ll s2 = Pars.prev_ll s1).
      { destruct (Controller.update_cont O).
        - cbn [when] in B2.
          apply update_pars_cont_inv in B2 as (? & ? & ? & _ & _ & _ & ->). auto.
        - apply when_off_inv in B2 as ->. auto. }
      assert (L3 : Pars.ll s3 = Pars.ll s2 /\ Pars.prev_ll s3 = Pars.prev_ll s2).
      { destruct (Controller.update_eb O).
        - cbn [when] in B3.
          apply update_pars_eb_inv in B3 as (? & ? & ? & _ & _ & ->). auto.
        - apply when_off_inv in B3 as ->. auto. }
      destruct L1 as [a1 b1], L2 as [a2 b2], L3 as [a3 b3].
      split; congruence. }
    destruct Hl as [Hl1 Hl2].
    assert (Hs : with_ll_of p (Pars.set_prev_ll (Pars.ll s3) (Pars.set_ll v s3))
                 = s3).
    { unfold with_ll_of. rewrite <- Hl1, <- Hl2. now destruct s3. }
    rewrite Hs. exact Hv.
Qed.

(** X7. The shadow copies after an EM step that returns.  For every block
    of parameters that the configuration updates, the [prev_*] attribute
    holds the value the parameter had before the step (the arrays having the
    length of their shadow copy); for every block it does not update, the
    parameter and its shadow copy are as before the step.  So the
    differences [delta_*] of the object are those of the last step that
    updated the block. *)
Theorem em_step_shadow_copies (O : Controller.t) (data : SlugData)
    (p p' : Pars.t) :
  em_step O data p = Ok p' ->
  (if Controller.update_ftau O
   then (length (Pars.F p) = length (Pars.prev_F p) ->
         Pars.prev_F p' = Pars.F p)
        /\ (length (Pars.tau p) = length (Pars.prev_tau p) ->
            Pars.prev_tau p' = Pars.tau p)
   else Pars.F p' = Pars.F p /\ Pars.prev_F p' = Pars.prev_F p
        /\ Pars.tau p' = Pars.tau p /\ Pars.prev_tau p' = Pars.prev_tau p)
  /\ (if Controller.update_cont O
      then length (Pars.cont p) = length (Pars.prev_cont p) ->
           Pars.prev_cont p' = Pars.cont p
      else Pars.cont p' = Pars.cont p
           /\ Pars.prev_cont p' = Pars.prev_cont p)
  /\ (if Controller.update_eb O
      then Pars.prev_e p' = Pars.e p /\ Pars.prev_b p' = Pars.b p
      else Pars.e p' = Pars.e p /\ Pars.prev_e p' = Pars.prev_e p
           /\ Pars.b p' = Pars.b p /\ Pars.prev_b p' = Pars.prev_b p)
  /\ (if Controller.do_ll O
      then Pars.prev_ll p' = Pars.ll p
      else Pars.ll p' = Pars.ll p /\ Pars.prev_ll p' = Pars.prev_ll p).
Proof.
  intros H.
  destruct (em_step_blocks _ _ _ _ H)
    as (fwd_g & bwd_x & bwd_g & fwd_x_cont & fwd_x_nocont & s1 & s2 & s3
        & _ & _ & _ & _ & B1 & B2 & B3 & B4).
  (* every block as a function on the record *)
  assert (A1 : if Controller.update_ftau O
               then exists prev_F prev_tau F tau,
                   Arr.assign_all (length (Pars.prev_F p)) (Pars.F p) = Ok prev_F
                   /\ Arr.assign_all (length (Pars.prev_tau p)) (Pars.tau p)
                      = Ok prev_tau
                   /\ s1 = Pars.set_tau tau (Pars.set_F F
                             (Pars.set_prev_tau prev_tau
                                (Pars.set_prev_F prev_F p)))
               else s1 = p).
  { destruct (Controller.update_ftau O).
    - cbn [when] in B1.
      apply update_pars_ftau_inv in B1
        as (? & pF & pt & F & tau & _ & P1 & P2 & _ & ->).
      exists pF, pt, F, tau. auto.
    - now apply when_off_inv in B1. }
  assert (A2 : if Controller.update_cont O
               then exists prev_cont cont,
                   Arr.assign_all (length (Pars.prev_cont s1)) (Pars.cont s1)
                   = Ok prev_cont
                   /\ s2 = Pars.set_cont cont (Pars.set_prev_cont prev_cont s1)
               else s2 = s1).
  { destruct (Controller.update_cont O).
    - cbn [when] in B2.
      apply update_pars_cont_inv in B2 as (? & pc & c & _ & P1 & _ & ->).
      exists pc, c. auto.
    - now apply when_off_inv in B2. }
  assert (A3 : if Controller.update_eb O
               then exists e b,
                   s3 = Pars.set_b b (Pars.set_e e
                          (Pars.set_prev_b (Pars.b s2)
                             (Pars.set_prev_e (Pars.e s2) s2)))
               else s3 = s2).
  { destruct (Controller.update_eb O).
    - cbn [when] in B3.
      apply update_pars_eb_inv in B3 as (? & e & b & _ & _ & ->).
      exists e, b. auto.
    - now apply when_off_inv in B3. }
  assert (A4 : if Controller.do_ll O
               then exists ll,
                   p' = Pars.set_prev_ll (Pars.ll s3) (Pars.set_ll ll s3)
               else p' = s3).
  { destruct (Controller.do_ll O).
    - cbn [when] in B4.
      apply update_pars_ll_inv in B4 as (v & _ & ->). exists v. auto.
    - now apply when_off_inv in B4. }
  clear B1 B2 B3 B4 H.
  destruct (Controller.update_ftau O), (Controller.update_cont O),
    (Controller.update_eb O), (Controller.do_ll O);
    repeat match goal with
           | H : exists _, _ |- _ => destruct H
           | H : _ /\ _ |- _ => destruct H
           end;
    subst; cbn in *;
    repeat match goal with
           | |- _ /\ _ => split
           | |- _ -> _ => intros
           end;
    try reflexivity;
    match goal with
    | Hl : length ?v = length ?w, Ha : Arr.assign_all (length ?w) ?v = Ok ?r
      |- ?r = ?v =>
        rewrite assign_all_same in Ha by exact Hl; now injection Ha
    end.
Qed.

End EMBlocks.

(** The small emission model with a rate that climbs: its EM steps do not
    lower the log-likelihood. *)
Lemma update_c_one_read (y : npfloat) : update_c [y] [0] 1 = Ok [NP.mean [y]].
Proof. reflexivity. Qed.

Lemma mean_climb_not_lower (x : npfloat) :
  NP.isnan x = false ->
  NP.isnan (NP.mean [climb x]) = false
  /\ (x <=? NP.mean [climb x])%np = true.
Proof.
  destruct x as [q| | |]; try discriminate; intros _;
    [|split; reflexivity|split; reflexivity].
  assert (Hh : val (Stub.halfway (Fin q)) ((q + 1) / 2)).
  { unfold Stub.halfway. apply val_div.
    - apply val_add; apply val_Fin.
    - apply (val_Fin 2).
    - intros C. discriminate C. }
  assert (Hc : exists m, val (climb (Fin q)) m /\ (q <= m)%Q).
  { unfold climb, NP.maximum. cbn [NP.isnan].
    destruct Hh as (h & Eh & Hh). rewrite Eh. cbn [NP.isnan].
    destruct (Fin q <? Fin h)%np eqn:E.
    - apply (val_ltb _ _ q h (val_Fin q) (val_Fin h)) in E.
      exists h. split; [apply val_Fin | lra].
    - exists q. split; [apply val_Fin | lra]. }
  destruct Hc as (m & Hm & Hqm).
  assert (Hy : val (NP.mean [climb (Fin q)]) ((0 + m) / 1)).
  { unfold NP.mean, NP.sum. cbn [fold_left length]. apply val_div.
    - apply val_add; [apply val_Fin | exact Hm].
    - apply val_Fin.
    - intros C. discriminate C. }
  assert (Hv : ((0 + m) / 1 == m)%Q) by field.
  split.
  - destruct Hy as (y & -> & _). reflexivity.
  - apply (val_leb _ _ q ((0 + m) / 1) (val_Fin q) Hy). rewrite Hv. exact Hqm.
Qed.

Lemma climb_never_decreases (c : Controller.t) :
  Controller.update_ftau c = false ->
  Controller.update_cont c = true ->
  Controller.update_eb c = false ->
  Controller.do_ll c = true ->
  @em_never_decreases Stub.numeric (Stub.emissions climb Stub.rising)
    c Stub.data.
Proof.
  intros F1 F2 F3 F4 p p' Hcur E.
  unfold ll_current in Hcur. cbn [calc_full_ll Stub.emissions] in Hcur.
  injection Hcur as Hcur.
  destruct (em_step_blocks _ _ _ _ E)
    as (fwd_g & bwd_x & bwd_g & fwd_x_cont & fwd_x_nocont & s1 & s2 & s3
        & _ & _ & _ & _ & B1 & B2 & B3 & B4).
  rewrite F1 in B1. apply when_off_inv in B1 as ->.
  rewrite F2 in B2. cbn [when] in B2.
  apply update_pars_cont_inv in B2 as (post_c & pc & cont & P1 & _ & P3 & ->).
  rewrite F3 in B3. apply when_off_inv in B3 as ->.
  rewrite F4 in B4. cbn [when] in B4.
  apply update_pars_ll_inv in B4 as (v & Hv & ->).
  cbn [posterior_c Stub.emissions READ2RG Stub.data map] in P1.
  injection P1 as <-.
  change (Z.to_nat 0) with 0%nat in P3. fold (Stub.c0 p) in P3.
  rewrite update_c_one_read in P3. injection P3 as <-.
  cbn [calc_full_ll Stub.emissions] in Hv. injection Hv as <-.
  cbn [Pars.ll Pars.set_prev_ll Pars.set_ll]. rewrite <- Hcur.
  unfold Stub.rising at 2.
  change (Stub.c0 (Pars.set_cont [NP.mean [climb (Stub.c0 p)]]
                     (Pars.set_prev_cont pc p)))
    with (NP.mean [climb (Stub.c0 p)]).
  unfold Stub.rising.
  destruct (NP.isnan (Stub.c0 p)) eqn:En.
  - destruct (Stub.c0 p); try discriminate En. reflexivity.
  - destruct (mean_climb_not_lower _ En) as [-> Hle]. exact Hle.
Qed.

Lemma squarem_ll_never_decreases_witness :
  let c := Stub.ctl false 3 (Fin (1 # 10)) (Fin 1) (Fin 1) (Fin 2) in
  let s := Stub.store (Fin 0) c in
  let traced :=
    @squarem_loop_traced Stub.numeric (Stub.emissions climb Stub.rising)
      3 Stub.data (Fin 1) 0%nat (Fin 1)
      (mkState (heap s) (Controller.set_copy_pars true c)) in
  traced.1 = [by_rule (Fin (7 # 8)); at_break (Fin (15 # 16))]
  /\ nondecreasing (Fin 0 :: kept_by_rule traced.1)
  /\ nondecreasing (Fin 0 :: map kept_ll traced.1).
Proof.
  intros c s traced.
  split; [vm_compute; reflexivity|].
  destruct (@squarem_ll_never_decreases Stub.numeric
              (Stub.emissions climb Stub.rising) 0%nat Stub.data s)
    as (_ & H1 & H2).
  - reflexivity.
  - intros d q v [= <-]. unfold Stub.rising.
    destruct (Stub.c0 q) as [x| | |]; reflexivity.
  - reflexivity.
  - split; [exact H1|]. apply H2.
    + intros d p a b. reflexivity.
    + apply climb_never_decreases; reflexivity.
    + intros p [= <-]. reflexivity.
Defined.

(* ===================================================================== *)
(** ** [update_pars] and the store *)
(* ===================================================================== *)

Section StoreFrame.

Context {numeric : Numeric} {emissions : Emissions}.

Lemma update_pars_dangling (r : ref) (data : SlugData) (s : State) :
  heap s !! r = None -> update_pars r data s = (Raise TypeError, s).
Proof.
  intros Hp. unfold update_pars, get_controller, deepcopy, on_object.
  cbv beta iota zeta delta [mbind mret ST_bind ST_ret].
  destruct (Controller.copy_pars (controller s)); cbn [heap controller];
    now rewrite Hp.
Qed.

(** X8. [update_pars] and the objects of the store, whether it returns or
    raises.  With [copy_pars] set it changes no object that exists: the
    object it updates is a new one, which it returns.  With [copy_pars] not
    set it creates no object, changes no object but [pars], and returns
    [pars] itself; what the step had written to [pars] before an exception
    stays written.  The controller is not changed. *)
Theorem update_pars_store (r : ref) (data : SlugData) (s : State) :
  let run := update_pars r data s in
  controller run.2 = controller s
  /\ (if Controller.copy_pars (controller s)
      then (exists l, heap run.2 = heap s ++ l /\ (length l <= 1)%nat)
           /\ (forall r', run.1 = Ok r' ->
               r' = length (heap s) /\ length (heap run.2) = S r')
      else length (heap run.2) = length (heap s)
           /\ (forall j, j <> r -> heap run.2 !! j = heap s !! j)
           /\ (forall p, heap s !! r = Some p ->
               heap run.2 !! r = Some (update_pars_body (controller s) data p).2)
           /\ (forall r', run.1 = Ok r' -> r' = r)).
Proof.
  cbv zeta. split; [apply frame_update_pars|].
  destruct (heap s !! r) as [p|] eqn:Hp.
  - rewrite (update_pars_run _ _ _ _ Hp). cbv zeta.
    destruct (Controller.copy_pars (controller s)); cbn [fst snd heap].
    + split; [exists [(update_pars_body (controller s) data p).2]; auto|].
      intros r' Hr.
      destruct (update_pars_body (controller s) data p) as [[[]|e] q];
        cbn [fst snd returning] in Hr; [|discriminate Hr].
      injection Hr as <-. split; [reflexivity|].
      rewrite length_app. cbn [length]. lia.
    + split; [apply length_insert|]. split; [|split].
      * intros j Hj. apply list_lookup_insert_ne. congruence.
      * intros p0 [= <-]. apply list_lookup_insert_eq.
        eapply lookup_lt_Some; eauto.
      * intros r' Hr.
        destruct (update_pars_body (controller s) data p) as [[[]|e] q];
          cbn [fst snd returning] in Hr; [|discriminate Hr].
        now injection Hr as <-.
  - rewrite (update_pars_dangling _ _ _ Hp). cbn [fst snd].
    destruct (Controller.copy_pars (controller s)).
    + split; [exists []; rewrite app_nil_r; auto|]. discriminate.
    + repeat split; auto; discriminate.
Qed.

(** With [update_ftau] set and [update_F] not set, the EM step on an object
    does not return. *)
Lemma update_pars_body_no_F (O : Controller.t) (data : SlugData)
    (p p' : Pars.t) :
  Controller.update_ftau O = true ->
  Controller.update_F O = false ->
  update_pars_body O data p <> (Ok tt, p').
Proof.
  intros Hon Hoff H.
  destruct (update_pars_body_sfs_on _ _ _ _ Hon H) as (post_g & _ & Hn).
  rewrite Hoff in Hn. discriminate Hn.
Qed.

Lemma update_pars_no_F (r : ref) (data : SlugData) (s : State) :
  Controller.update_ftau (controller s) = true ->
  Controller.update_F (controller s) = false ->
  exists e s', update_pars r data s = (Raise e, s').
Proof.
  intros Hon Hoff. destruct (heap s !! r) as [p|] eqn:Hp.
  - rewrite (update_pars_run _ _ _ _ Hp). cbv zeta.
    pose proof (update_pars_body_no_F _ data p
                  (update_pars_body (controller s) data p).2 Hon Hoff) as Hb.
    destruct (update_pars_body (controller s) data p) as [[[]|e] q];
      [now elim Hb|].
    cbn [fst snd returning].
    destruct (Controller.copy_pars (controller s)); eauto.
  - rewrite (update_pars_dangling _ _ _ Hp). eauto.
Qed.

(** X9. With [update_ftau] set and [update_F] not set nothing is estimated:
    [update_pars] raises ([update_ftau_numeric] refuses [update_F = False]),
    and so do [em] and [squarem] when they are given an iteration to run. *)
Theorem sfs_without_F_raises (pars : ref) (data : SlugData) (s : State) :
  Controller.update_ftau (controller s) = true ->
  Controller.update_F (controller s) = false ->
  (exists e s', update_pars pars data s = (Raise e, s'))
  /\ (0 < Controller.n_iter (controller s) ->
      (exists e s', em pars data s = (Raise e, s'))
      /\ (exists e s', squarem pars data s = (Raise e, s'))).
Proof.
  intros Hon Hoff. split; [now apply update_pars_no_F|].
  intros Hn.
  destruct (Z.to_nat (Controller.n_iter (controller s))) as [|n] eqn:En; [lia|].
  split.
  - unfold em.
    cbv beta iota zeta delta [mbind mret ST_bind ST_ret get_controller].
    rewrite En. cbn [em_loop].
    cbv beta iota zeta delta [mbind mret ST_bind ST_ret].
    destruct (update_pars_no_F pars data s Hon Hoff) as (e & s' & ->). eauto.
  - set (forced := mkState (heap s)
                     (Controller.set_copy_pars true (controller s))).
    change (squarem pars data s)
      with (squarem_loop (Z.to_nat (Controller.n_iter (controller s))) data
              (Controller.squarem_min (controller s)) pars
              (Controller.squarem_max (controller s)) forced).
    rewrite En. cbn [squarem_loop]. unfold squarem_iter.
    cbv beta iota zeta delta [mbind mret ST_bind ST_ret get_controller].
    destruct (update_pars_no_F pars data forced Hon Hoff) as (e & s' & ->).
    eauto.
Qed.

End StoreFrame.

Lemma sfs_without_F_raises_witness :
  let c := Controller.mk true false true false true true false 2
             (Fin (1 # 1000)) (Fin 0) (Fin 1) (Fin 1) (Fin 2) in
  (exists e s', @em Stub.numeric (Stub.emissions Stub.drift Stub.rising)
                  0%nat Stub.data (Stub.store (Fin 0) c) = (Raise e, s'))
  /\ (@squarem Stub.numeric (Stub.emissions Stub.drift Stub.rising)
        0%nat Stub.data (Stub.store (Fin 0) c)).1 = Raise TypeError.
Proof.
  intros c.
  destruct (@sfs_without_F_raises Stub.numeric
              (Stub.emissions Stub.drift Stub.rising) 0%nat Stub.data
              (Stub.store (Fin 0) c) eq_refl eq_refl) as [_ H].
  destruct (H ltac:(reflexivity)) as [He _].
  split; [exact He|]. vm_compute. reflexivity.
Defined.

(* ===================================================================== *)
(** ** The objects of the store during a run of [squarem] *)
(* ===================================================================== *)

Lemma keeps_weaken {A} (h : list Pars.t) (m : M A) (Q Q' : A -> Prop) :
  keeps h m Q -> (forall a, Q a -> Q' a) -> keeps h m Q'.
Proof.
  intros H HQ s Hc Hs. destruct (H s Hc Hs) as (H1 & H2 & H3). auto.
Qed.

Lemma keeps_bind {A B} (h : list Pars.t) (m : M A) (k : A -> M B)
    (Q : A -> Prop) (Q' : B -> Prop) :
  keeps h m Q -> (forall a, Q a -> keeps h (k a) Q') -> keeps h (m ≫= k) Q'.
Proof.
  intros Hm Hk s Hc Hs. unfold mbind, ST_bind.
  destruct (Hm s Hc Hs) as (H1 & H2 & H3).
  destruct (m s) as [[a|e] s1]; cbn [fst snd] in *.
  - apply (Hk a (H3 a eq_refl) s1 H1 H2).
  - split; [exact H1|]. split; [exact H2|]. discriminate.
Qed.

Lemma keeps_ret {A} (h : list Pars.t) (a : A) :
  keeps h (mret a) (fun _ => True).
Proof. intros s Hc Hs. cbn. auto. Qed.

Lemma keeps_lift {A} (h : list Pars.t) (r : result A) :
  keeps h (lift r) (fun _ => True).
Proof. intros s Hc Hs. cbn. auto. Qed.

Lemma keeps_get_controller (h : list Pars.t) :
  keeps h get_controller (fun _ => True).
Proof. intros s Hc Hs. cbn. auto. Qed.

Lemma keeps_load (h : list Pars.t) (r : ref) :
  keeps h (load r) (fun _ => True).
Proof.
  intros s Hc Hs. unfold load. destruct (heap s !! r); cbn; auto.
Qed.

Lemma keeps_deepcopy (h : list Pars.t) (r : ref) :
  keeps h (deepcopy r) (fun r' => (length h <= r')%nat).
Proof.
  intros s Hc [l Hs]. unfold deepcopy.
  destruct (heap s !! r) as [p|]; cbn [fst snd heap controller].
  - split; [exact Hc|]. split.
    + exists (l ++ [p]). now rewrite Hs, app_assoc.
    + intros a [= <-]. rewrite Hs, length_app. lia.
  - split; [exact Hc|]. split; [eauto | discriminate].
Qed.

Lemma keeps_on_object {A} (h : list Pars.t) (r : ref) (m : ST Pars.t A) :
  (length h <= r)%nat -> keeps h (on_object r m) (fun _ => True).
Proof.
  intros Hr s Hc [l Hs]. unfold on_object.
  destruct (heap s !! r) as [p|]; [|cbn; eauto].
  destruct (m p) as [a p']. cbn [fst snd heap controller].
  split; [exact Hc|]. split; [|auto].
  exists (<[(r - length h)%nat := p']> l). rewrite Hs.
  now rewrite insert_app_r_alt by exact Hr.
Qed.

Section KeepsStore.

Context {numeric : Numeric} {emissions : Emissions}.

Lemma keeps_update_pars (h : list Pars.t) (r : ref) (data : SlugData) :
  keeps h (update_pars r data) (fun r' => (length h <= r')%nat).
Proof.
  intros s Hc [l Hs].
  split; [now rewrite frame_update_pars|].
  destruct (heap s !! r) as [p|] eqn:Hp.
  - rewrite (update_pars_run _ _ _ _ Hp). cbv zeta. rewrite Hc.
    cbn [fst snd heap]. split.
    + eexists. rewrite Hs, <- app_assoc. reflexivity.
    + intros a Ha.
      destruct (update_pars_body (controller s) data p).1;
        cbn [returning] in Ha; [|discriminate Ha].
      injection Ha as <-. rewrite Hs, length_app. lia.
  - rewrite (update_pars_dangling _ _ _ Hp). cbn [fst snd].
    split; [eauto | discriminate].
Qed.

Lemma keeps_squarem_iter (h : list Pars.t) (data : SlugData)
    (min_step max_step : npfloat) (pars : ref) :
  keeps h (squarem_iter data min_step pars max_step) (fun _ => True).
Proof.
  unfold squarem_iter, squarem_extrapolate, squarem_accept.
  eapply keeps_bind; [apply keeps_get_controller|]. intros O _.
  eapply keeps_bind; [apply keeps_update_pars|]. intros pars1 _.
  eapply keeps_bind; [apply keeps_load|]. intros p1 _.
  eapply keeps_bind; [apply keeps_load|]. intros p _.
  eapply keeps_bind; [apply keeps_lift|]. intros Δp1 _.
  destruct (_ || _); [apply keeps_ret|].
  eapply keeps_bind; [apply keeps_update_pars|]. intros pars2 _.
  eapply keeps_bind; [apply keeps_load|]. intros p2 _.
  eapply keeps_bind; [apply keeps_load|]. intros p1' _.
  eapply keeps_bind; [apply keeps_lift|]. intros Δp2 _.
  destruct (_ || _); [apply keeps_ret|].
  eapply keeps_bind; [apply keeps_lift|]. intros Δp3 _.
  cbv zeta.
  eapply keeps_bind; [apply keeps_deepcopy|]. intros pars_sq Hsq.
  eapply keeps_bind; [apply keeps_load|]. intros p0 _.
  eapply keeps_bind; [apply keeps_lift|]. intros v _.
  eapply keeps_bind; [apply keeps_on_object; exact Hsq|]. intros _ _.
  eapply keeps_bind; [apply keeps_on_object; exact Hsq|]. intros _ _.
  eapply keeps_bind; [apply keeps_update_pars|]. intros pars_sq' _.
  eapply keeps_bind; [apply keeps_load|]. intros p_sq _.
  eapply keeps_bind; [apply keeps_load|]. intros p2' _.
  apply keeps_ret.
Qed.

Lemma keeps_squarem_loop (h : list Pars.t) (n : nat) (data : SlugData)
    (min_step max_step : npfloat) (pars : ref) :
  keeps h (squarem_loop n data min_step pars max_step) (fun _ => True).
Proof.
  revert pars max_step. induction n as [|n IH]; intros pars max_step;
    cbn [squarem_loop].
  - apply keeps_ret.
  - eapply keeps_bind; [apply keeps_squarem_iter|]. intros [r|r m] _.
    + apply keeps_ret.
    + apply IH.
Qed.

(** X14. [squarem] changes no object that exists when it is called, whether
    it returns or raises: the store it leaves is the store it was given,
    followed by the objects it created. *)
Theorem squarem_keeps_store (pars0 : ref) (data : SlugData) (s : State) :
  exists created : list Pars.t,
    heap (squarem pars0 data s).2 = heap s ++ created
    /\ forall j p, heap s !! j = Some p ->
         heap (squarem pars0 data s).2 !! j = Some p.
Proof.
  assert (H : exists created,
             heap (squarem pars0 data s).2 = heap s ++ created).
  { change (squarem pars0 data s)
      with (squarem_loop (Z.to_nat (Controller.n_iter (controller s))) data
              (Controller.squarem_min (controller s)) pars0
              (Controller.squarem_max (controller s))
              (mkState (heap s)
                 (Controller.set_copy_pars true (controller s)))).
    refine (proj1 (proj2 (keeps_squarem_loop (heap s) _ _ _ _ _
                            (mkState (heap s)
                               (Controller.set_copy_pars true (controller s)))
                            eq_refl _))).
    exists []. cbn [heap]. now rewrite app_nil_r. }
  destruct H as [created H]. exists created. split; [exact H|].
  intros j p Hj. rewrite H. now apply lookup_app_l_Some.
Qed.

End KeepsStore.

(* ===================================================================== *)
(** ** The stopping checks of [squarem] *)
(* ===================================================================== *)

Section EarlyStop.

Context {numeric : Numeric} {emissions : Emissions}.

Local Open Scope np_scope.

Lemma squarem_run (pars0 : ref) (data : SlugData) (s : State) :
  squarem pars0 data s
  = squarem_loop (Z.to_nat (Controller.n_iter (controller s))) data
      (Controller.squarem_min (controller s)) pars0
      (Controller.squarem_max (controller s))
      (mkState (heap s) (Controller.set_copy_pars true (controller s))).
Proof. reflexivity. Qed.

Lemma squarem_loop_stop (n : nat) (data : SlugData) (min_step max_step : npfloat)
    (pars r : ref) (s s' : State) :
  squarem_iter data min_step pars max_step s = (Ok (Stop r), s') ->
  squarem_loop (S n) data min_step pars max_step s = (Ok r, s').
Proof.
  intros H. cbn [squarem_loop]. now rewrite (bind_run _ _ _ _ _ H).
Qed.

(** X11. When the first EM step of [squarem] moves the parameters by less
    than [param_tol] in norm, or gains less than [ll_tol] in log-likelihood,
    [squarem] stops there: it returns the first EM iterate, a new object,
    after one EM step, and leaves the object it was given as it was. *)
Theorem squarem_stops_at_first_iterate (pars0 : ref) (data : SlugData)
    (s : State) (p p1 : Pars.t) (Δp1 : array) :
  let O := Controller.set_copy_pars true (controller s) in
  0 < Controller.n_iter (controller s) ->
  heap s !! pars0 = Some p ->
  em_step O data p = Ok p1 ->
  vec_sub (Pars.pars p1) (Pars.pars p) = Ok Δp1 ->
  (norm Δp1 <? Controller.param_tol O)
  || (Pars.ll p1 - Pars.prev_ll p1 <? Controller.ll_tol O) = true ->
  squarem pars0 data s
  = (Ok (length (heap s)), mkState (heap s ++ [p1]) O).
Proof.
  intros O Hn Hp E1 V1 C1. rewrite squarem_run. fold O.
  destruct (Z.to_nat (Controller.n_iter (controller s))) as [|n] eqn:En; [lia|].
  apply squarem_loop_stop.
  apply (squarem_iter_copy_run data _ _ pars0
           (mkState (heap s) O) p (Stop (length (heap s))) [p1]);
    [reflexivity | exact Hp |].
  cbn [heap controller]. unfold squarem_pass.
  rewrite E1. cbn [mbind result_bind]. rewrite V1. cbn [mbind result_bind].
  now rewrite C1.
Qed.

(** X12. When the first stopping check of [squarem] does not fire and the
    second EM step moves the parameters by less than [param_tol] in norm, or
    gains less than [ll_tol], [squarem] returns the second EM iterate, after
    two EM steps and without an extrapolation. *)
Theorem squarem_stops_at_second_iterate (pars0 : ref) (data : SlugData)
    (s : State) (p p1 p2 : Pars.t) (Δp1 Δp2 : array) :
  let O := Controller.set_copy_pars true (controller s) in
  0 < Controller.n_iter (controller s) ->
  heap s !! pars0 = Some p ->
  em_step O data p = Ok p1 ->
  vec_sub (Pars.pars p1) (Pars.pars p) = Ok Δp1 ->
  (norm Δp1 <? Controller.param_tol O)
  || (Pars.ll p1 - Pars.prev_ll p1 <? Controller.ll_tol O) = false ->
  em_step O data p1 = Ok p2 ->
  vec_sub (Pars.pars p2) (Pars.pars p1) = Ok Δp2 ->
  (norm Δp2 <? Controller.param_tol O)
  || (Pars.ll p2 - Pars.ll p1 <? Controller.ll_tol O) = true ->
  squarem pars0 data s
  = (Ok (length (heap s) + 1)%nat, mkState (heap s ++ [p1; p2]) O).
Proof.
  intros O Hn Hp E1 V1 C1 E2 V2 C2. rewrite squarem_run. fold O.
  destruct (Z.to_nat (Controller.n_iter (controller s))) as [|n] eqn:En; [lia|].
  apply squarem_loop_stop.
  apply (squarem_iter_copy_run data _ _ pars0
           (mkState (heap s) O) p (Stop (length (heap s) + 1)) [p1; p2]);
    [reflexivity | exact Hp |].
  cbn [heap controller]. unfold squarem_pass.
  rewrite E1. cbn [mbind result_bind]. rewrite V1. cbn [mbind result_bind].
  rewrite C1, E2. cbn [mbind result_bind]. rewrite V2. cbn [mbind result_bind].
  now rewrite C2.
Qed.

(** the outcome of a pass and the number of objects it creates *)
Lemma squarem_pass_shape (O : Controller.t) (data : SlugData)
    (min_step max_step : npfloat) (n : nat) (p : Pars.t) (out : outcome)
    (created : list Pars.t) :
  squarem_pass O data min_step n p max_step = Ok (out, created) ->
  (out = Stop n /\ length created = 1%nat)
  \/ (out = Stop (n + 1)%nat /\ length created = 2%nat)
  \/ (exists m, (out = Next (n + 1)%nat m \/ out = Next (n + 3)%nat m)
                /\ length created = 4%nat).
Proof.
  intros H. unfold squarem_pass in H.
  destruct (em_step O data p) as [p1|]; [|discriminate H].
  cbn [mbind result_bind] in H.
  destruct (vec_sub (Pars.pars p1) (Pars.pars p)) as [Δp1|]; [|discriminate H].
  cbn [mbind result_bind] in H.
  destruct (_ || _) in H; [injection H as <- <-; auto|].
  destruct (em_step O data p1) as [p2|]; [|discriminate H].
  cbn [mbind result_bind] in H.
  destruct (vec_sub (Pars.pars p2) (Pars.pars p1)) as [Δp2|]; [|discriminate H].
  cbn [mbind result_bind] in H.
  destruct (_ || _) in H; [injection H as <- <-; auto|].
  destruct (vec_sub Δp2 Δp1) as [Δp3|]; [|discriminate H].
  cbn [mbind result_bind] in H. cbv zeta in H.
  destruct (candidate _ _ _ _) as [v|]; [|discriminate H].
  cbn [mbind result_bind] in H.
  destruct (Pars.set_pars v p2) as [q0|]; [|discriminate H].
  cbn [mbind result_bind] in H.
  destruct (Pars.set_pars _ q0) as [q|]; [|discriminate H].
  cbn [mbind result_bind] in H.
  destruct (em_step O data q) as [p_sq|]; [|discriminate H].
  cbn [mbind result_bind] in H. injection H as <- <-.
  right. right. unfold accept_rule.
  destruct (_ <=? _); eexists; split; eauto.
Qed.

Lemma squarem_loop_appends (n : nat) (data : SlugData)
    (min_step max_step : npfloat) (pars r : ref) (s s' : State) :
  Controller.copy_pars (controller s) = true ->
  squarem_loop n data min_step pars max_step s = (Ok r, s') ->
  exists created,
    s' = mkState (heap s ++ created) (controller s)
    /\ (length created <= 4 * n)%nat
    /\ (n = 0%nat -> r = pars /\ created = [])
    /\ (n <> 0%nat -> (length (heap s) <= r < length (heap s ++ created))%nat).
Proof.
  revert pars max_step s. induction n as [|n IH]; intros pars max_step s Hc H;
    cbn [squarem_loop] in H.
  - injection H as <- <-. exists []. rewrite app_nil_r.
    split; [now destruct s|]. split; [cbn; lia|]. split; [auto | congruence].
  - bind_inv H out s1 Hi.
    destruct (squarem_iter_copy _ _ _ _ _ _ _ Hc Hi)
      as (p & created & Hp & Hpass & ->).
    apply squarem_pass_shape in Hpass
      as [[-> Hl]|[[-> Hl]|(m & Hout & Hl)]].
    + injection H as <- <-. exists created.
      split; [reflexivity|]. split; [lia|]. split; [congruence|].
      intros _. rewrite length_app. lia.
    + injection H as <- <-. exists created.
      split; [reflexivity|]. split; [lia|]. split; [congruence|].
      intros _. rewrite length_app. lia.
    + assert (exists pars', out = Next pars' m
                /\ (length (heap s) <= pars' < length (heap s) + 4)%nat)
        as (pars' & -> & Hpars').
      { destruct Hout as [-> | ->]; eexists; split; eauto; lia. }
      apply IH in H; [|exact Hc].
      destruct H as (created' & -> & Hl' & H0 & Hr). cbn [heap controller] in *.
      exists (created ++ created'). rewrite app_assoc.
      split; [reflexivity|]. rewrite !length_app in *. split; [lia|].
      split; [congruence|]. intros _.
      destruct (decide (n = 0%nat)) as [E|E].
      * destruct (H0 E) as [-> ->]. cbn [length]. lia.
      * specialize (Hr E). lia.
Qed.

(** X13. A run of [squarem] that returns has changed no object of the store:
    the objects it worked on are new ones, at most four for every
    iteration, and the object it was given is as before.  With an iteration
    to run it returns one of the new objects, and without one the object it
    was given. *)
Theorem squarem_only_appends (pars0 r : ref) (data : SlugData)
    (s s' : State) :
  squarem pars0 data s = (Ok r, s') ->
  exists created : list Pars.t,
    heap s' = heap s ++ created
    /\ (length created <= 4 * Z.to_nat (Controller.n_iter (controller s)))%nat
    /\ (forall j, (j < length (heap s))%nat -> heap s' !! j = heap s !! j)
    /\ (Controller.n_iter (controller s) <= 0 -> r = pars0 /\ created = [])
    /\ (0 < Controller.n_iter (controller s) ->
        (length (heap s) <= r < length (heap s'))%nat).
Proof.
  intros H. rewrite squarem_run in H.
  apply squarem_loop_appends in H; [|reflexivity].
  destruct H as (created & -> & Hl & H0 & Hr). cbn [heap controller] in *.
  exists created. split; [reflexivity|]. split; [exact Hl|].
  split; [intros j Hj; now apply lookup_app_l|]. split.
  - intros Hn. apply H0. lia.
  - intros Hn. apply Hr. lia.
Qed.

End EarlyStop.

(* ===================================================================== *)
(** ** The bound of the step size along a run *)
(* ===================================================================== *)



Section StepBound.

Context {numeric : Numeric} {emissions : Emissions}.

Local Open Scope np_scope.



End StepBound.


(* ===================================================================== *)
(** ** [em] on an object updated in place *)
(* ===================================================================== *)

Section StepBoundRun.

Context {numeric : Numeric} {emissions : Emissions}.

Local Open Scope np_scope.


End StepBoundRun.


Section EMInPlace.

Context {numeric : Numeric} {emissions : Emissions}.

Local Open Scope np_scope.

Lemma update_pars_inplace_run (r : ref) (data : SlugData) (s : State)
    (p p' : Pars.t) :
  Controller.copy_pars (controller s) = false ->
  heap s !! r = Some p ->
  em_step (controller s) data p = Ok p' ->
  update_pars r data s
  = (Ok r, mkState (<[r := p']> (heap s)) (controller s)).
Proof.
  intros Hc Hp E. rewrite (update_pars_run _ _ _ _ Hp). cbv zeta.
  rewrite Hc. unfold em_step in E.
  destruct (update_pars_body (controller s) data p) as [[[]|e] q];
    [|discriminate E].
  injection E as ->. reflexivity.
Qed.

Lemma em_loop_inplace (n : nat) (pars : ref) (data : SlugData) (s : State)
    (p p' : Pars.t) :
  Controller.copy_pars (controller s) = false ->
  heap s !! pars = Some p ->
  em_iterate n (controller s) data p = Ok p' ->
  em_loop n pars data s
  = (Ok tt, mkState (<[pars := p']> (heap s)) (controller s)).
Proof.
  revert s p. induction n as [|n IH]; intros s p Hc Hp H;
    cbn [em_iterate em_loop] in *.
  - injection H as <-. rewrite list_insert_id by exact Hp. now destruct s.
  - destruct (em_step (controller s) data p) as [p1|] eqn:E1; [|discriminate H].
    cbn [mbind result_bind] in H.
    assert (Hlt : (pars < length (heap s))%nat) by (eapply lookup_lt_Some; eauto).
    rewrite (bind_run _ _ _ _ _ (update_pars_inplace_run _ _ _ _ _ Hc Hp E1)).
    set (s1 := mkState (<[pars := p1]> (heap s)) (controller s)).
    assert (Hp1 : heap s1 !! pars = Some p1).
    { cbn [heap s1]. now apply list_lookup_insert_eq. }
    rewrite (bind_run _ _ _ _ _ (load_run _ s1 p1 Hp1)).
    rewrite (bind_run get_controller _ s1 s1 (controller s) eq_refl).
    destruct (Pars.delta_ll p1 <? Controller.ll_tol (controller s)).
    + injection H as <-. reflexivity.
    + rewrite (IH s1 p1 Hc Hp1 H). cbn [heap controller s1].
      now rewrite list_insert_insert_eq.
Qed.

(** [em] on an object that it updates in place *)
Lemma em_inplace_run (pars : ref) (data : SlugData) (s : State)
    (p p' : Pars.t) :
  Controller.copy_pars (controller s) = false ->
  heap s !! pars = Some p ->
  em_iterate (Z.to_nat (Controller.n_iter (controller s))) (controller s)
    data p = Ok p' ->
  em pars data s
  = (Ok pars, mkState (<[pars := p']> (heap s)) (controller s)).
Proof.
  intros Hc Hp H. unfold em.
  rewrite (bind_run get_controller _ s s (controller s) eq_refl).
  rewrite (bind_run _ _ _ _ _ (em_loop_inplace _ _ _ _ _ _ Hc Hp H)).
  reflexivity.
Qed.

(** X17. With [copy_pars] not set, [em] updates the object it is given in
    place and returns it: the object ends as the iteration of EM steps
    leaves its value (at most [n_iter] steps, stopping after the first step
    with [delta_ll] below [ll_tol]), no object is created and no other
    object changes. *)
Theorem em_in_place (pars : ref) (data : SlugData) (s : State)
    (p p' : Pars.t) :
  Controller.copy_pars (controller s) = false ->
  heap s !! pars = Some p ->
  em_iterate (Z.to_nat (Controller.n_iter (controller s))) (controller s)
    data p = Ok p' ->
  em pars data s
  = (Ok pars, mkState (<[pars := p']> (heap s)) (controller s))
  /\ length (<[pars := p']> (heap s)) = length (heap s)
  /\ forall j, j <> pars -> <[pars := p']> (heap s) !! j = heap s !! j.
Proof.
  intros Hc Hp H. split; [exact (em_inplace_run _ _ _ _ _ Hc Hp H)|].
  split; [apply length_insert|].
  intros j Hj. apply list_lookup_insert_ne. congruence.
Qed.

End EMInPlace.

Lemma em_in_place_witness :
  let c := Stub.ctl false 3 (Fin 0) (Fin 1) (Fin 1) (Fin 2) in
  exists p' : Pars.t,
    @em Stub.numeric (Stub.emissions Stub.halfway Stub.rising) 0%nat Stub.data
      (Stub.store (Fin 0) c)
    = (Ok 0%nat, mkState [p'] c)
    /\ Pars.cont p' = [Fin (7 # 8)].
Proof.
  intros c.
  set (r := @em_iterate Stub.numeric (Stub.emissions Stub.halfway Stub.rising)
              3 c Stub.data (Stub.pars0 (Fin 0))).
  set (p' := ZeroDemo.get (Stub.pars0 (Fin 0)) r).
  assert (E : r = Ok p') by (vm_compute; reflexivity).
  exists p'. split; [|vm_compute; reflexivity].
  exact (proj1 (@em_in_place Stub.numeric
                  (Stub.emissions Stub.halfway Stub.rising)
                  0%nat Stub.data (Stub.store (Fin 0) c) (Stub.pars0 (Fin 0))
                  p' eq_refl eq_refl E)).
Defined.

Lemma squarem_stops_at_first_iterate_witness :
  let c := Stub.ctl false 3 (Fin 10) (Fin 1) (Fin 1) (Fin 2) in
  exists p1 : Pars.t,
    @squarem Stub.numeric (Stub.emissions Stub.halfway Stub.rising)
      0%nat Stub.data (Stub.store (Fin 0) c)
    = (Ok 1%nat,
       mkState [Stub.pars0 (Fin 0); p1] (Controller.set_copy_pars true c))
    /\ Pars.cont p1 = [Fin (1 # 2)].
Proof.
  intros c.
  set (O := Controller.set_copy_pars true c).
  set (p := Stub.pars0 (Fin 0)).
  set (p1 := ZeroDemo.get p
               (@em_step Stub.numeric (Stub.emissions Stub.halfway Stub.rising)
                  O Stub.data p)).
  set (Δp1 := ZeroDemo.get [] (vec_sub (Pars.pars p1) (Pars.pars p))).
  exists p1. split; [|vm_compute; reflexivity].
  apply (@squarem_stops_at_first_iterate Stub.numeric
           (Stub.emissions Stub.halfway Stub.rising) 0%nat Stub.data
           (Stub.store (Fin 0) c) p p1 Δp1);
    vm_compute; reflexivity.
Defined.

Lemma squarem_stops_at_second_iterate_witness :
  let c := Stub.ctl false 3 (Fin (3 # 10)) (Fin 1) (Fin 1) (Fin 2) in
  exists p1 p2 : Pars.t,
    @squarem Stub.numeric (Stub.emissions Stub.halfway Stub.rising)
      0%nat Stub.data (Stub.store (Fin 0) c)
    = (Ok 2%nat,
       mkState [Stub.pars0 (Fin 0); p1; p2] (Controller.set_copy_pars true c))
    /\ Pars.cont p2 = [Fin (3 # 4)].
Proof.
  intros c.
  set (O := Controller.set_copy_pars true c).
  set (p := Stub.pars0 (Fin 0)).
  set (p1 := ZeroDemo.get p
               (@em_step Stub.numeric (Stub.emissions Stub.halfway Stub.rising)
                  O Stub.data p)).
  set (p2 := ZeroDemo.get p
               (@em_step Stub.numeric (Stub.emissions Stub.halfway Stub.rising)
                  O Stub.data p1)).
  set (Δp1 := ZeroDemo.get [] (vec_sub (Pars.pars p1) (Pars.pars p))).
  set (Δp2 := ZeroDemo.get [] (vec_sub (Pars.pars p2) (Pars.pars p1))).
  exists p1, p2. split; [|vm_compute; reflexivity].
  apply (@squarem_stops_at_second_iterate Stub.numeric
           (Stub.emissions Stub.halfway Stub.rising) 0%nat Stub.data
           (Stub.store (Fin 0) c) p p1 p2 Δp1 Δp2);
    vm_compute; reflexivity.
Defined.

Lemma squarem_only_appends_witness :
  let c := Stub.ctl false 3 (Fin 0) (Fin 1) (Fin 1) (Fin 2) in
  let run := @squarem Stub.numeric (Stub.emissions Stub.halfway Stub.rising)
               0%nat Stub.data (Stub.store (Fin 0) c) in
  run.1 = Ok 9%nat
  /\ heap run.2 !! 0%nat = Some (Stub.pars0 (Fin 0))
  /\ (length (heap run.2) <= 13)%nat.
Proof.
  intros c run.
  assert (E : run = (Ok 9%nat, run.2)) by (vm_compute; reflexivity).
  destruct (@squarem_only_appends Stub.numeric
              (Stub.emissions Stub.halfway Stub.rising) 0%nat 9%nat Stub.data
              (Stub.store (Fin 0) c) run.2 E)
    as (created & Hh & Hl & Hold & _ & _).
  split; [reflexivity|]. split.
  - rewrite (Hold 0%nat ltac:(simpl; lia)). reflexivity.
  - rewrite Hh, length_app. cbn [heap Stub.store length] in *.
    change (Z.to_nat (Controller.n_iter (controller (Stub.store (Fin 0) c))))
      with 3%nat in Hl.
    lia.
Defined.


(* ===================================================================== *)
(** ** Runs that do not recompute the log-likelihood *)
(* ===================================================================== *)

Lemma zero_gain_below_tol (a t : npfloat) :
  finite a -> (NP.zero <? t)%np = true -> (a - a <? t)%np = true.
Proof.
  intros [q ->] Ht.
  assert (Hs : val (Fin q - Fin q)%np (q - q)%Q)
    by (apply val_sub; apply val_Fin).
  destruct t as [y| | |]; try discriminate.
  - apply (val_ltb _ _ 0 y (val_Fin 0) (val_Fin y)) in Ht.
    apply (val_ltb _ _ _ _ Hs (val_Fin y)). lra.
  - destruct Hs as (q' & -> & _). reflexivity.
Qed.

Section WithoutLL.

Context {numeric : Numeric} {emissions : Emissions}.

Local Open Scope np_scope.

(** Without [do_ll] a pass of the loop of [squarem] ends at one of its two
    stopping checks. *)
Lemma squarem_pass_without_ll (O : Controller.t) (data : SlugData)
    (min_step max_step : npfloat) (n : nat) (p : Pars.t) (out : outcome)
    (created : list Pars.t) :
  Controller.do_ll O = false ->
  finite (Pars.ll p) ->
  (NP.zero <? Controller.ll_tol O) = true ->
  squarem_pass O data min_step n p max_step = Ok (out, created) ->
  (out = Stop n /\ length created = 1%nat)
  \/ (out = Stop (n + 1)%nat /\ length created = 2%nat).
Proof.
  intros Hll Hfin Htol H. unfold squarem_pass in H.
  destruct (em_step O data p) as [p1|] eqn:E1; [|discriminate H].
  cbn [mbind result_bind] in H.
  destruct (vec_sub (Pars.pars p1) (Pars.pars p)) as [Δp1|]; [|discriminate H].
  cbn [mbind result_bind] in H.
  destruct (_ || _) in H; [injection H as <- <-; auto|].
  destruct (em_step O data p1) as [p2|] eqn:E2; [|discriminate H].
  cbn [mbind result_bind] in H.
  destruct (vec_sub (Pars.pars p2) (Pars.pars p1)) as [Δp2|]; [|discriminate H].
  cbn [mbind result_bind] in H.
  apply em_step_ll in E1. apply em_step_ll in E2. rewrite Hll in E1, E2.
  destruct E1 as [L1 _], E2 as [L2 _].
  assert (C2 : (Pars.ll p2 - Pars.ll p1 <? Controller.ll_tol O) = true).
  { rewrite L2. apply zero_gain_below_tol; [now rewrite L1 | exact Htol]. }
  rewrite C2, orb_true_r in H. injection H as <- <-. auto.
Qed.

(** X16. Without [do_ll] the log-likelihood of the parameters is never
    recomputed, and [squarem] never gets to its extrapolation: for a
    tolerance [ll_tol > 0] and a finite log-likelihood of the starting
    point, the gain [pars2.ll - pars1.ll] that the second stopping check
    reads is zero, so a run that returns has stopped in its first outer
    iteration, with the first or the second EM iterate. *)
Theorem squarem_without_ll_stops_at_once (pars0 r : ref) (data : SlugData)
    (s s' : State) (p : Pars.t) :
  Controller.do_ll (controller s) = false ->
  (NP.zero <? Controller.ll_tol (controller s)) = true ->
  0 < Controller.n_iter (controller s) ->
  heap s !! pars0 = Some p ->
  finite (Pars.ll p) ->
  squarem pars0 data s = (Ok r, s') ->
  exists created : list Pars.t,
    heap s' = heap s ++ created
    /\ ((r = length (heap s) /\ length created = 1%nat)
        \/ (r = (length (heap s) + 1)%nat /\ length created = 2%nat)).
Proof.
  intros Hll Htol Hn Hp Hfin H. rewrite squarem_run in H.
  destruct (Z.to_nat (Controller.n_iter (controller s))) as [|n] eqn:En; [lia|].
  cbn [squarem_loop] in H. bind_inv H out s1 Hi.
  match type of Hi with
  | squarem_iter _ _ _ _ ?st = _ =>
      destruct (squarem_iter_copy _ _ _ _ st _ _ eq_refl Hi)
        as (p0 & created & Hp0 & Hpass & ->)
  end.
  cbn [heap controller] in *. rewrite Hp in Hp0. injection Hp0 as <-.
  apply squarem_pass_without_ll in Hpass; [|exact Hll|exact Hfin|exact Htol].
  exists created.
  destruct Hpass as [[-> Hl]|[-> Hl]]; injection H as <- <-; auto.
Qed.

Lemma em_step_delta_ll (O : Controller.t) (data : SlugData) (p p' : Pars.t) :
  Controller.do_ll O = false ->
  em_step O data p = Ok p' -> Pars.delta_ll p' = Pars.delta_ll p.
Proof.
  intros Hll E. apply em_step_ll in E. rewrite Hll in E.
  destruct E as [E1 E2]. unfold Pars.delta_ll. now rewrite E1, E2.
Qed.

Lemma em_iterate_without_ll (n : nat) (O : Controller.t) (data : SlugData)
    (p : Pars.t) :
  Controller.do_ll O = false ->
  em_iterate n O data p
  = em_steps (if Pars.delta_ll p <? Controller.ll_tol O then Nat.min n 1 else n)
      O data p.
Proof.
  intros Hll. revert p. induction n as [|n IH]; intros p.
  - now destruct (_ <? _).
  - cbn [em_iterate].
    destruct (em_step O data p) as [p1|] eqn:E1.
    + cbn [mbind result_bind].
      rewrite (em_step_delta_ll _ _ _ _ Hll E1).
      destruct (Pars.delta_ll p <? Controller.ll_tol O) eqn:C.
      * replace (Nat.min (S n) 1) with 1%nat by lia.
        cbn [em_steps]. now rewrite E1.
      * rewrite IH, (em_step_delta_ll _ _ _ _ Hll E1), C.
        cbn [em_steps]. now rewrite E1.
    + cbn [mbind result_bind].
      destruct (Pars.delta_ll p <? Controller.ll_tol O).
      * replace (Nat.min (S n) 1) with 1%nat by lia.
        cbn [em_steps]. now rewrite E1.
      * cbn [em_steps]. now rewrite E1.
Qed.

(** X18. Without [do_ll] the stopping test of [em] reads, in every
    iteration, the two log-likelihood values the object came with: [em]
    does not detect convergence.  Updating in place, it makes one EM step
    when [pars.delta_ll < ll_tol] holds at the start (and [n_iter] is at
    least one), and [n_iter] EM steps otherwise. *)
Theorem em_without_ll (pars : ref) (data : SlugData) (s : State)
    (p p' : Pars.t) :
  let O := controller s in
  let n := Z.to_nat (Controller.n_iter O) in
  Controller.copy_pars O = false ->
  Controller.do_ll O = false ->
  heap s !! pars = Some p ->
  em_steps (if Pars.delta_ll p <? Controller.ll_tol O then Nat.min n 1 else n)
    O data p = Ok p' ->
  em pars data s = (Ok pars, mkState (<[pars := p']> (heap s)) O).
Proof.
  intros O n Hc Hll Hp H. apply (em_inplace_run _ _ _ p p' Hc Hp).
  fold O n. now rewrite em_iterate_without_ll.
Qed.

End WithoutLL.

(* ===================================================================== *)
(** ** Runs on the small emission model *)
(* ===================================================================== *)

Lemma squarem_without_ll_stops_at_once_witness :
  let c := Controller.mk false true true false true false false 3
             (Fin (1 # 1000)) (Fin (1 # 100)) (Fin 1) (Fin 1) (Fin 2) in
  let run := @squarem Stub.numeric (Stub.emissions Stub.halfway Stub.rising)
               0%nat Stub.data (Stub.store (Fin 0) c) in
  run.1 = Ok 2%nat
  /\ exists created : list Pars.t,
       heap run.2 = [Stub.pars0 (Fin 0)] ++ created
       /\ length created = 2%nat.
Proof.
  intros c run.
  assert (E : run = (Ok 2%nat, run.2)) by (vm_compute; reflexivity).
  split; [vm_compute; reflexivity|].
  destruct (@squarem_without_ll_stops_at_once Stub.numeric
              (Stub.emissions Stub.halfway Stub.rising) 0%nat 2%nat Stub.data
              (Stub.store (Fin 0) c) run.2 (Stub.pars0 (Fin 0))
              eq_refl eq_refl eq_refl eq_refl (ex_intro _ 0%Q eq_refl) E)
    as (created & Hh & [[Hr _]|[_ Hl]]).
  - discriminate Hr.
  - exists created. split; [exact Hh | exact Hl].
Defined.

Lemma em_without_ll_witness :
  let c := Controller.mk false true true false true false false 3
             (Fin (1 # 1000)) (Fin (1 # 100)) (Fin 1) (Fin 1) (Fin 2) in
  exists p' : Pars.t,
    @em Stub.numeric (Stub.emissions Stub.halfway Stub.rising) 0%nat Stub.data
      (Stub.store (Fin 0) c)
    = (Ok 0%nat, mkState [p'] c)
    /\ Pars.cont p' = [Fin (7 # 8)]
    /\ Pars.delta_ll p' = Pars.delta_ll (Stub.pars0 (Fin 0)).
Proof.
  intros c.
  set (r := @em_steps Stub.numeric (Stub.emissions Stub.halfway Stub.rising)
              3 c Stub.data (Stub.pars0 (Fin 0))).
  set (p' := ZeroDemo.get (Stub.pars0 (Fin 0)) r).
  assert (E : r = Ok p') by (vm_compute; reflexivity).
  exists p'. split; [|split; vm_compute; reflexivity].
  exact (@em_without_ll Stub.numeric (Stub.emissions Stub.halfway Stub.rising)
           0%nat Stub.data (Stub.store (Fin 0) c) (Stub.pars0 (Fin 0)) p'
           eq_refl eq_refl eq_refl E).
Defined.

Lemma em_step_m_steps_witness :
  let c := Controller.mk false true true false true true false 1
             (Fin (1 # 1000)) (Fin 0) (Fin 1) (Fin 1) (Fin 2) in
  let c' := Controller.mk false true false true true true false 1
              (Fin (1 # 1000)) (Fin 0) (Fin 1) (Fin 1) (Fin 2) in
  let p := Stub.pars0 (Fin 0) in
  exists p1 p2 : Pars.t,
    @em_step Stub.numeric (Stub.emissions Stub.halfway Stub.rising)
      c Stub.data p = Ok p1
    /\ update_c [Fin (1 # 2)] [0] 1 = Ok (Pars.cont p1)
    /\ Stub.rising (with_ll_of p p1) = Pars.ll p1
    /\ @em_step Stub.numeric (Stub.emissions Stub.halfway Stub.rising)
         c' Stub.data p = Ok p2
    /\ update_eb [(Fin (1 # 2), Fin (1 # 2))] [1] [false] true
       = Ok (Pars.e p2, Pars.b p2).
Proof.
  intros c c' p.
  set (p1 := ZeroDemo.get p
               (@em_step Stub.numeric (Stub.emissions Stub.halfway Stub.rising)
                  c Stub.data p)).
  set (p2 := ZeroDemo.get p
               (@em_step Stub.numeric (Stub.emissions Stub.halfway Stub.rising)
                  c' Stub.data p)).
  assert (E1 : @em_step Stub.numeric (Stub.emissions Stub.halfway Stub.rising)
                 c Stub.data p = Ok p1) by (vm_compute; reflexivity).
  assert (E2 : @em_step Stub.numeric (Stub.emissions Stub.halfway Stub.rising)
                 c' Stub.data p = Ok p2) by (vm_compute; reflexivity).
  exists p1, p2.
  destruct (@em_step_m_steps Stub.numeric
              (Stub.emissions Stub.halfway Stub.rising) c Stub.data p p1 E1)
    as (H1 & _ & H3).
  destruct (@em_step_m_steps Stub.numeric
              (Stub.emissions Stub.halfway Stub.rising) c' Stub.data p p2 E2)
    as (_ & H2 & _).
  destruct (H1 eq_refl) as (post_c & Hc & Hu).
  destruct (H2 eq_refl eq_refl) as (post_x & Hx & He).
  specialize (H3 eq_refl).
  vm_compute in Hc. injection Hc as <-.
  vm_compute in Hx. injection Hx as <-.
  split; [exact E1|]. split; [exact Hu|].
  split; [exact (f_equal (ZeroDemo.get NaN) H3)|].
  split; [exact E2 | exact He].
Defined.

Lemma em_step_shadow_copies_witness :
  let c := Controller.mk false true true true true true false 1
             (Fin (1 # 1000)) (Fin 0) (Fin 1) (Fin 1) (Fin 2) in
  let p := Stub.pars0 (Fin 0) in
  exists p' : Pars.t,
    @em_step Stub.numeric (Stub.emissions Stub.halfway Stub.rising)
      c Stub.data p = Ok p'
    /\ Pars.cont p' = [Fin (1 # 2)]
    /\ Pars.prev_cont p' = [Fin 0]
    /\ Pars.prev_e p' = Fin (1 # 100)
    /\ Pars.prev_ll p' = Fin 0
    /\ Pars.F p' = [Fin (1 # 4)].
Proof.
  intros c p.
  set (p' := ZeroDemo.get p
               (@em_step Stub.numeric (Stub.emissions Stub.halfway Stub.rising)
                  c Stub.data p)).
  assert (E : @em_step Stub.numeric (Stub.emissions Stub.halfway Stub.rising)
                c Stub.data p = Ok p') by (vm_compute; reflexivity).
  exists p'. split; [exact E|].
  destruct (@em_step_shadow_copies Stub.numeric
              (Stub.emissions Stub.halfway Stub.rising) c Stub.data p p' E)
    as (H1 & H2 & H3 & H4).
  change (Controller.update_ftau c) with false in H1.
  change (Controller.update_cont c) with true in H2.
  change (Controller.update_eb c) with true in H3.
  change (Controller.do_ll c) with true in H4.
  cbv iota in H1, H2, H3, H4.
  split; [vm_compute; reflexivity|].
  split; [exact (H2 eq_refl)|]. split; [exact (proj1 H3)|].
  split; [exact H4 | exact (proj1 H1)].
Defined.
